(** * Bot Arena backend: the match simulation engine

    A shallow embedding of the path oracle (A* search), the grid generator,
    the collision checks and the match engine of the backend, with the
    properties of the specification proved over it.

    Conventions of the embedding:
    - a JavaScript number that holds a coordinate, a counter or a time in
      milliseconds is a [Z];
    - [number[][]] is [list (list Z)], read with [cell], which gives [None]
      where JavaScript gives [undefined];
    - a JavaScript [Map] is an association list in insertion order
      (module [JsMap]);
    - [Date.now()] and [Math.random()] are inputs of the functions that
      read them;
    - a [throw] is the [Err] outcome; the state that comes with it is the
      state at the time of the throw. *)

From Stdlib Require Import ZArith List Lia Bool Arith Sorted Permutation.
From Stdlib Require String DecimalString.
From Stdlib Require Import PrimFloat FloatOps SpecFloat.
Import ListNotations String.StringSyntax.
Delimit Scope string_scope with string.
Bind Scope string_scope with String.string.
Local Open Scope Z_scope.
#[local] Set Warnings "-register-all,-inexact-float".

(** ** Positions and grids (pathfindingService.ts) *)

Record Position : Type := mkPos { pos_x : Z; pos_y : Z }.

Definition Position_eqb (a b : Position) : bool :=
  (pos_x a =? pos_x b) && (pos_y a =? pos_y b).

(** 0 = empty, 1 = obstacle, 2 = start, 3 = end *)
Definition Grid : Type := list (list Z).

(** [l[i]] for an integer index: [None] is JavaScript's [undefined]. *)
Definition zth {A : Type} (l : list A) (i : Z) : option A :=
  if i <? 0 then None else nth_error l (Z.to_nat i).

Definition zlen {A : Type} (l : list A) : Z := Z.of_nat (length l).

(** [grid[y][x]]; every use in the source sits behind a bounds check on
    [y], so the row is never [undefined] where it is read. *)
Definition cell (grid : Grid) (x y : Z) : option Z :=
  match zth grid y with
  | Some row => zth row x
  | None => None
  end.

(** [grid[0].length]. In [isWalkable] and [checkObstacleCollision] it is
    read only after [y >= grid.length] was false for some [y >= 0], so the
    grid is not empty there; the value for the empty grid is never used by
    them. *)
Definition row0_length (grid : Grid) : Z :=
  match grid with
  | [] => 0
  | row :: _ => zlen row
  end.

Definition heuristic (a b : Position) : Z :=
  Z.abs (pos_x a - pos_x b) + Z.abs (pos_y a - pos_y b).

Definition isWalkable (grid : Grid) (x y : Z) : bool :=
  if (x <? 0) || (y <? 0) || (y >=? zlen grid) || (x >=? row0_length grid)
  then false
  else match cell grid x y with
       | Some 1 => false
       | _ => true
       end.

(** A search node; [parent] is the JavaScript reference to the node it was
    reached from. A node is referenced as a parent only after it left the
    open set, and only nodes in the open set are written to, so a value
    stands for the object. *)
Inductive PathNode : Type :=
  mkNode (x y g h f : Z) (parent : option PathNode).

Definition node_x (n : PathNode) : Z := let (x, _, _, _, _, _) := n in x.
Definition node_y (n : PathNode) : Z := let (_, y, _, _, _, _) := n in y.
Definition node_g (n : PathNode) : Z := let (_, _, g, _, _, _) := n in g.
Definition node_h (n : PathNode) : Z := let (_, _, _, h, _, _) := n in h.
Definition node_f (n : PathNode) : Z := let (_, _, _, _, f, _) := n in f.
Definition node_parent (n : PathNode) : option PathNode :=
  let (_, _, _, _, _, p) := n in p.
Definition node_pos (n : PathNode) : Position := mkPos (node_x n) (node_y n).

(** [new PathNode(x, y, parent)] *)
Definition newPathNode (x y : Z) (parent : option PathNode) : PathNode :=
  mkNode x y 0 0 0 parent.

Definition directions : list (Z * Z) := [(0, -1); (0, 1); (-1, 0); (1, 0)].

Definition getNeighbors (grid : Grid) (node : PathNode) : list PathNode :=
  flat_map (fun dir : Z * Z =>
              let newX := node_x node + fst dir in
              let newY := node_y node + snd dir in
              if isWalkable grid newX newY
              then [newPathNode newX newY (Some node)]
              else [])
           directions.

(** The [while (current !== null)] loop of [reconstructPath]: [path] is the
    array built so far by [unshift]. *)
Fixpoint reconstructPath_loop (current : PathNode) (path : list Position)
  : list Position :=
  match current with
  | mkNode x y _ _ _ parent =>
      match parent with
      | None => mkPos x y :: path
      | Some p => reconstructPath_loop p (mkPos x y :: path)
      end
  end.

Definition reconstructPath (endNode : PathNode) : list Position :=
  reconstructPath_loop endNode [].

(** The [for] loop of [findLowestF] from index [i] on; [rest] is
    [openSet.slice(i)] and [lowest] is [openSet[lowestIndex]]. *)
Fixpoint findLowestF_loop (rest : list PathNode) (i : nat)
  (lowestIndex : nat) (lowestF : Z) (lowest : PathNode) : nat :=
  match rest with
  | [] => lowestIndex
  | n :: rest' =>
      if node_f n <? lowestF
      then findLowestF_loop rest' (S i) i (node_f n) n
      else if (node_f n =? lowestF) && (node_h n <? node_h lowest)
           then findLowestF_loop rest' (S i) i lowestF n
           else findLowestF_loop rest' (S i) lowestIndex lowestF lowest
  end.

(** Called on a non-empty open set only. *)
Definition findLowestF (openSet : list PathNode) : nat :=
  match openSet with
  | [] => 0%nat
  | first :: rest => findLowestF_loop rest 1%nat 0%nat (node_f first) first
  end.

(** [openSet.splice(index, 1)] *)
Fixpoint splice1 {A : Type} (index : nat) (l : list A) : list A :=
  match l, index with
  | [], _ => []
  | _ :: l', O => l'
  | a :: l', S i => a :: splice1 i l'
  end.

(** [openSet.findIndex(n => n.x === x && n.y === y)] *)
Fixpoint findIndex (p : Position) (openSet : list PathNode) : option nat :=
  match openSet with
  | [] => None
  | n :: rest =>
      if Position_eqb (node_pos n) p then Some 0%nat
      else option_map S (findIndex p rest)
  end.

(** The in-place update of [openSet[index]] on a better path. *)
Fixpoint updateAt (index : nat) (upd : PathNode -> PathNode)
  (l : list PathNode) : list PathNode :=
  match l, index with
  | [], _ => []
  | n :: l', O => upd n :: l'
  | n :: l', S i => n :: updateAt i upd l'
  end.

Definition closedSet_has (closedSet : list Position) (p : Position) : bool :=
  existsb (Position_eqb p) closedSet.

(** The body of [for (const neighbor of neighbors)]. *)
Definition relaxNeighbor (end_ : Position) (current : PathNode)
  (closedSet : list Position) (openSet : list PathNode)
  (neighbor : PathNode) : list PathNode :=
  if closedSet_has closedSet (node_pos neighbor) then openSet
  else
    let tentativeG := node_g current + 1 in
    match findIndex (node_pos neighbor) openSet with
    | None =>
        let h := heuristic (node_pos neighbor) end_ in
        openSet ++ [mkNode (node_x neighbor) (node_y neighbor)
                           tentativeG h (tentativeG + h) (Some current)]
    | Some existingIndex =>
        match nth_error openSet existingIndex with
        | Some existing =>
            if tentativeG <? node_g existing
            then updateAt existingIndex
                   (fun n => mkNode (node_x n) (node_y n) tentativeG
                                    (node_h n) (tentativeG + node_h n)
                                    (Some current))
                   openSet
            else openSet
        | None => openSet
        end
    end.

(** The [while (openSet.length > 0)] loop of [findPath]. [None] is "the
    fuel ran out"; [findPath_fuel_enough] shows that it does not happen
    with the fuel [findPath] gives. *)
Fixpoint findPath_loop (fuel : nat) (grid : Grid) (end_ : Position)
  (openSet : list PathNode) (closedSet : list Position)
  : option (list Position) :=
  match fuel with
  | O => None
  | S fuel' =>
      match openSet with
      | [] => Some []
      | first :: _ =>
          let currentIndex := findLowestF openSet in
          let current := nth currentIndex openSet first in
          if (node_x current =? pos_x end_) && (node_y current =? pos_y end_)
          then Some (reconstructPath current)
          else
            let openSet1 := splice1 currentIndex openSet in
            let closedSet1 := node_pos current :: closedSet in
            let neighbors := getNeighbors grid current in
            findPath_loop fuel' grid end_
              (fold_left (relaxNeighbor end_ current closedSet1)
                         neighbors openSet1)
              closedSet1
      end
  end.

Definition findPath_fuel (fuel : nat) (grid : Grid) (start end_ : Position)
  : option (list Position) :=
  if negb (isWalkable grid (pos_x start) (pos_y start))
     || negb (isWalkable grid (pos_x end_) (pos_y end_))
  then Some []
  else
    let h := heuristic start end_ in
    let startNode := mkNode (pos_x start) (pos_y start) 0 h (0 + h) None in
    findPath_loop fuel grid end_ [startNode] [].

(** One iteration closes one cell, and one more sees the open set empty. *)
Definition search_fuel (grid : Grid) : nat :=
  S (S (length grid * Z.to_nat (row0_length grid))).

Definition findPath (grid : Grid) (start end_ : Position) : list Position :=
  match findPath_fuel (search_fuel grid) grid start end_ with
  | Some path => path
  | None => []
  end.

Definition getPathLength (grid : Grid) (start end_ : Position) : Z :=
  let path := findPath grid start end_ in
  if zlen path >? 0 then zlen path - 1 else -1.

Definition hasPath (grid : Grid) (start end_ : Position) : bool :=
  zlen (findPath grid start end_) >? 0.

Definition isValidMove (from to : Position) : bool :=
  let dx := Z.abs (pos_x from - pos_x to) in
  let dy := Z.abs (pos_y from - pos_y to) in
  ((dx =? 1) && (dy =? 0)) || ((dx =? 0) && (dy =? 1)).

Definition grid4 : Grid :=
  [[2; 0; 0; 0]; [0; 0; 0; 0]; [0; 0; 0; 0]; [0; 0; 0; 3]].

(** ** JavaScript values used by the services *)

(** A [Map] with string keys: the entries in insertion order; [set] on a
    key that is present keeps its place. *)
Module JsMap.

Definition t (V : Type) : Type := list (String.string * V).

Definition empty {V : Type} : t V := [].

Fixpoint get {V : Type} (m : t V) (k : String.string) : option V :=
  match m with
  | [] => None
  | (k', v) :: m' => if String.eqb k' k then Some v else get m' k
  end.

Definition has {V : Type} (m : t V) (k : String.string) : bool :=
  match get m k with
  | Some _ => true
  | None => false
  end.

Fixpoint set {V : Type} (m : t V) (k : String.string) (v : V) : t V :=
  match m with
  | [] => [(k, v)]
  | (k', v') :: m' =>
      if String.eqb k' k then (k', v) :: m' else (k', v') :: set m' k v
  end.

Definition delete {V : Type} (m : t V) (k : String.string) : t V :=
  filter (fun e => negb (String.eqb (fst e) k)) m.

Definition entries {V : Type} (m : t V) : list (String.string * V) := m.

End JsMap.

(** A number that may be [Infinity] (the ranking time of a bot without a
    finish time). *)
Inductive Num : Type :=
| Fin (z : Z)
| Infinity.

Definition Num_add (a : Num) (b : Z) : Num :=
  match a with
  | Fin z => Fin (z + b)
  | Infinity => Infinity
  end.

(** [a - b <= 0] for the comparator [(a, b) => a - b]; [Infinity - Infinity]
    is [NaN], which [sort] takes as 0. *)
Definition Num_leb (a b : Num) : bool :=
  match a, b with
  | Fin x, Fin y => x <=? y
  | Fin _, Infinity => true
  | Infinity, Fin _ => false
  | Infinity, Infinity => true
  end.

(** [Array.prototype.sort] with a consistent comparator is a stable sort;
    [leb a b] is "the comparator does not put [b] before [a]". *)
Fixpoint insertBy {A : Type} (leb : A -> A -> bool) (a : A) (l : list A)
  : list A :=
  match l with
  | [] => [a]
  | b :: l' => if leb a b then a :: l else b :: insertBy leb a l'
  end.

Definition sortBy {A : Type} (leb : A -> A -> bool) (l : list A) : list A :=
  fold_right (insertBy leb) [] l.

(** [arr.slice(start, end)] with integer arguments; [None] for an omitted
    [end]. A negative index counts from the end of the array. *)
Definition slice_index {A : Type} (l : list A) (i : Z) : nat :=
  if i <? 0 then Z.to_nat (Z.max (zlen l + i) 0)
  else Z.to_nat (Z.min i (zlen l)).

Definition slice {A : Type} (l : list A) (start : Z) (end_ : option Z)
  : list A :=
  let from := slice_index l start in
  let to := match end_ with
            | Some e => slice_index l e
            | None => length l
            end in
  firstn (to - from) (skipn from l).

(** [v || d] for a number that may be [undefined]: 0 is falsy. *)
Definition orElse (v : option Z) (d : Z) : Z :=
  match v with
  | Some 0 => d
  | Some z => z
  | None => d
  end.

(** ** Collision checks (collisionService.ts) *)

Record GridSize : Type := mkGridSize { rows : Z; cols : Z }.

Record BotPosition : Type :=
  mkBotPosition { bp_botId : String.string; bp_position : Position }.

Definition COLLISION_PENALTY_SECONDS : Z := 10.

Definition checkObstacleCollision (grid : Grid) (position : Position)
  : bool :=
  if (pos_y position <? 0) || (pos_y position >=? zlen grid)
     || (pos_x position <? 0) || (pos_x position >=? row0_length grid)
  then false
  else match cell grid (pos_x position) (pos_y position) with
       | Some 1 => true
       | _ => false
       end.

Definition checkBoundaryCollision (position : Position)
  (gridSize : GridSize) : bool :=
  (pos_x position <? 0) || (pos_x position >=? cols gridSize)
  || (pos_y position <? 0) || (pos_y position >=? rows gridSize).

Fixpoint checkBotCollision (positions : list BotPosition)
  (botId : String.string) (newPosition : Position) : option String.string :=
  match positions with
  | [] => None
  | bp :: rest =>
      if negb (String.eqb (bp_botId bp) botId)
         && (pos_x (bp_position bp) =? pos_x newPosition)
         && (pos_y (bp_position bp) =? pos_y newPosition)
      then Some (bp_botId bp)
      else checkBotCollision rest botId newPosition
  end.

Definition calculateTotalPenalty (collisionCount : Z) : Z :=
  collisionCount * COLLISION_PENALTY_SECONDS.

Definition getPenaltySeconds : Z := COLLISION_PENALTY_SECONDS.

(** ** The record store (the rows the services read and write) *)

(** A [BotGame] row: one participant of one game. *)
Record BotGame : Type := mkBotGame {
  bg_id : String.string;
  bg_botId : String.string;
  bg_position : Z;
  bg_completionTime : option Z;
  bg_collisions : Z;
  bg_eliminated : bool;
  bg_eliminatedAt : option Z;
  bg_level1Time : option Z;
  bg_level2Time : option Z;
  bg_level3Time : option Z
}.

Record Arena : Type := mkArena {
  gridRows : Z;
  gridCols : Z;
  obstacleCount : Z;
  timeLimit : Z
}.

Inductive GameStatus : Type :=
| WAITING | LEVEL_1 | LEVEL_2 | LEVEL_3 | COMPLETED | CANCELLED.

(** A [Game] row with its arena and with its [BotGame] rows in the order
    the table holds them. *)
Record Game : Type := mkGame {
  status : GameStatus;
  currentLevel : Z;
  arena : Arena;
  participants : list BotGame;
  prizePool : float;           (* [Number(game.prizePool)] *)
  winnerId : option String.string
}.

(** A [Move] row. *)
Record Move : Type := mkMove {
  mv_gameId : String.string;
  mv_botId : String.string;
  mv_level : Z;
  mv_fromX : Z;
  mv_fromY : Z;
  mv_toX : Z;
  mv_toY : Z;
  mv_moveNumber : Z;
  mv_isCollision : bool
}.

(** ** The match engine (gameService.ts) *)

Definition MAX_BOTS_PER_GAME : Z := 10.

Definition ELIMINATION_MAP (level : Z) : option Z :=
  if level =? 1 then Some 2
  else if level =? 2 then Some 4
  else if level =? 3 then Some 3
  else None.

Record GameState : Type := mkGameState {
  grid : Grid;
  botPositions : JsMap.t Position;
  endPosition : Position;
  startTime : Z;
  moveCounters : JsMap.t Z;
  botFinishTimes : JsMap.t Z
}.

(** What the services work on: the in-memory [activeGames] map and the
    tables of the record store. *)
Record World : Type := mkWorld {
  activeGames : JsMap.t GameState;
  games : JsMap.t Game;
  moves : list Move
}.

Inductive Error : Type :=
| GameStateNotFound   (* 'Game state not found. Level may not have started.' *)
| BotNotActive        (* 'Bot is not active in this game' *)
| AlreadyFinished     (* 'Bot has already reached the finish' *)
| InvalidMove         (* 'Invalid move: must move to an adjacent cell ...' *)
| OutOfBounds         (* 'Invalid move: out of bounds' *)
| GameNotFound        (* 'Game not found' *)
| NotParticipant      (* 'Bot is not a participant in this game' *)
| TypeError.          (* a property of [undefined] was read *)

Inductive Outcome (A : Type) : Type :=
| Ok (a : A)
| Err (e : Error).

Arguments Ok {A} a.
Arguments Err {A} e.

Definition set_activeGames (w : World) (m : JsMap.t GameState) : World :=
  mkWorld m (games w) (moves w).

Definition set_games (w : World) (m : JsMap.t Game) : World :=
  mkWorld (activeGames w) m (moves w).

Definition add_move (w : World) (mv : Move) : World :=
  mkWorld (activeGames w) (games w) (moves w ++ [mv]).

Definition set_participants (g : Game) (ps : list BotGame) : Game :=
  mkGame (status g) (currentLevel g) (arena g) ps (prizePool g) (winnerId g).

(** [GameModel.findById]: the game with its participants
    [orderBy: { position: 'asc' }]. *)
Definition GameModel_findById (w : World) (gameId : String.string)
  : option Game :=
  match JsMap.get (games w) gameId with
  | Some g =>
      Some (set_participants g
              (sortBy (fun a b => bg_position a <=? bg_position b)
                      (participants g)))
  | None => None
  end.

(** [GameModel.updateStatus(id, status, currentLevel)]; [status] is
    [undefined] for a level outside 1..3 and is then left as it is. *)
Definition GameModel_updateStatus (w : World) (gameId : String.string)
  (st : option GameStatus) (level : Z) : World :=
  match JsMap.get (games w) gameId with
  | Some g =>
      set_games w
        (JsMap.set (games w) gameId
           (mkGame (match st with Some s => s | None => status g end)
                   level (arena g) (participants g) (prizePool g)
                   (winnerId g)))
  | None => w
  end.

(** [prisma.botGame.findUnique({ where: { botId_gameId } })] *)
Definition botGame_findUnique (w : World) (botId gameId : String.string)
  : option BotGame :=
  match JsMap.get (games w) gameId with
  | Some g => find (fun p => String.eqb (bg_botId p) botId) (participants g)
  | None => None
  end.

Fixpoint update_row (id : String.string) (upd : BotGame -> BotGame)
  (rows_ : list BotGame) : list BotGame :=
  match rows_ with
  | [] => []
  | p :: rest =>
      if String.eqb (bg_id p) id then upd p :: rest
      else p :: update_row id upd rest
  end.

(** [prisma.botGame.update({ where: { id }, data })] on a row of the game. *)
Definition botGame_update (w : World) (gameId id : String.string)
  (upd : BotGame -> BotGame) : World :=
  match JsMap.get (games w) gameId with
  | Some g =>
      set_games w
        (JsMap.set (games w) gameId
           (set_participants g (update_row id upd (participants g))))
  | None => w
  end.

Definition incr_collisions (p : BotGame) : BotGame :=
  mkBotGame (bg_id p) (bg_botId p) (bg_position p) (bg_completionTime p)
            (bg_collisions p + 1) (bg_eliminated p) (bg_eliminatedAt p)
            (bg_level1Time p) (bg_level2Time p) (bg_level3Time p).

Definition set_eliminated (level : Z) (p : BotGame) : BotGame :=
  mkBotGame (bg_id p) (bg_botId p) (bg_position p) (bg_completionTime p)
            (bg_collisions p) true (Some level)
            (bg_level1Time p) (bg_level2Time p) (bg_level3Time p).

Definition set_position (position : Z) (p : BotGame) : BotGame :=
  mkBotGame (bg_id p) (bg_botId p) position (bg_completionTime p)
            (bg_collisions p) (bg_eliminated p) (bg_eliminatedAt p)
            (bg_level1Time p) (bg_level2Time p) (bg_level3Time p).

Definition set_levelTime (level : Z) (finishTime : Z) (p : BotGame)
  : BotGame :=
  mkBotGame (bg_id p) (bg_botId p) (bg_position p) (bg_completionTime p)
            (bg_collisions p) (bg_eliminated p) (bg_eliminatedAt p)
            (if level =? 1 then Some finishTime else bg_level1Time p)
            (if level =? 1 then bg_level2Time p
             else if level =? 2 then Some finishTime else bg_level2Time p)
            (if level =? 1 then bg_level3Time p
             else if level =? 2 then bg_level3Time p else Some finishTime).

(** [CollisionService.handleCollision]: the result is
    [{ collisions, penalty }]. [updatedBotGame] is the row with the id of
    [botGame] after the increment; ids are the primary key of the table, so
    it is [botGame] with one collision more. *)
Definition handleCollision (w : World) (gameId botId : String.string)
  : Outcome (Z * Z) * World :=
  match botGame_findUnique w botId gameId with
  | None => (Err NotParticipant, w)
  | Some botGame =>
      let w' := botGame_update w gameId (bg_id botGame) incr_collisions in
      let penalty := COLLISION_PENALTY_SECONDS in
      (Ok (bg_collisions (incr_collisions botGame), penalty), w')
  end.

(** [arr[i] = v] for an index inside the array. Every write of the
    services is to an index inside the array when the grid has at least
    one row and one column; outside, the list is left as it is. *)
Fixpoint setNth {A : Type} (i : nat) (v : A) (l : list A) : list A :=
  match l, i with
  | [], _ => []
  | _ :: l', O => v :: l'
  | a :: l', S j => a :: setNth j v l'
  end.

(** [grid[y][x] = v] *)
Definition setCell (g : Grid) (x y v : Z) : Grid :=
  match zth g y with
  | Some row =>
      if (0 <=? x) && (x <? zlen row)
      then setNth (Z.to_nat y) (setNth (Z.to_nat x) v row) g
      else g
  | None => g
  end.

(** The state of the [while] loop of [generateGrid]. *)
Record GenState : Type := mkGenState {
  gen_grid : Grid;
  gen_placed : Z;
  gen_attempts : Z
}.

(** The loop of [generateGrid]. [random i] is the pair
    [(Math.floor(Math.random() * cols), Math.floor(Math.random() * rows))]
    drawn in the iteration that starts with [attempts = i]. [None] is "the
    fuel ran out while the loop condition held". *)
Fixpoint generateGrid_loop (fuel : nat) (random : Z -> Z * Z)
  (rows_ cols_ obstacleCount_ maxAttempts : Z) (st : GenState)
  : option GenState :=
  if (gen_placed st <? obstacleCount_) && (gen_attempts st <? maxAttempts)
  then
    match fuel with
    | O => None
    | S fuel' =>
        let g := gen_grid st in
        let (x, y) := random (gen_attempts st) in
        let continue_ st' :=
          generateGrid_loop fuel' random rows_ cols_ obstacleCount_
                            maxAttempts st' in
        match cell g x y with
        | Some 0 =>
            if ((x <=? 1) && (y <=? 1))
               || ((x >=? cols_ - 2) && (y >=? rows_ - 2))
            then continue_ (mkGenState g (gen_placed st)
                                       (gen_attempts st + 1))
            else
              let g1 := setCell g x y 1 in
              if hasPath g1 (mkPos 0 0) (mkPos (cols_ - 1) (rows_ - 1))
              then continue_ (mkGenState g1 (gen_placed st + 1)
                                         (gen_attempts st + 1))
              else continue_ (mkGenState (setCell g1 x y 0) (gen_placed st)
                                         (gen_attempts st + 1))
        | _ => continue_ (mkGenState g (gen_placed st) (gen_attempts st + 1))
        end
    end
  else Some st.

(** [generateGrid(rows, cols, obstacleCount)] with the final loop counters.
    The model covers grids of at least one row and one column; with no row
    the source throws at [grid[0][0] = 2], and with no column it writes
    outside the rows: both are [None] here. *)
Definition generateGrid_run (random : Z -> Z * Z)
  (rows_ cols_ obstacleCount_ : Z) : option GenState :=
  if (rows_ <? 1) || (cols_ <? 1) then None
  else
    let g0 := repeat (repeat 0 (Z.to_nat cols_)) (Z.to_nat rows_) in
    let g1 := setCell g0 0 0 2 in
    let g2 := setCell g1 (cols_ - 1) (rows_ - 1) 3 in
    let maxAttempts := obstacleCount_ * 10 in
    generateGrid_loop (Z.to_nat maxAttempts) random rows_ cols_
                      obstacleCount_ maxAttempts (mkGenState g2 0 0).

Definition generateGrid (random : Z -> Z * Z)
  (rows_ cols_ obstacleCount_ : Z) : option Grid :=
  option_map gen_grid (generateGrid_run random rows_ cols_ obstacleCount_).

(** What [startLevel] returns (without [timeLimit], which it copies from
    the arena). *)
Record LevelStart : Type := mkLevelStart {
  ls_grid : Grid;
  ls_endPosition : Position;
  ls_botPositions : JsMap.t Position;
  ls_level : Z
}.

Definition statusMap (level : Z) : option GameStatus :=
  if level =? 1 then Some LEVEL_1
  else if level =? 2 then Some LEVEL_2
  else if level =? 3 then Some LEVEL_3
  else None.

(** [startLevel(gameId, level)]. [levelObstacleCount] stands for
    [Math.floor(obstacleCount * (1 + (level - 1) * 0.3))], a floating-point
    product that no property below depends on. [randoms k] is the random
    source of the [k]-th grid generation, and [retries] bounds the
    regenerations ([None] when they run out or the grid is outside the
    model of [generateGrid]). *)
Fixpoint startLevel (retries : nat) (w : World) (now : Z)
  (randoms : nat -> Z -> Z * Z) (levelObstacleCount : Z)
  (gameId : String.string) (level : Z)
  : option (Outcome LevelStart * World) :=
  match GameModel_findById w gameId with
  | None => Some (Err GameNotFound, w)
  | Some game =>
      let gridRows_ := gridRows (arena game) in
      let gridCols_ := gridCols (arena game) in
      match generateGrid (randoms retries) gridRows_ gridCols_
                         levelObstacleCount with
      | None => None
      | Some grid_ =>
          let endPosition_ := mkPos (gridCols_ - 1) (gridRows_ - 1) in
          let path := findPath grid_ (mkPos 0 0) endPosition_ in
          if zlen path =? 0 then
            match retries with
            | O => None
            | S retries' =>
                startLevel retries' w now randoms levelObstacleCount
                           gameId level
            end
          else
            let activeParticipants :=
              filter (fun p => negb (bg_eliminated p)) (participants game) in
            let botPositions_ :=
              fold_left (fun m p => JsMap.set m (bg_botId p) (mkPos 0 0))
                        activeParticipants JsMap.empty in
            let moveCounters_ :=
              fold_left (fun m p => JsMap.set m (bg_botId p) 0)
                        activeParticipants JsMap.empty in
            let gameState :=
              mkGameState grid_ botPositions_ endPosition_ now
                          moveCounters_ JsMap.empty in
            let w1 :=
              set_activeGames w (JsMap.set (activeGames w) gameId gameState) in
            let w2 := GameModel_updateStatus w1 gameId (statusMap level) level in
            Some (Ok (mkLevelStart grid_ endPosition_ botPositions_ level), w2)
      end
  end.

(** The three shapes of the object [processMove] returns. *)
Inductive MoveResult : Type :=
| Collided (penalty totalCollisions : Z) (position : Position)
           (moveNumber : Z)
    (* success: false, isCollision: true *)
| Blocked (blockedBy : String.string) (position : Position) (moveNumber : Z)
    (* success: false, isCollision: false, blocked: true *)
| Moved (position : Position) (moveNumber : Z) (finished : bool)
        (finishTime : option Z).
    (* success: true, isCollision: false *)

Definition set_gameState (w : World) (gameId : String.string)
  (gs : GameState) : World :=
  set_activeGames w (JsMap.set (activeGames w) gameId gs).

(** [processMove(gameId, botId, { toX, toY })]; [now] is the [Date.now()]
    read when the bot reaches the finish. The [gameState] object is shared
    with [activeGames], so each write to it is a write to the map entry. *)
Definition processMove (w : World) (now : Z) (gameId botId : String.string)
  (toX toY : Z) : Outcome MoveResult * World :=
  match JsMap.get (activeGames w) gameId with
  | None => (Err GameStateNotFound, w)
  | Some gameState =>
  match JsMap.get (botPositions gameState) botId with
  | None => (Err BotNotActive, w)
  | Some currentPosition =>
  if JsMap.has (botFinishTimes gameState) botId
  then (Err AlreadyFinished, w)
  else
  let newPosition := mkPos toX toY in
  if negb (isValidMove currentPosition newPosition)
  then (Err InvalidMove, w)
  else
  match grid gameState with
  | [] => (Err TypeError, w)
  | row0 :: _ =>
  let gridSize := mkGridSize (zlen (grid gameState)) (zlen row0) in
  if checkBoundaryCollision newPosition gridSize
  then (Err OutOfBounds, w)
  else
  match GameModel_findById w gameId with
  | None => (Err GameNotFound, w)
  | Some game =>
  let moveNumber := orElse (JsMap.get (moveCounters gameState) botId) 0 + 1 in
  let gameState1 :=
    mkGameState (grid gameState) (botPositions gameState)
                (endPosition gameState) (startTime gameState)
                (JsMap.set (moveCounters gameState) botId moveNumber)
                (botFinishTimes gameState) in
  let w1 := set_gameState w gameId gameState1 in
  if checkObstacleCollision (grid gameState1) newPosition
  then
    match handleCollision w1 gameId botId with
    | (Err e, w2) => (Err e, w2)
    | (Ok (collisions, penalty), w2) =>
        let w3 :=
          add_move w2
            (mkMove gameId botId (currentLevel game)
                    (pos_x currentPosition) (pos_y currentPosition)
                    (pos_x newPosition) (pos_y newPosition)
                    moveNumber true) in
        (Ok (Collided penalty collisions currentPosition moveNumber), w3)
    end
  else
    let botPositionsArray :=
      map (fun e => mkBotPosition (fst e) (snd e))
          (filter (fun e => negb (JsMap.has (botFinishTimes gameState1)
                                            (fst e)))
                  (JsMap.entries (botPositions gameState1))) in
    match checkBotCollision botPositionsArray botId newPosition with
    | Some blockingBot =>
        (Ok (Blocked blockingBot currentPosition moveNumber), w1)
    | None =>
        let gameState2 :=
          mkGameState (grid gameState1)
                      (JsMap.set (botPositions gameState1) botId newPosition)
                      (endPosition gameState1) (startTime gameState1)
                      (moveCounters gameState1)
                      (botFinishTimes gameState1) in
        let w2 := set_gameState w1 gameId gameState2 in
        let w3 :=
          add_move w2
            (mkMove gameId botId (currentLevel game)
                    (pos_x currentPosition) (pos_y currentPosition)
                    (pos_x newPosition) (pos_y newPosition)
                    moveNumber false) in
        if (pos_x newPosition =? pos_x (endPosition gameState2))
           && (pos_y newPosition =? pos_y (endPosition gameState2))
        then
          let finishTime := now - startTime gameState2 in
          let gameState3 :=
            mkGameState (grid gameState2) (botPositions gameState2)
                        (endPosition gameState2) (startTime gameState2)
                        (moveCounters gameState2)
                        (JsMap.set (botFinishTimes gameState2) botId
                                   finishTime) in
          let w4 := set_gameState w3 gameId gameState3 in
          let w5 :=
            match botGame_findUnique w4 botId gameId with
            | Some botGame =>
                botGame_update w4 gameId (bg_id botGame)
                               (set_levelTime (currentLevel game) finishTime)
            | None => w4
            end in
          (Ok (Moved newPosition moveNumber true
                     (JsMap.get (botFinishTimes gameState3) botId)), w5)
        else (Ok (Moved newPosition moveNumber false None), w3)
    end
  end end end end.

(** [checkLevelComplete(gameId)]; [now] is the [Date.now()] of the timeout
    check. *)
Definition checkLevelComplete (w : World) (now : Z) (gameId : String.string)
  : bool * World :=
  match JsMap.get (activeGames w) gameId with
  | None => (false, w)
  | Some gameState =>
  match GameModel_findById w gameId with
  | None => (false, w)
  | Some game =>
      let activeParticipants :=
        filter (fun p => negb (bg_eliminated p)) (participants game) in
      let allFinished :=
        forallb (fun p => JsMap.has (botFinishTimes gameState) (bg_botId p))
                activeParticipants in
      let elapsedMs := now - startTime gameState in
      let timeLimitMs := timeLimit (arena game) * 1000 in
      let timedOut := elapsedMs >=? timeLimitMs in
      if allFinished || timedOut then
        if timedOut then
          let finishTimes :=
            fold_left
              (fun m p => if negb (JsMap.has m (bg_botId p))
                          then JsMap.set m (bg_botId p) (timeLimitMs + 999999)
                          else m)
              activeParticipants (botFinishTimes gameState) in
          (true,
           set_gameState w gameId
             (mkGameState (grid gameState) (botPositions gameState)
                          (endPosition gameState) (startTime gameState)
                          (moveCounters gameState) finishTimes))
        else (true, w)
      else (false, w)
  end end.

(** An entry of [rankings]. *)
Record Ranking : Type := mkRanking {
  rk_botId : String.string;
  rk_botGameId : String.string;
  rk_totalTime : Num;
  rk_collisions : Z
}.

Record Elimination : Type := mkElimination {
  el_qualified : list String.string;
  el_eliminated : list String.string;
  el_rankings : list Ranking
}.

(** [gameState.botFinishTimes.get(p.botId) || Infinity] *)
Definition finishTimeOrInfinity (v : option Z) : Num :=
  match v with
  | Some 0 => Infinity
  | Some t => Fin t
  | None => Infinity
  end.

Definition ranking_of (gameState : GameState) (p : BotGame) : Ranking :=
  let finishTime :=
    finishTimeOrInfinity (JsMap.get (botFinishTimes gameState) (bg_botId p)) in
  let penaltyMs := bg_collisions p * getPenaltySeconds * 1000 in
  mkRanking (bg_botId p) (bg_id p) (Num_add finishTime penaltyMs)
            (bg_collisions p).

(** The second loop of [eliminateBots]: [qualified[i]] gets position
    [i + 1]. *)
Fixpoint rerank (w : World) (gameId : String.string)
  (qualified : list Ranking) (i : Z) : World :=
  match qualified with
  | [] => w
  | q :: rest =>
      rerank (botGame_update w gameId (rk_botGameId q) (set_position (i + 1)))
             gameId rest (i + 1)
  end.

(** [eliminateBots(gameId, level)] *)
Definition eliminateBots (w : World) (gameId : String.string) (level : Z)
  : Outcome Elimination * World :=
  match JsMap.get (activeGames w) gameId with
  | None => (Err GameStateNotFound, w)
  | Some gameState =>
  match GameModel_findById w gameId with
  | None => (Err GameNotFound, w)
  | Some game =>
      let activeParticipants :=
        filter (fun p => negb (bg_eliminated p)) (participants game) in
      let eliminationCount :=
        match ELIMINATION_MAP level with Some n => n | None => 0 end in
      let rankings :=
        sortBy (fun a b => Num_leb (rk_totalTime a) (rk_totalTime b))
               (map (ranking_of gameState) activeParticipants) in
      let qualifiedCount := zlen rankings - eliminationCount in
      let qualified := slice rankings 0 (Some qualifiedCount) in
      let eliminated := slice rankings qualifiedCount None in
      let w1 :=
        fold_left (fun w' bot =>
                     botGame_update w' gameId (rk_botGameId bot)
                                    (set_eliminated level))
                  eliminated w in
      let w2 := rerank w1 gameId qualified 0 in
      (Ok (mkElimination (map rk_botId qualified) (map rk_botId eliminated)
                         rankings), w2)
  end end.

Definition set_completionTime (totalTime : Z) (p : BotGame) : BotGame :=
  mkBotGame (bg_id p) (bg_botId p) (bg_position p) (Some totalTime)
            (bg_collisions p) (bg_eliminated p) (bg_eliminatedAt p)
            (bg_level1Time p) (bg_level2Time p) (bg_level3Time p).

(** [GameModel.setWinner] *)
Definition GameModel_setWinner (w : World) (gameId winner : String.string)
  : World :=
  match JsMap.get (games w) gameId with
  | Some g =>
      set_games w
        (JsMap.set (games w) gameId
           (mkGame COMPLETED (currentLevel g) (arena g) (participants g)
                   (prizePool g) (Some winner)))
  | None => w
  end.

(** What [completeGame] returns. *)
Record Completion : Type := mkCompletion {
  cg_winnerId : String.string;
  cg_prizePool : float;
  cg_winnerPrize : float
}.

(** [completeGame(gameId, winnerId)]. The [Bot] table and the settlement
    contract are outside the model: the calls of [BotModel.updateStats] and
    [ContractService.completeGameOnChain] leave no trace here (a failure of
    the latter is caught by the source). *)
Definition completeGame (w : World) (gameId winner : String.string)
  : Outcome Completion * World :=
  match GameModel_findById w gameId with
  | None => (Err GameNotFound, w)
  | Some game =>
      let w1 := GameModel_setWinner w gameId winner in
      let prizePool_ := prizePool game in
      let winnerPrize := (prizePool_ * 0.9)%float in
      let w2 :=
        match botGame_findUnique w1 winner gameId with
        | Some winnerBotGame =>
            let totalTime :=
              orElse (bg_level1Time winnerBotGame) 0
              + orElse (bg_level2Time winnerBotGame) 0
              + orElse (bg_level3Time winnerBotGame) 0 in
            botGame_update w1 gameId (bg_id winnerBotGame)
                           (set_completionTime totalTime)
        | None => w1
        end in
      let w3 := set_activeGames w2 (JsMap.delete (activeGames w2) gameId) in
      (Ok (mkCompletion winner prizePool_ winnerPrize), w3)
  end.

(** ** Helpers (utils/helpers.ts) *)








(** ** The agent service (agentGameService.ts) *)

(** ['up' | 'down' | 'left' | 'right'] *)
Inductive Direction : Type := dir_up | dir_down | dir_left | dir_right.

(** [DIRECTION_DELTAS[direction]] as [(dx, dy)]. *)
Definition DIRECTION_DELTAS (direction : Direction) : Z * Z :=
  match direction with
  | dir_up => (0, -1)
  | dir_down => (0, 1)
  | dir_left => (-1, 0)
  | dir_right => (1, 0)
  end.

Definition translateDirection (position : Position) (direction : Direction)
  : Position :=
  let delta := DIRECTION_DELTAS direction in
  mkPos (pos_x position + fst delta) (pos_y position + snd delta).

(** [GameService.getGameState] and [GameService.getMaxBotsPerGame]. *)
Definition getGameState (w : World) (gameId : String.string)
  : option GameState :=
  JsMap.get (activeGames w) gameId.

Definition getMaxBotsPerGame : Z := MAX_BOTS_PER_GAME.

(** What [checkAndHandleLevelTransition] returns. *)
Inductive Transition : Type :=
| NoTransition                                  (* [null] *)
| GameComplete (result : Completion)            (* type: 'game_complete' *)
| LevelStart_ (level : Z) (levelData : LevelStart). (* type: 'level_start' *)

(** [checkAndHandleLevelTransition(gameId)] without a socket server (the
    [io] argument only adds broadcasts). [now] is the clock of
    [checkLevelComplete], and [nowStart], [retries], [randoms] and
    [levelObstacleCount] are handed to [startLevel]. [if (winnerId)] is
    false for the empty string. *)
Definition checkAndHandleLevelTransition (retries : nat) (w : World)
  (now nowStart : Z) (randoms : nat -> Z -> Z * Z) (levelObstacleCount : Z)
  (gameId : String.string) : option (Outcome Transition * World) :=
  let (levelComplete, w1) := checkLevelComplete w now gameId in
  if negb levelComplete then Some (Ok NoTransition, w1)
  else
    match GameModel_findById w1 gameId with
    | None => Some (Ok NoTransition, w1)
    | Some game =>
        let currentLevel_ := currentLevel game in
        match eliminateBots w1 gameId currentLevel_ with
        | (Err e, w2) => Some (Err e, w2)
        | (Ok eliminationResult, w2) =>
            if currentLevel_ >=? 3 then
              match el_qualified eliminationResult with
              | winnerId_ :: _ =>
                  if String.eqb winnerId_ ""%string
                  then Some (Ok NoTransition, w2)
                  else
                    match completeGame w2 gameId winnerId_ with
                    | (Err e, w3) => Some (Err e, w3)
                    | (Ok result, w3) => Some (Ok (GameComplete result), w3)
                    end
              | [] => Some (Ok NoTransition, w2)
              end
            else
              let nextLevel := currentLevel_ + 1 in
              match startLevel retries w2 nowStart randoms levelObstacleCount
                               gameId nextLevel with
              | None => None
              | Some (Err e, w3) => Some (Err e, w3)
              | Some (Ok levelData, w3) =>
                  Some (Ok (LevelStart_ nextLevel levelData), w3)
              end
        end
    end.

(** [submitAgentMove(gameId, botId, direction)]: the move of
    [processMove], then the level transition. *)
Definition submitAgentMove (retries : nat) (w : World)
  (now nowCheck nowStart : Z) (randoms : nat -> Z -> Z * Z)
  (levelObstacleCount : Z) (gameId botId : String.string)
  (direction : Direction) : option (Outcome MoveResult * World) :=
  match getGameState w gameId with
  | None => Some (Err GameStateNotFound, w)
  | Some gameState =>
      match JsMap.get (botPositions gameState) botId with
      | None => Some (Err BotNotActive, w)
      | Some currentPosition =>
          let targetPosition := translateDirection currentPosition direction in
          match processMove w now gameId botId (pos_x targetPosition)
                            (pos_y targetPosition) with
          | (Err e, w1) => Some (Err e, w1)
          | (Ok result, w1) =>
              match checkAndHandleLevelTransition retries w1 nowCheck nowStart
                      randoms levelObstacleCount gameId with
              | None => None
              | Some (Err e, w2) => Some (Err e, w2)
              | Some (Ok _, w2) => Some (Ok result, w2)
              end
          end
      end
  end.

(** What [getOptimalPath] returns: [message] is set in the two cases
    without a path, [stepsRemaining] otherwise. *)
Record OptimalPath : Type := mkOptimalPath {
  op_path : list Position;
  op_directions : list Direction;
  op_message : option String.string;
  op_stepsRemaining : option Z
}.

(** The loop of [getOptimalPath] that turns a path into directions; a
    step that is none of the four pushes nothing. *)
Fixpoint pathDirections (path : list Position) : list Direction :=
  match path with
  | [] => []
  | a :: rest =>
      match rest with
      | [] => []
      | b :: _ =>
          let dx := pos_x b - pos_x a in
          let dy := pos_y b - pos_y a in
          (if dx =? 1 then [dir_right]
           else if dx =? -1 then [dir_left]
           else if dy =? 1 then [dir_down]
           else if dy =? -1 then [dir_up]
           else [])
          ++ pathDirections rest
      end
  end.

Definition getOptimalPath (w : World) (gameId botId : String.string)
  : Outcome OptimalPath :=
  match getGameState w gameId with
  | None => Err GameStateNotFound
  | Some gameState =>
      match JsMap.get (botPositions gameState) botId with
      | None => Err BotNotActive
      | Some currentPosition =>
          if JsMap.has (botFinishTimes gameState) botId
          then Ok (mkOptimalPath [] [] (Some "Already at finish"%string) None)
          else
            let path := findPath (grid gameState) currentPosition
                                 (endPosition gameState) in
            if zlen path =? 0
            then Ok (mkOptimalPath [] [] (Some "No path found"%string) None)
            else
              let directions_ := pathDirections path in
              Ok (mkOptimalPath path directions_ None
                                (Some (zlen directions_)))
      end
  end.



(** The [liveData] of [getAgentGameState]. *)
Record LiveData : Type := mkLiveData {
  ld_grid : Grid;
  ld_endPosition : Position;
  ld_myPosition : option Position;
  ld_botPositions : JsMap.t Position;
  ld_elapsedMs : Z;
  ld_timeRemainingMs : Z;
  ld_finished : bool;
  ld_finishTime : option Z
}.

(** The parts of the polling state that [getAgentGameState] computes; the
    other fields are copies of columns of the game and its arena. *)
Record AgentGameState : Type := mkAgentGameState {
  ags_status : GameStatus;
  ags_currentLevel : Z;
  ags_participantCount : Z;
  ags_maxParticipants : Z;
  ags_agent : BotGame;
  ags_liveData : option LiveData;
  ags_winner : option (String.string * bool)    (* botId, isMe *)
}.

Inductive AgentError : Type :=
| AgentGameNotFound          (* 'Game not found' *)
| AgentNotParticipant.       (* 'Agent is not a participant in this game' *)

(** [getAgentGameState(gameId, botId)]; [now] is its [Date.now()]. A
    [winnerId] that is the empty string counts as no winner. *)
Definition getAgentGameState (w : World) (now : Z)
  (gameId botId : String.string) : AgentError + AgentGameState :=
  match GameModel_findById w gameId with
  | None => inl AgentGameNotFound
  | Some game =>
      let gameState := getGameState w gameId in
      match find (fun p => String.eqb (bg_botId p) botId)
                 (participants game) with
      | None => inl AgentNotParticipant
      | Some agentParticipant =>
          let liveData :=
            match gameState with
            | Some gs =>
                let currentPosition := JsMap.get (botPositions gs) botId in
                let elapsedMs := now - startTime gs in
                let timeLimitMs_ := timeLimit (arena game) * 1000 in
                Some (mkLiveData (grid gs) (endPosition gs) currentPosition
                        (botPositions gs) elapsedMs
                        (Z.max 0 (timeLimitMs_ - elapsedMs))
                        (JsMap.has (botFinishTimes gs) botId)
                        (match JsMap.get (botFinishTimes gs) botId with
                         | Some 0 => None
                         | Some t => Some t
                         | None => None
                         end))
            | None => None
            end in
          let winner :=
            match status game, winnerId game with
            | COMPLETED, Some wid =>
                if String.eqb wid ""%string then None
                else Some (wid, String.eqb wid botId)
            | _, _ => None
            end in
          inr (mkAgentGameState (status game) (currentLevel game)
                 (zlen (participants game)) getMaxBotsPerGame
                 agentParticipant liveData winner)
      end
  end.

(** ** The statistics calls of [completeGame] (gameService.ts) *)



(** ** The move test of the WebSocket handler (socketHandler.ts) *)


(** * The vocabulary of the specification

    Routes, invariants, the states the services reach, and the small
    matches the examples run on. *)

(** A cell the search may enter: inside the grid and not an obstacle. *)
Definition walkable (grid : Grid) (p : Position) : Prop :=
  isWalkable grid (pos_x p) (pos_y p) = true.

(** One cardinal step: the source's own adjacency test. *)
Definition adjacent (p q : Position) : Prop := isValidMove p q = true.

(** [Route grid s e path]: [path] runs from [s] to [e] inclusive, every
    cell of it is walkable and consecutive cells are one cardinal step
    apart. *)
Definition Route (grid : Grid) (s e : Position) (path : list Position)
  : Prop :=
  hd_error path = Some s /\
  last path s = e /\
  Forall (walkable grid) path /\
  forall i p q,
    nth_error path i = Some p -> nth_error path (S i) = Some q ->
    adjacent p q.

(** The same, built one step at a time from the start, which is how the
    search builds it. *)
Inductive Walk (grid : Grid) (s : Position)
  : Position -> list Position -> Prop :=
| Walk_start : walkable grid s -> Walk grid s s [s]
| Walk_step : forall v w path,
    Walk grid s v path -> adjacent v w -> walkable grid w ->
    Walk grid s w (path ++ [w]).

(** What the search knows of a node in the open set: the parent chain is
    a route from the start of [g] steps, and [h], [f] are as computed. *)
Definition node_ok (grid : Grid) (start end_ : Position) (n : PathNode)
  : Prop :=
  Walk grid start (node_pos n) (reconstructPath n) /\
  zlen (reconstructPath n) = node_g n + 1 /\
  node_h n = heuristic (node_pos n) end_ /\
  node_f n = node_g n + node_h n.

(** The open set holds cell [w] at cost at most [k]. *)
Definition covers (openSet : list PathNode) (w : Position) (k : Z) : Prop :=
  exists n, In n openSet /\ node_pos n = w /\ node_g n <= k.

(** The open node [n] after a better path through [current] was found. *)
Definition better (current : PathNode) (n : PathNode) : PathNode :=
  mkNode (node_x n) (node_y n) (node_g current + 1) (node_h n)
         (node_g current + 1 + node_h n) (Some current).

(** The neighbours handed to the relaxation loop of [current]. *)
Definition near (grid : Grid) (current : PathNode) (nbs : list PathNode)
  : Prop :=
  forall nb, In nb nbs ->
             adjacent (node_pos current) (node_pos nb) /\
             walkable grid (node_pos nb).

(** The loop invariant of [findPath]. *)
Record Inv (grid : Grid) (start end_ : Position)
  (openSet : list PathNode) (closedSet : list Position) : Prop := {
  inv_ok : forall n, In n openSet -> node_ok grid start end_ n;
  inv_nodup : NoDup (map node_pos openSet);
  inv_disjoint : forall n, In n openSet -> ~ In (node_pos n) closedSet;
  inv_frontier : forall c w path,
    In c closedSet -> adjacent c w -> walkable grid w ->
    Walk grid start c path ->
    In w closedSet \/ covers openSet w (zlen path);
  inv_start : In start closedSet \/ covers openSet start 0;
  inv_end : ~ In end_ closedSet;
  inv_closed_nodup : NoDup closedSet;
  inv_closed_walkable : forall c, In c closedSet -> walkable grid c
}.

(** Every cell inside the bounds [isWalkable] tests. *)
Definition allCells (grid : Grid) : list Position :=
  flat_map (fun y => map (fun x => mkPos (Z.of_nat x) (Z.of_nat y))
                         (seq 0 (Z.to_nat (row0_length grid))))
           (seq 0 (length grid)).

(** What a finished search has found. *)
Definition search_result (grid : Grid) (start end_ : Position)
  (res : list Position) : Prop :=
  (res = [] /\ forall path, ~ Walk grid start end_ path) \/
  (Walk grid start end_ res /\
   forall path, Walk grid start end_ path -> (length res <= length path)%nat).

(** A grid of [R] rows of [C] cells each. *)
Definition rect (g : Grid) (R C : Z) : Prop :=
  zlen g = R /\ Forall (fun row => zlen row = C) g.

(** The sum of [f] over a list. *)
Definition sumZ {A : Type} (f : A -> Z) (l : list A) : Z :=
  fold_right (fun a acc => f a + acc) 0 l.

(** 1 for an obstacle cell and 0 for any other. *)
Definition isObstacle (v : Z) : Z := if v =? 1 then 1 else 0.

(** The number of cells of the grid that hold 1. *)
Definition count_obstacles (g : Grid) : Z := sumZ (sumZ isObstacle) g.

(** The invariant of the loop of [generateGrid] for an [R] x [C] grid and a
    target of [N] obstacles. *)
Record GenInv (R C N : Z) (st : GenState) : Prop := {
  gi_rect : rect (gen_grid st) R C;
  gi_start : cell (gen_grid st) 0 0 = Some 2;
  gi_end : cell (gen_grid st) (C - 1) (R - 1) = Some 3;
  gi_count : count_obstacles (gen_grid st) = gen_placed st;
  gi_placed : 0 <= gen_placed st <= N;
  gi_buffer : forall x y,
    cell (gen_grid st) x y = Some 1 ->
    ~ (x <= 1 /\ y <= 1) /\ ~ (x >= C - 2 /\ y >= R - 2);
  gi_path :
    hasPath (gen_grid st) (mkPos 0 0) (mkPos (C - 1) (R - 1)) = true
}.

(** The destination lies outside the grid of the round. *)
Definition out_of_grid (g : Grid) (x y : Z) : Prop :=
  x < 0 \/ x >= row0_length g \/ y < 0 \/ y >= zlen g.

(** The destination passes the boundary check. *)
Definition in_grid (g : Grid) (x y : Z) : Prop :=
  0 <= x < row0_length g /\ 0 <= y < zlen g.

(** A move that passes every check up to the lookup of the game: the round
    state [gs] exists, the bot is live at [cur] and has not finished, the
    destination is one cardinal step away and inside the grid, and the
    record store has the game. *)
Record Accepted (w : World) (gameId botId : String.string) (toX toY : Z)
  (gs : GameState) (cur : Position) (game : Game) : Prop := {
  acc_state : JsMap.get (activeGames w) gameId = Some gs;
  acc_live : JsMap.get (botPositions gs) botId = Some cur;
  acc_unfinished : JsMap.has (botFinishTimes gs) botId = false;
  acc_adjacent : isValidMove cur (mkPos toX toY) = true;
  acc_in_grid : in_grid (grid gs) toX toY;
  acc_game : GameModel_findById w gameId = Some game
}.

(** The move number the call gives out. *)
Definition next_moveNumber (gs : GameState) (botId : String.string) : Z :=
  orElse (JsMap.get (moveCounters gs) botId) 0 + 1.

(** The round state after the move counter of [botId] was raised. *)
Definition counted (gs : GameState) (botId : String.string) : GameState :=
  mkGameState (grid gs) (botPositions gs) (endPosition gs) (startTime gs)
              (JsMap.set (moveCounters gs) botId (next_moveNumber gs botId))
              (botFinishTimes gs).

(** The row [prisma.move.create] writes for the move. *)
Definition move_record (gameId botId : String.string) (game : Game)
  (cur : Position) (toX toY : Z) (moveNumber : Z) (isCollision : bool)
  : Move :=
  mkMove gameId botId (currentLevel game) (pos_x cur) (pos_y cur) toX toY
         moveNumber isCollision.

(** The bots that can block: the entries of the position map without a
    finish time. *)
Definition blockers (gs : GameState) : list BotPosition :=
  map (fun e => mkBotPosition (fst e) (snd e))
      (filter (fun e => negb (JsMap.has (botFinishTimes gs) (fst e)))
              (JsMap.entries (botPositions gs))).

(** The round state after a move to [(toX, toY)] was committed. *)
Definition advanced (gs : GameState) (botId : String.string) (toX toY : Z)
  : GameState :=
  mkGameState (grid gs)
              (JsMap.set (botPositions gs) botId (mkPos toX toY))
              (endPosition gs) (startTime gs)
              (JsMap.set (moveCounters gs) botId (next_moveNumber gs botId))
              (botFinishTimes gs).

(** The round state after the finish time of [botId] was recorded. *)
Definition finished_at (gs : GameState) (botId : String.string)
  (finishTime : Z) : GameState :=
  mkGameState (grid gs) (botPositions gs) (endPosition gs) (startTime gs)
              (moveCounters gs)
              (JsMap.set (botFinishTimes gs) botId finishTime).

(** The primary key of the [BotGame] table: no two rows of a game share an
    id. *)
Definition unique_ids (w : World) (gameId : String.string) : Prop :=
  forall g, JsMap.get (games w) gameId = Some g ->
            NoDup (map bg_id (participants g)).

(** The [BotGame] rows of a game as the table holds them. *)
Definition rowsOf (w : World) (gameId : String.string) : list BotGame :=
  match JsMap.get (games w) gameId with
  | Some g => participants g
  | None => []
  end.

(** [!p.eliminated] *)
Definition is_active (p : BotGame) : bool := negb (bg_eliminated p).

(** The number of participants of the game that are not eliminated. *)
Definition survivors (w : World) (gameId : String.string) : nat :=
  length (filter is_active (rowsOf w gameId)).

(** The order of [orderBy: { position: 'asc' }]. *)
Definition by_position (a b : BotGame) : bool :=
  bg_position a <=? bg_position b.

(** The order of the comparator [(a, b) => a.totalTime - b.totalTime]. *)
Definition by_time (a b : Ranking) : bool :=
  Num_leb (rk_totalTime a) (rk_totalTime b).

(** The non-eliminated participants as [findById] lists them. *)
Definition activeParticipantsOf (w : World) (gameId : String.string)
  : list BotGame :=
  filter is_active (sortBy by_position (rowsOf w gameId)).

(** [ELIMINATION_MAP[level] || 0] *)
Definition eliminationCount (level : Z) : Z :=
  match ELIMINATION_MAP level with Some n => n | None => 0 end.

Definition mem (s : String.string) (l : list String.string) : bool :=
  existsb (String.eqb s) l.

(** The rows after the first loop of [eliminateBots]. *)
Definition elim_rows (level : Z) (eliminated : list Ranking)
  (rows_ : list BotGame) : list BotGame :=
  fold_left (fun rs e => update_row (rk_botGameId e) (set_eliminated level) rs)
            eliminated rows_.

(** The rows after the second loop. *)
Fixpoint rerank_rows (qualified : list Ranking) (i : Z)
  (rows_ : list BotGame) : list BotGame :=
  match qualified with
  | [] => rows_
  | q :: rest =>
      rerank_rows rest (i + 1)
                  (update_row (rk_botGameId q) (set_position (i + 1)) rows_)
  end.

(** The position the second loop gives to the row [id]. *)
Fixpoint rank_in (id : String.string) (qualified : list Ranking) (i : Z)
  : option Z :=
  match qualified with
  | [] => None
  | q :: rest =>
      if String.eqb id (rk_botGameId q) then Some (i + 1)
      else rank_in id rest (i + 1)
  end.

Definition eliminate_row (level : Z) (eliminated : list Ranking)
  (p : BotGame) : BotGame :=
  if mem (bg_id p) (map rk_botGameId eliminated)
  then set_eliminated level p else p.

Definition rerank_row (qualified : list Ranking) (i : Z) (p : BotGame)
  : BotGame :=
  match rank_in (bg_id p) qualified i with
  | Some r => set_position r p
  | None => p
  end.

(** The ranking list of [eliminateBots]. *)
Definition rankingsOf (w : World) (gameId : String.string) (gs : GameState)
  : list Ranking :=
  sortBy by_time (map (ranking_of gs) (activeParticipantsOf w gameId)).

(** The finish-time map after the timeout loop of [checkLevelComplete]. *)
Definition with_sentinels (sentinel : Z) (activeParticipants : list BotGame)
  (finishTimes : JsMap.t Z) : JsMap.t Z :=
  fold_left (fun m p => if negb (JsMap.has m (bg_botId p))
                        then JsMap.set m (bg_botId p) sentinel
                        else m)
            activeParticipants finishTimes.

Definition with_finishTimes (gs : GameState) (finishTimes : JsMap.t Z)
  : GameState :=
  mkGameState (grid gs) (botPositions gs) (endPosition gs) (startTime gs)
              (moveCounters gs) finishTimes.

Definition timeLimitMs (g : Game) : Z := timeLimit (arena g) * 1000.

Definition all_finished (gs : GameState) (ps : list BotGame) : bool :=
  forallb (fun p => JsMap.has (botFinishTimes gs) (bg_botId p)) ps.

Definition demo_grid : Grid := [[2; 1; 0]; [0; 0; 0]; [0; 0; 3]].

Definition demo_row (id botId : String.string) (position collisions : Z)
  : BotGame :=
  mkBotGame id botId position None collisions false None None None None.

Definition demo_game : Game :=
  mkGame LEVEL_1 1 (mkArena 3 3 1 60)
         [demo_row "r1" "a" 1 0; demo_row "r2" "b" 2 0; demo_row "r3" "c" 3 0]
         3%float None.

(** Bot a is at the start, bot b below it, and bot c has finished at the
    goal after 5 seconds. *)
Definition demo_state : GameState :=
  mkGameState demo_grid
              [("a", mkPos 0 0); ("b", mkPos 0 1); ("c", mkPos 2 2)]%string
              (mkPos 2 2) 1000
              [("a", 0); ("b", 0); ("c", 4)]%string
              [("c", 5000)]%string.

Definition demo_world : World :=
  mkWorld [("g", demo_state)]%string [("g", demo_game)]%string [].

(** The worlds the server reaches from a start without active games: by
    starting levels, processing moves, checking for completion, completing
    games, and by any write to the record store that keeps the games it has
    (creating games, joining bots, eliminating bots). *)
Inductive Reachable : World -> Prop :=
| reach_boot : forall w, activeGames w = JsMap.empty -> Reachable w
| reach_store :
    forall w games',
      Reachable w ->
      (forall gameId g, JsMap.get (games w) gameId = Some g ->
                        exists g', JsMap.get games' gameId = Some g') ->
      Reachable (set_games w games')
| reach_startLevel :
    forall w retries now randoms levelObstacleCount gameId level outcome w',
      Reachable w ->
      startLevel retries w now randoms levelObstacleCount gameId level
      = Some (outcome, w') ->
      Reachable w'
| reach_processMove :
    forall w now gameId botId toX toY,
      Reachable w ->
      Reachable (snd (processMove w now gameId botId toX toY))
| reach_checkLevelComplete :
    forall w now gameId,
      Reachable w -> Reachable (snd (checkLevelComplete w now gameId))
| reach_completeGame :
    forall w gameId winner,
      Reachable w -> Reachable (snd (completeGame w gameId winner)).

(** Every live position is inside the grid of its round and not on an
    obstacle. *)
Definition positions_walkable (w : World) : Prop :=
  forall gameId gs botId p,
    JsMap.get (activeGames w) gameId = Some gs ->
    JsMap.get (botPositions gs) botId = Some p ->
    in_grid (grid gs) (pos_x p) (pos_y p) /\
    cell (grid gs) (pos_x p) (pos_y p) <> Some 1.

Definition demo_boot : World := mkWorld [] [("g", demo_game)]%string [].

Definition demo_random (k : nat) (i : Z) : Z * Z := (i mod 3, (i / 3) mod 3).

(** Every round state in memory belongs to a game of the record store. *)
Definition store_consistent (w : World) : Prop :=
  forall gameId gs,
    JsMap.get (activeGames w) gameId = Some gs ->
    exists g, JsMap.get (games w) gameId = Some g.

(** The demo match after its first level started, and after bot a stepped
    to the right, next to the obstacle. *)
Definition demo_started : World :=
  match startLevel 0 demo_boot 1000 demo_random 1 "g" 1 with
  | Some (_, w) => w
  | None => demo_boot
  end.

Definition demo_moved : World :=
  snd (processMove demo_started 1500 "g" "a" 1 0).

(** A match for the round timeout: bot p finished after 50 seconds with
    101 collisions on its record, bot u has not finished; the time budget
    is 60 seconds and the round started at time 0. *)
Definition timeout_world : World :=
  mkWorld
    [("g", mkGameState demo_grid
                       [("p", mkPos 2 2); ("u", mkPos 0 0)]%string
                       (mkPos 2 2) 0
                       [("p", 110); ("u", 0)]%string
                       [("p", 50000)]%string)]%string
    [("g", mkGame LEVEL_1 1 (mkArena 3 3 1 60)
                  [demo_row "r1" "p" 1 101; demo_row "r2" "u" 2 0]
                  2%float None)]%string
    [].

(** The survivors and the fallen of a round, in ranking order. *)
Definition qualifiedOf (w : World) (gameId : String.string) (gs : GameState)
  (level : Z) : list Ranking :=
  firstn (Z.to_nat (zlen (rankingsOf w gameId gs) - eliminationCount level))
         (rankingsOf w gameId gs).

Definition eliminatedOf (w : World) (gameId : String.string) (gs : GameState)
  (level : Z) : list Ranking :=
  skipn (Z.to_nat (zlen (rankingsOf w gameId gs) - eliminationCount level))
        (rankingsOf w gameId gs).


(** ** More vocabulary: frames, level starts and sample matches *)

(** The cells visited when the directions are followed from [p]. *)
Fixpoint replay (p : Position) (ds : list Direction) : list Position :=
  match ds with
  | [] => [p]
  | d :: ds' => p :: replay (translateDirection p d) ds'
  end.

(** [m] comes strictly before [n] in the order [findLowestF] selects by:
    lower [f], and on equal [f] lower [h]. *)
Definition lower_fh (m n : PathNode) : Prop :=
  node_f m < node_f n \/ (node_f m = node_f n /\ node_h m < node_h n).

Definition grid_blocked : Grid := [[0; 1; 0]; [0; 1; 0]; [0; 1; 0]].

(** The columns of a [BotGame] row that [eliminateBots] does not write. *)
Definition row_record (p : BotGame)
  : String.string * String.string * Z * option Z
    * (option Z * option Z * option Z) :=
  (bg_id p, bg_botId p, bg_collisions p, bg_completionTime p,
   (bg_level1Time p, bg_level2Time p, bg_level3Time p)).

(** The columns of a [Game] row other than its participants. *)
Definition game_record (g : Game)
  : GameStatus * Z * Arena * float * option String.string :=
  (status g, currentLevel g, arena g, prizePool g, winnerId g).

(** [(level1Time || 0) + (level2Time || 0) + (level3Time || 0)] *)
Definition totalLevelTime (p : BotGame) : Z :=
  orElse (bg_level1Time p) 0 + orElse (bg_level2Time p) 0
  + orElse (bg_level3Time p) 0.

(** The demo match with bot a's first two level times on its row. *)
Definition demo_timed : World :=
  mkWorld [("g", demo_state)]%string
          [("g", mkGame LEVEL_3 3 (mkArena 3 3 1 60)
                        [mkBotGame "r1" "a" 1 None 2 false None
                                   (Some 4000) (Some 6000) None;
                         demo_row "r2" "b" 2 0]
                        3%float None)]%string
          [].

(** The frame of a sequence of such updates. *)
Definition same_but_ranks (gameId : String.string) (w w' : World) : Prop :=
  activeGames w' = activeGames w /\ moves w' = moves w /\
  (forall other, other <> gameId ->
                 JsMap.get (games w') other = JsMap.get (games w) other) /\
  option_map game_record (JsMap.get (games w') gameId)
  = option_map game_record (JsMap.get (games w) gameId) /\
  map row_record (rowsOf w' gameId) = map row_record (rowsOf w gameId) /\
  Forall2 (fun p p' => bg_eliminated p = true -> bg_eliminated p' = true)
          (rowsOf w gameId) (rowsOf w' gameId).

(** The map [startLevel] builds by setting [v] for every participant. *)
Definition seeded {V : Type} (ps : list BotGame) (v : V) : JsMap.t V :=
  fold_left (fun m p => JsMap.set m (bg_botId p) v) ps JsMap.empty.

(** The round state [startLevel] stores for [game] on the grid [grid_]. *)
Definition started_state (game : Game) (grid_ : Grid) (now : Z) : GameState :=
  let activeParticipants :=
    filter (fun p => negb (bg_eliminated p)) (participants game) in
  mkGameState grid_ (seeded activeParticipants (mkPos 0 0))
              (mkPos (gridCols (arena game) - 1) (gridRows (arena game) - 1))
              now (seeded activeParticipants 0) JsMap.empty.

(** The bot has a row in the game that is not eliminated. *)
Definition active_in (g : Game) (botId : String.string) : Prop :=
  exists p, In p (participants g) /\ bg_botId p = botId /\
            bg_eliminated p = false.




(** * Lemmas and theorems *)

Lemma Position_eqb_eq (a b : Position) : Position_eqb a b = true <-> a = b.
Proof.
  destruct a as [ax ay], b as [bx b_y]; unfold Position_eqb; simpl.
  rewrite andb_true_iff, !Z.eqb_eq. split.
  - intros [-> ->]; reflexivity.
  - intros H; inversion H; auto.
Qed.

Lemma Position_eq_dec (a b : Position) : {a = b} + {a <> b}.
Proof. decide equality; apply Z.eq_dec. Defined.

Example findPath_grid4 :
  findPath grid4 (mkPos 0 0) (mkPos 3 3)
  = [mkPos 0 0; mkPos 0 1; mkPos 0 2; mkPos 0 3;
     mkPos 1 3; mkPos 2 3; mkPos 3 3].
Proof. vm_compute. reflexivity. Qed.

(** ** Routes on a grid *)

Lemma nth_error_last {A : Type} (l : list A) (i : nat) (p d : A) :
  nth_error l i = Some p -> S i = length l -> last l d = p.
Proof.
  revert i. induction l as [|a l IH]; intros i Hp Hlen; [discriminate|].
  destruct l as [|b l].
  - simpl in Hlen. assert (i = 0%nat) by lia. subst. simpl in *. congruence.
  - destruct i as [|i]; [simpl in Hlen; lia|].
    change (last (a :: b :: l) d) with (last (b :: l) d).
    apply (IH i); simpl in *; auto; lia.
Qed.

Lemma Walk_nonempty grid s t path : Walk grid s t path -> path <> [].
Proof. destruct 1; [discriminate | destruct path; discriminate]. Qed.

Lemma Walk_walkable grid s t path : Walk grid s t path -> walkable grid t.
Proof. destruct 1; assumption. Qed.

Lemma Walk_last grid s t path d : Walk grid s t path -> last path d = t.
Proof. destruct 1; [reflexivity | apply last_last]. Qed.

Lemma Walk_hd grid s t path : Walk grid s t path -> hd_error path = Some s.
Proof.
  induction 1 as [|v w path Hw IH]; [reflexivity|].
  destruct path; [discriminate | exact IH].
Qed.

Lemma Walk_Route grid s t path : Walk grid s t path -> Route grid s t path.
Proof.
  intros HW. repeat split.
  - eapply Walk_hd; eauto.
  - eapply Walk_last; eauto.
  - induction HW as [Hs|v w path Hw IH Ha Hwk].
    + constructor; auto.
    + apply Forall_app; split; auto.
  - induction HW as [Hs|v w path Hw IH Ha Hwk]; intros i p q Hp Hq.
    + destruct i as [|i]; simpl in Hq; [discriminate | destruct i; discriminate].
    + assert (Hlen : (S i < length path \/ S i = length path)%nat).
      { assert (S i < length (path ++ [w]))%nat
          by (apply nth_error_Some; congruence).
        rewrite length_app in H; simpl in H. lia. }
      destruct Hlen as [Hlt | Heq].
      * rewrite nth_error_app1 in Hp by lia.
        rewrite nth_error_app1 in Hq by lia. eauto.
      * rewrite nth_error_app1 in Hp by lia.
        rewrite nth_error_app2 in Hq by lia.
        replace (S i - length path)%nat with 0%nat in Hq by lia.
        simpl in Hq. injection Hq as <-.
        assert (p = v); [|subst; assumption].
        rewrite <- (Walk_last _ _ _ _ s Hw).
        symmetry. eapply nth_error_last; eauto.
Qed.

Lemma Route_Walk grid s t path : Route grid s t path -> Walk grid s t path.
Proof.
  revert t. induction path as [|w path IH] using rev_ind;
    intros t (Hhd & Hlast & Hall & Hadj).
  - discriminate.
  - rewrite last_last in Hlast. subst w.
    apply Forall_app in Hall as [Hall Ht]. inversion Ht; subst.
    destruct path as [|a path].
    + simpl in Hhd. injection Hhd as ->. constructor; assumption.
    + set (v := last (a :: path) s).
      apply Walk_step with (v := v); auto.
      * apply IH. repeat split; auto.
        intros i p q Hp Hq. apply (Hadj i).
        -- rewrite nth_error_app1; auto. apply nth_error_Some. congruence.
        -- rewrite nth_error_app1; auto. apply nth_error_Some. congruence.
      * assert (Hv : nth_error (a :: path) (length path) = Some v).
        { destruct (nth_error (a :: path) (length path)) as [v'|] eqn:E.
          - f_equal. symmetry. eapply nth_error_last; eauto.
          - apply nth_error_None in E. simpl in E. lia. }
        apply (Hadj (length path)).
        -- rewrite nth_error_app1 by (simpl; lia). exact Hv.
        -- change (S (length path)) with (length (a :: path)).
           rewrite nth_error_app2 by lia. rewrite Nat.sub_diag. reflexivity.
Qed.

(** ** Search nodes and the open set *)

Lemma PathNode_parent_ind (P : PathNode -> Prop) :
  (forall x y g h f, P (mkNode x y g h f None)) ->
  (forall x y g h f p, P p -> P (mkNode x y g h f (Some p))) ->
  forall n, P n.
Proof.
  intros Hroot Hchild. fix IH 1. intros [x y g h f [p|]].
  - apply Hchild, IH.
  - apply Hroot.
Qed.

Lemma reconstructPath_loop_app (n : PathNode) (acc : list Position) :
  reconstructPath_loop n acc = reconstructPath n ++ acc.
Proof.
  revert acc. induction n as [x y g h f|x y g h f p IH] using PathNode_parent_ind;
    intros acc.
  - reflexivity.
  - unfold reconstructPath. simpl.
    rewrite IH, (IH [mkPos x y]), <- app_assoc. reflexivity.
Qed.

Lemma reconstructPath_child x y g h f (p : PathNode) :
  reconstructPath (mkNode x y g h f (Some p))
  = reconstructPath p ++ [mkPos x y].
Proof. unfold reconstructPath at 1. simpl. apply reconstructPath_loop_app. Qed.

Lemma adjacent_heuristic (v w t : Position) :
  adjacent v w -> heuristic t w <= heuristic t v + 1.
Proof.
  unfold adjacent, isValidMove, heuristic.
  rewrite orb_true_iff, !andb_true_iff, !Z.eqb_eq. lia.
Qed.

Lemma heuristic_triangle (a b c : Position) :
  heuristic a c <= heuristic a b + heuristic b c.
Proof. unfold heuristic. lia. Qed.

Lemma heuristic_refl (a : Position) : heuristic a a = 0.
Proof. unfold heuristic. lia. Qed.

Lemma adjacent_cases (v w : Position) :
  adjacent v w <->
  exists dir, In dir directions /\
              w = mkPos (pos_x v + fst dir) (pos_y v + snd dir).
Proof.
  destruct v as [vx vy], w as [wx wy].
  unfold adjacent, isValidMove, directions; simpl.
  rewrite orb_true_iff, !andb_true_iff, !Z.eqb_eq. split.
  - intros H.
    assert (Hc : (wx = vx /\ wy = vy - 1) \/ (wx = vx /\ wy = vy + 1) \/
                 (wx = vx - 1 /\ wy = vy) \/ (wx = vx + 1 /\ wy = vy)) by lia.
    destruct Hc as [[-> ->]|[[-> ->]|[[-> ->]|[-> ->]]]].
    + exists (0, -1); simpl; split; [auto | f_equal; lia].
    + exists (0, 1); simpl; split; [auto | f_equal; lia].
    + exists (-1, 0); simpl; split; [auto 6 | f_equal; lia].
    + exists (1, 0); simpl; split; [auto 6 | f_equal; lia].
  - intros [dir [Hin Hw]]. injection Hw as -> ->.
    repeat destruct Hin as [<- | Hin]; simpl; try lia.
Qed.

Lemma getNeighbors_sound grid (u nb : PathNode) :
  In nb (getNeighbors grid u) ->
  adjacent (node_pos u) (node_pos nb) /\ walkable grid (node_pos nb).
Proof.
  unfold getNeighbors. rewrite in_flat_map. intros [dir [Hdir Hin]].
  destruct (isWalkable grid (node_x u + fst dir) (node_y u + snd dir)) eqn:E;
    [|contradiction].
  destruct Hin as [<- | []]. split.
  - apply adjacent_cases. exists dir. split; auto.
  - exact E.
Qed.

Lemma getNeighbors_complete grid (u : PathNode) (w : Position) :
  adjacent (node_pos u) w -> walkable grid w ->
  exists nb, In nb (getNeighbors grid u) /\ node_pos nb = w.
Proof.
  intros Ha Hw. apply adjacent_cases in Ha as [dir [Hdir ->]].
  exists (newPathNode (node_x u + fst dir) (node_y u + snd dir) (Some u)).
  split; [|reflexivity].
  unfold getNeighbors. apply in_flat_map. exists dir. split; auto.
  unfold walkable in Hw. simpl in Hw. rewrite Hw. left; reflexivity.
Qed.

Lemma findLowestF_loop_spec (rest pre : list PathNode) (i li : nat)
  (lf : Z) (lo : PathNode) :
  length pre = i -> nth_error (pre ++ rest) li = Some lo ->
  lf = node_f lo -> (forall n, In n pre -> lf <= node_f n) ->
  exists m,
    nth_error (pre ++ rest) (findLowestF_loop rest i li lf lo) = Some m /\
    forall n, In n (pre ++ rest) -> node_f m <= node_f n.
Proof.
  revert pre i li lf lo.
  induction rest as [|n rest IH]; intros pre i li lf lo Hlen Hlo Hlf Hmin.
  - simpl. exists lo. split; auto. rewrite app_nil_r. subst lf. auto.
  - simpl.
    assert (Hn : nth_error ((pre ++ [n]) ++ rest) i = Some n).
    { rewrite <- app_assoc. simpl. rewrite nth_error_app2 by lia.
      replace (i - length pre)%nat with 0%nat by lia. reflexivity. }
    assert (Hlen' : length (pre ++ [n]) = S i)
      by (rewrite length_app; simpl; lia).
    replace (pre ++ n :: rest) with ((pre ++ [n]) ++ rest) in *
      by (rewrite <- app_assoc; reflexivity).
    destruct (node_f n <? lf) eqn:E1; [apply Z.ltb_lt in E1|apply Z.ltb_ge in E1].
    + apply IH; auto. intros n' Hin. apply in_app_or in Hin as [Hin|[<-|[]]].
      * specialize (Hmin _ Hin). lia.
      * lia.
    + destruct ((node_f n =? lf) && (node_h n <? node_h lo)) eqn:E2.
      * apply andb_true_iff in E2 as [E2 _]. apply Z.eqb_eq in E2.
        apply IH; auto. intros n' Hin. apply in_app_or in Hin as [Hin|[<-|[]]].
        -- auto.
        -- lia.
      * apply IH; auto. intros n' Hin. apply in_app_or in Hin as [Hin|[<-|[]]].
        -- auto.
        -- lia.
Qed.

Lemma findLowestF_spec (openSet : list PathNode) (d : PathNode) :
  openSet <> [] ->
  In (nth (findLowestF openSet) openSet d) openSet /\
  (findLowestF openSet < length openSet)%nat /\
  forall n, In n openSet ->
            node_f (nth (findLowestF openSet) openSet d) <= node_f n.
Proof.
  destruct openSet as [|first rest]; [congruence|]. intros _.
  destruct (findLowestF_loop_spec rest [first] 1 0 (node_f first) first)
    as [m [Hm Hmin]]; auto.
  - simpl. intros n [<-|[]]. lia.
  - change ([first] ++ rest) with (first :: rest) in *.
    unfold findLowestF.
    rewrite (nth_error_nth _ _ d Hm). repeat split; auto.
    + eapply nth_error_In; eauto.
    + apply nth_error_Some. congruence.
Qed.

Lemma splice1_In {A : Type} (i : nat) (l : list A) (a : A) :
  In a (splice1 i l) -> In a l.
Proof.
  revert i. induction l as [|b l IH]; intros i; [destruct i; auto|].
  destruct i as [|i]; simpl; [auto|]. intros [->|H]; eauto.
Qed.

Lemma splice1_keeps {A : Type} (i : nat) (l : list A) (a d : A) :
  In a l -> In a (splice1 i l) \/ a = nth i l d.
Proof.
  revert i. induction l as [|b l IH]; intros i; [contradiction|].
  destruct i as [|i]; simpl.
  - intros [->|H]; auto.
  - intros [->|H]; auto. destruct (IH i H); auto.
Qed.

Lemma splice1_NoDup_map {A B : Type} (f : A -> B) (i : nat) (l : list A) :
  NoDup (map f l) -> NoDup (map f (splice1 i l)).
Proof.
  revert i. induction l as [|b l IH]; intros i Hnd; [destruct i; auto|].
  inversion Hnd; subst. destruct i as [|i]; simpl; auto.
  constructor; auto. intros Hin. apply in_map_iff in Hin as [a [Ha Hin]].
  apply splice1_In in Hin. apply H1. rewrite <- Ha. apply in_map. exact Hin.
Qed.

Lemma splice1_distinct {A B : Type} (f : A -> B) (i : nat) (l : list A)
  (a d : A) :
  NoDup (map f l) -> (i < length l)%nat -> In a (splice1 i l) ->
  f a <> f (nth i l d).
Proof.
  revert i. induction l as [|b l IH]; intros i Hnd Hi Hin; [simpl in Hi; lia|].
  inversion Hnd; subst. destruct i as [|i]; simpl in *.
  - intros Heq. apply H1. rewrite <- Heq. apply in_map. exact Hin.
  - destruct Hin as [->|Hin].
    + intros Heq. apply H1. rewrite Heq. apply in_map. apply nth_In. lia.
    + apply IH; auto. lia.
Qed.

Lemma closedSet_has_In (closedSet : list Position) (p : Position) :
  closedSet_has closedSet p = true <-> In p closedSet.
Proof.
  unfold closedSet_has. rewrite existsb_exists. split.
  - intros [q [Hin Heq]]. apply Position_eqb_eq in Heq. subst; auto.
  - intros Hin. exists p. split; auto. apply Position_eqb_eq. reflexivity.
Qed.

Lemma findIndex_None (p : Position) (l : list PathNode) :
  findIndex p l = None -> forall n, In n l -> node_pos n <> p.
Proof.
  induction l as [|m l IH]; simpl; [contradiction|].
  destruct (Position_eqb (node_pos m) p) eqn:E; [discriminate|].
  destruct (findIndex p l); [discriminate|]. intros _ n [<-|Hin].
  - intros Heq. apply Position_eqb_eq in Heq. congruence.
  - auto.
Qed.

Lemma findIndex_Some (p : Position) (l : list PathNode) (i : nat) :
  findIndex p l = Some i ->
  exists n, nth_error l i = Some n /\ node_pos n = p.
Proof.
  revert i. induction l as [|m l IH]; simpl; intros i; [discriminate|].
  destruct (Position_eqb (node_pos m) p) eqn:E.
  - intros [= <-]. exists m. split; auto. apply Position_eqb_eq; auto.
  - destruct (findIndex p l) as [j|]; [|discriminate].
    intros [= <-]. simpl. apply IH. reflexivity.
Qed.

Lemma updateAt_In (i : nat) (upd : PathNode -> PathNode)
  (l : list PathNode) (n : PathNode) :
  In n (updateAt i upd l) ->
  In n l \/ exists m, nth_error l i = Some m /\ n = upd m.
Proof.
  revert i. induction l as [|a l IH]; intros i; [destruct i; auto|].
  destruct i as [|i]; simpl.
  - intros [<-|H]; eauto.
  - intros [<-|H]; auto. destruct (IH i H) as [?|?]; auto.
Qed.

Lemma updateAt_keeps (i : nat) (upd : PathNode -> PathNode)
  (l : list PathNode) (m : PathNode) :
  In m l ->
  In m (updateAt i upd l) \/
  (nth_error l i = Some m /\ In (upd m) (updateAt i upd l)).
Proof.
  revert i. induction l as [|a l IH]; intros i; [contradiction|].
  destruct i as [|i]; simpl.
  - intros [->|H]; auto.
  - intros [->|H]; auto. destruct (IH i H) as [?|[? ?]]; auto.
Qed.

Lemma updateAt_hit (i : nat) (upd : PathNode -> PathNode)
  (l : list PathNode) (m : PathNode) :
  nth_error l i = Some m -> In (upd m) (updateAt i upd l).
Proof.
  revert i. induction l as [|a l IH]; intros i; [destruct i; discriminate|].
  destruct i as [|i]; simpl.
  - intros [= ->]. auto.
  - intros H. right. auto.
Qed.

Lemma updateAt_map_pos (i : nat) (upd : PathNode -> PathNode)
  (l : list PathNode) :
  (forall n, node_pos (upd n) = node_pos n) ->
  map node_pos (updateAt i upd l) = map node_pos l.
Proof.
  intros Hupd. revert i. induction l as [|a l IH]; intros i; [destruct i; auto|].
  destruct i as [|i]; simpl; [rewrite Hupd | rewrite IH]; reflexivity.
Qed.

Section AStar.

Variable grid : Grid.
Variables start end_ : Position.

Lemma relaxNeighbor_cases (current nb : PathNode)
  (closedSet : list Position) (openSet : list PathNode) :
  let r := relaxNeighbor end_ current closedSet openSet nb in
  (r = openSet /\
   (In (node_pos nb) closedSet \/
    covers openSet (node_pos nb) (node_g current + 1))) \/
  (~ In (node_pos nb) closedSet /\
   (forall n, In n openSet -> node_pos n <> node_pos nb) /\
   r = openSet ++
       [mkNode (node_x nb) (node_y nb) (node_g current + 1)
               (heuristic (node_pos nb) end_)
               (node_g current + 1 + heuristic (node_pos nb) end_)
               (Some current)]) \/
  (exists i ex,
      ~ In (node_pos nb) closedSet /\
      nth_error openSet i = Some ex /\ node_pos ex = node_pos nb /\
      node_g current + 1 < node_g ex /\
      r = updateAt i (better current) openSet).
Proof.
  unfold relaxNeighbor.
  destruct (closedSet_has closedSet (node_pos nb)) eqn:Ec.
  { left. split; auto. left. apply closedSet_has_In. exact Ec. }
  assert (Hnc : ~ In (node_pos nb) closedSet).
  { intros H. apply closedSet_has_In in H. congruence. }
  destruct (findIndex (node_pos nb) openSet) as [i|] eqn:Ei.
  - destruct (findIndex_Some _ _ _ Ei) as [ex [Hex Hpos]]. rewrite Hex.
    destruct (node_g current + 1 <? node_g ex) eqn:Eg.
    + right; right. exists i, ex. apply Z.ltb_lt in Eg. repeat split; auto.
    + left. split; auto. right. exists ex. apply Z.ltb_ge in Eg.
      repeat split; auto. eapply nth_error_In; eauto.
  - right; left. repeat split; auto. eapply findIndex_None; eauto.
Qed.

Lemma better_pos current n : node_pos (better current n) = node_pos n.
Proof. destruct n; reflexivity. Qed.

Lemma child_ok (current : PathNode) (x y h : Z) :
  node_ok grid start end_ current ->
  adjacent (node_pos current) (mkPos x y) -> walkable grid (mkPos x y) ->
  h = heuristic (mkPos x y) end_ ->
  node_ok grid start end_ (mkNode x y (node_g current + 1) h (node_g current + 1 + h)
                  (Some current)).
Proof.
  intros (HW & Hlen & _ & _) Ha Hw ->. unfold node_ok.
  rewrite reconstructPath_child. simpl. repeat split; auto.
  - change (node_pos (mkNode x y (node_g current + 1)
              (heuristic (mkPos x y) end_)
              (node_g current + 1 + heuristic (mkPos x y) end_)
              (Some current))) with (mkPos x y).
    eapply Walk_step; eauto.
  - unfold zlen in *. rewrite length_app. simpl. lia.
Qed.

Section Relax.

Variable current : PathNode.
Variable closedSet : list Position.
Hypothesis current_ok : node_ok grid start end_ current.

Lemma relaxNeighbor_ok openSet nb :
  adjacent (node_pos current) (node_pos nb) ->
  walkable grid (node_pos nb) ->
  (forall n, In n openSet -> node_ok grid start end_ n) ->
  forall n, In n (relaxNeighbor end_ current closedSet openSet nb) ->
            node_ok grid start end_ n.
Proof.
  intros Ha Hw Hok n.
  destruct (relaxNeighbor_cases current nb closedSet openSet)
    as [[-> _]|[(_ & _ & ->)|(i & ex & _ & Hex & Hpos & _ & ->)]]; auto.
  - intros Hin. apply in_app_or in Hin as [Hin|[<-|[]]]; auto.
    apply child_ok; auto.
  - intros Hin. apply updateAt_In in Hin as [Hin|[m [Hm ->]]]; auto.
    assert (m = ex) by congruence. subst m.
    assert (Hexok : node_ok grid start end_ ex) by (eapply Hok, nth_error_In; eauto).
    unfold better.
    replace (node_h ex) with (heuristic (mkPos (node_x ex) (node_y ex)) end_)
      by (symmetry; apply Hexok).
    apply child_ok; auto.
    + change (mkPos (node_x ex) (node_y ex)) with (node_pos ex).
      rewrite Hpos; auto.
    + change (mkPos (node_x ex) (node_y ex)) with (node_pos ex).
      rewrite Hpos; auto.
Qed.

Lemma relaxNeighbor_NoDup openSet nb :
  NoDup (map node_pos openSet) ->
  NoDup (map node_pos (relaxNeighbor end_ current closedSet openSet nb)).
Proof.
  intros Hnd.
  destruct (relaxNeighbor_cases current nb closedSet openSet)
    as [[-> _]|[(_ & Hfresh & ->)|(i & ex & _ & _ & _ & _ & ->)]]; auto.
  - rewrite map_app. simpl.
    apply NoDup_app; auto.
    + constructor; [intros []|constructor].
    + intros p Hin [<-|[]]. apply in_map_iff in Hin as [n [Hn Hin]].
      exact (Hfresh n Hin Hn).
  - rewrite updateAt_map_pos; auto.
Qed.

Lemma relaxNeighbor_disjoint openSet nb :
  (forall n, In n openSet -> ~ In (node_pos n) closedSet) ->
  forall n, In n (relaxNeighbor end_ current closedSet openSet nb) ->
            ~ In (node_pos n) closedSet.
Proof.
  intros Hd n.
  destruct (relaxNeighbor_cases current nb closedSet openSet)
    as [[-> _]|[(Hnc & _ & ->)|(i & ex & Hnc & Hex & Hpos & _ & ->)]]; auto.
  - intros Hin. apply in_app_or in Hin as [Hin|[<-|[]]]; auto.
  - intros Hin. apply updateAt_In in Hin as [Hin|[m [Hm ->]]]; auto.
    rewrite better_pos. apply Hd. eapply nth_error_In; eauto.
Qed.

Lemma relaxNeighbor_mono openSet nb w k :
  covers openSet w k ->
  covers (relaxNeighbor end_ current closedSet openSet nb) w k.
Proof.
  intros (n & Hin & Hpos & Hg).
  destruct (relaxNeighbor_cases current nb closedSet openSet)
    as [[-> _]|[(_ & _ & ->)|(i & ex & _ & Hex & _ & Hlt & ->)]].
  - exists n; auto.
  - exists n. repeat split; auto. apply in_or_app; auto.
  - destruct (updateAt_keeps i (better current) openSet n Hin)
      as [Hin'|[Hn Hin']].
    + exists n; auto.
    + exists (better current n). rewrite better_pos. repeat split; auto.
      assert (n = ex) by congruence. subst n.
      destruct ex; simpl in *. lia.
Qed.

Lemma relaxNeighbor_covers openSet nb :
  In (node_pos nb) closedSet \/
  covers (relaxNeighbor end_ current closedSet openSet nb)
         (node_pos nb) (node_g current + 1).
Proof.
  destruct (relaxNeighbor_cases current nb closedSet openSet)
    as [[-> H]|[(_ & _ & ->)|(i & ex & _ & Hex & Hpos & _ & ->)]]; auto.
  - right. eexists. split; [apply in_or_app; right; left; reflexivity|].
    split; [reflexivity | simpl; lia].
  - right. exists (better current ex). rewrite better_pos.
    split; [eapply updateAt_hit; eauto|]. split; auto.
    destruct ex; simpl; lia.
Qed.

End Relax.

Section Expand.

Variable current : PathNode.
Variable closedSet : list Position.
Hypothesis current_ok : node_ok grid start end_ current.

Let relax := relaxNeighbor end_ current closedSet.

Lemma expand_ok nbs openSet :
  near grid current nbs -> (forall n, In n openSet -> node_ok grid start end_ n) ->
  forall n, In n (fold_left relax nbs openSet) -> node_ok grid start end_ n.
Proof.
  revert openSet. induction nbs as [|nb nbs IH]; intros openSet Hn Hok;
    simpl; auto.
  apply IH.
  - intros nb' Hin. apply Hn. right; exact Hin.
  - destruct (Hn nb (or_introl eq_refl)).
    apply relaxNeighbor_ok; auto.
Qed.

Lemma expand_NoDup nbs openSet :
  NoDup (map node_pos openSet) ->
  NoDup (map node_pos (fold_left relax nbs openSet)).
Proof.
  revert openSet. induction nbs as [|nb nbs IH]; intros openSet Hnd;
    simpl; auto.
  apply IH, relaxNeighbor_NoDup, Hnd.
Qed.

Lemma expand_disjoint nbs openSet :
  (forall n, In n openSet -> ~ In (node_pos n) closedSet) ->
  forall n, In n (fold_left relax nbs openSet) ->
            ~ In (node_pos n) closedSet.
Proof.
  revert openSet. induction nbs as [|nb nbs IH]; intros openSet Hd;
    simpl; auto.
  apply IH, relaxNeighbor_disjoint, Hd.
Qed.

Lemma expand_mono nbs openSet w k :
  covers openSet w k -> covers (fold_left relax nbs openSet) w k.
Proof.
  revert openSet. induction nbs as [|nb nbs IH]; intros openSet Hc;
    simpl; auto.
  apply IH, relaxNeighbor_mono, Hc.
Qed.

Lemma expand_covers nbs openSet nb :
  In nb nbs ->
  In (node_pos nb) closedSet \/
  covers (fold_left relax nbs openSet) (node_pos nb) (node_g current + 1).
Proof.
  revert openSet. induction nbs as [|nb' nbs IH]; intros openSet Hin;
    [contradiction|].
  simpl. destruct Hin as [->|Hin]; [|apply IH, Hin].
  destruct (relaxNeighbor_covers current closedSet openSet nb) as [H|H];
    [left; exact H|].
  right. apply expand_mono, H.
Qed.

End Expand.

(** Every route to a cell that is not closed yet passes an open node that
    is at least as cheap as the route is long up to there. *)
Lemma frontier openSet closedSet t path :
  Inv grid start end_ openSet closedSet -> Walk grid start t path -> ~ In t closedSet ->
  exists n k, In n openSet /\ node_g n <= k /\
              k + heuristic (node_pos n) t <= zlen path - 1.
Proof.
  intros HI HW. induction HW as [Hs|v w path HW IH Ha Hw]; intros Hnc.
  - destruct (inv_start _ _ _ _ _ HI) as [Hin|(n & Hin & Hpos & Hg)];
      [contradiction|].
    exists n, 0. rewrite Hpos, heuristic_refl. unfold zlen; simpl.
    repeat split; auto; lia.
  - assert (Hlen : zlen (path ++ [w]) = zlen path + 1).
    { unfold zlen. rewrite length_app. simpl. lia. }
    destruct (in_dec Position_eq_dec v closedSet) as [Hvc|Hvc].
    + destruct (inv_frontier _ _ _ _ _ HI v w path Hvc Ha Hw HW)
        as [Hin|(n & Hin & Hpos & Hg)]; [contradiction|].
      exists n, (zlen path). rewrite Hpos, heuristic_refl.
      repeat split; auto; lia.
    + destruct (IH Hvc) as (n & k & Hin & Hg & Hk).
      exists n, k. repeat split; auto.
      pose proof (adjacent_heuristic v w (node_pos n) Ha). lia.
Qed.

(** The node that leaves the open set has the least cost of all routes
    to its cell: the Manhattan heuristic is consistent. *)
Lemma pop_optimal openSet closedSet u :
  Inv grid start end_ openSet closedSet -> In u openSet ->
  (forall n, In n openSet -> node_f u <= node_f n) ->
  forall path, Walk grid start (node_pos u) path ->
               node_g u <= zlen path - 1.
Proof.
  intros HI Hu Hmin path HW.
  destruct (frontier openSet closedSet (node_pos u) path HI HW)
    as (n & k & Hin & Hg & Hk).
  { apply (inv_disjoint _ _ _ _ _ HI), Hu. }
  destruct (inv_ok _ _ _ _ _ HI n Hin) as (_ & _ & Hh & Hf).
  destruct (inv_ok _ _ _ _ _ HI u Hu) as (_ & _ & Hhu & Hfu).
  specialize (Hmin n Hin).
  pose proof (heuristic_triangle (node_pos n) (node_pos u) end_). lia.
Qed.

Lemma covers_splice1 openSet i w k d :
  covers openSet w k -> w <> node_pos (nth i openSet d) ->
  covers (splice1 i openSet) w k.
Proof.
  intros (n & Hin & Hpos & Hg) Hne. exists n. repeat split; auto.
  destruct (splice1_keeps i openSet n d Hin) as [H|H]; auto.
  subst n. congruence.
Qed.

Lemma Inv_step openSet closedSet d :
  Inv grid start end_ openSet closedSet -> openSet <> [] ->
  let current := nth (findLowestF openSet) openSet d in
  node_pos current <> end_ ->
  Inv grid start end_ (fold_left (relaxNeighbor end_ current (node_pos current :: closedSet))
                 (getNeighbors grid current)
                 (splice1 (findLowestF openSet) openSet))
      (node_pos current :: closedSet).
Proof.
  intros HI Hne current Hnend.
  destruct (findLowestF_spec openSet d Hne) as (Hin & Hlt & Hmin).
  fold current in Hin, Hmin.
  assert (Hcok : node_ok grid start end_ current) by (apply (inv_ok _ _ _ _ _ HI), Hin).
  assert (Hnear : near grid current (getNeighbors grid current))
    by (intros nb Hnb; apply getNeighbors_sound, Hnb).
  assert (Hopt := pop_optimal _ _ current HI Hin Hmin).
  constructor.
  - apply expand_ok; auto.
    intros n Hn. apply (inv_ok _ _ _ _ _ HI). eapply splice1_In; eauto.
  - apply expand_NoDup, splice1_NoDup_map, (inv_nodup _ _ _ _ _ HI).
  - apply expand_disjoint. intros n Hn [Heq|Hc].
    + eapply (splice1_distinct node_pos); eauto.
      apply (inv_nodup _ _ _ _ _ HI).
    + apply (inv_disjoint _ _ _ _ _ HI n); auto. eapply splice1_In; eauto.
  - intros c w path [<-|Hc] Ha Hw HW.
    + destruct (getNeighbors_complete grid current w Ha Hw)
        as (nb & Hnb & <-).
      destruct (expand_covers current (node_pos current :: closedSet)
                  (getNeighbors grid current)
                  (splice1 (findLowestF openSet) openSet) nb Hnb)
        as [H|(n & Hn & Hpos & Hg)]; [left; exact H|].
      right. exists n. repeat split; auto.
      specialize (Hopt path HW). lia.
    + destruct (Position_eq_dec w (node_pos current)) as [->|Hwc];
        [left; left; reflexivity|].
      destruct (inv_frontier _ _ _ _ _ HI c w path Hc Ha Hw HW) as [H|H];
        [left; right; exact H|].
      right. apply expand_mono. eapply covers_splice1; eauto.
  - destruct (Position_eq_dec start (node_pos current)) as [->|Hsc];
      [left; left; reflexivity|].
    destruct (inv_start _ _ _ _ _ HI) as [H|H]; [left; right; exact H|].
    right. apply expand_mono. eapply covers_splice1; eauto.
  - intros [H|H]; [congruence | apply (inv_end _ _ _ _ _ HI), H].
  - constructor; [|apply (inv_closed_nodup _ _ _ _ _ HI)].
    apply (inv_disjoint _ _ _ _ _ HI), Hin.
  - intros c [<-|Hc]; [|apply (inv_closed_walkable _ _ _ _ _ HI), Hc].
    destruct Hcok as (HW & _). eapply Walk_walkable; eauto.
Qed.

End AStar.

(** ** The search terminates: a finite universe of cells *)

Lemma allCells_length (grid : Grid) :
  length (allCells grid) = (length grid * Z.to_nat (row0_length grid))%nat.
Proof.
  unfold allCells.
  rewrite flat_map_constant_length with (c := Z.to_nat (row0_length grid)).
  - rewrite length_seq. reflexivity.
  - intros y _. rewrite length_map, length_seq. reflexivity.
Qed.

Lemma isWalkable_bounds (grid : Grid) (x y : Z) :
  isWalkable grid x y = true ->
  0 <= x < row0_length grid /\ 0 <= y < zlen grid.
Proof.
  unfold isWalkable.
  destruct ((x <? 0) || (y <? 0) || (y >=? zlen grid)
            || (x >=? row0_length grid)) eqn:E; [discriminate|].
  rewrite !orb_false_iff in E. destruct E as [[[E1 E2] E3] E4].
  intros _. lia.
Qed.

Lemma walkable_allCells (grid : Grid) (p : Position) :
  walkable grid p -> In p (allCells grid).
Proof.
  intros Hw. apply isWalkable_bounds in Hw as [Hx Hy].
  unfold allCells. apply in_flat_map. exists (Z.to_nat (pos_y p)). split.
  - apply in_seq. unfold zlen in Hy. lia.
  - apply in_map_iff. exists (Z.to_nat (pos_x p)). split.
    + destruct p as [x y]; simpl in *. f_equal; lia.
    + apply in_seq. lia.
Qed.

Lemma closed_bound (grid : Grid) (closedSet : list Position) :
  NoDup closedSet -> (forall c, In c closedSet -> walkable grid c) ->
  (length closedSet <= length grid * Z.to_nat (row0_length grid))%nat.
Proof.
  intros Hnd Hw. rewrite <- allCells_length.
  apply NoDup_incl_length; auto.
  intros c Hc. apply walkable_allCells, Hw, Hc.
Qed.

Lemma Walk_start_walkable grid s t path :
  Walk grid s t path -> walkable grid s.
Proof. induction 1; auto. Qed.

Lemma node_pos_end (n : PathNode) (e : Position) :
  (node_x n =? pos_x e) && (node_y n =? pos_y e) = true <-> node_pos n = e.
Proof. apply (Position_eqb_eq (node_pos n) e). Qed.

Lemma findPath_loop_step fuel grid end_ openSet closedSet first rest :
  openSet = first :: rest ->
  findPath_loop (S fuel) grid end_ openSet closedSet
  = let current := nth (findLowestF openSet) openSet first in
    if (node_x current =? pos_x end_) && (node_y current =? pos_y end_)
    then Some (reconstructPath current)
    else findPath_loop fuel grid end_
           (fold_left
              (relaxNeighbor end_ current (node_pos current :: closedSet))
              (getNeighbors grid current)
              (splice1 (findLowestF openSet) openSet))
           (node_pos current :: closedSet).
Proof. intros ->. reflexivity. Qed.

Lemma findPath_loop_spec (grid : Grid) (start end_ : Position) :
  forall fuel openSet closedSet,
    Inv grid start end_ openSet closedSet ->
    (length grid * Z.to_nat (row0_length grid) < length closedSet + fuel)%nat ->
    exists res,
      findPath_loop fuel grid end_ openSet closedSet = Some res /\
      search_result grid start end_ res.
Proof.
  induction fuel as [|fuel IH]; intros openSet closedSet HI Hfuel.
  - pose proof (closed_bound grid closedSet (inv_closed_nodup _ _ _ _ _ HI)
                  (inv_closed_walkable _ _ _ _ _ HI)). lia.
  - destruct openSet as [|first rest].
    + exists []. split; [reflexivity|]. left. split; auto.
      intros path HW.
      destruct (frontier _ _ _ _ _ _ path HI HW (inv_end _ _ _ _ _ HI))
        as (n & _ & [] & _).
    + remember (first :: rest) as openSet eqn:Eo.
      assert (Hne : openSet <> []) by (subst; discriminate).
      destruct (findLowestF_spec openSet first Hne) as (Hin & _ & Hmin).
      rewrite (findPath_loop_step _ _ _ _ _ _ _ Eo). cbv zeta.
      set (current := nth (findLowestF openSet) openSet first) in *.
      destruct ((node_x current =? pos_x end_) && (node_y current =? pos_y end_))
        eqn:Eend.
      * apply node_pos_end in Eend.
        exists (reconstructPath current). split; [reflexivity|]. right.
        destruct (inv_ok _ _ _ _ _ HI current Hin) as (HW & Hlen & _).
        rewrite Eend in HW. split; auto.
        intros path Hpath. rewrite <- Eend in Hpath.
        pose proof (pop_optimal _ _ _ _ _ current HI Hin Hmin path Hpath).
        unfold zlen in *. lia.
      * apply IH.
        -- apply Inv_step; auto. intros Heq. apply node_pos_end in Heq.
           fold current in Heq. congruence.
        -- simpl. lia.
Qed.

Lemma Inv_init (grid : Grid) (start end_ : Position) :
  walkable grid start ->
  Inv grid start end_
      [mkNode (pos_x start) (pos_y start) 0 (heuristic start end_)
              (0 + heuristic start end_) None] [].
Proof.
  intros Hs.
  assert (Heta : mkPos (pos_x start) (pos_y start) = start)
    by (destruct start; reflexivity).
  constructor; simpl; try contradiction; auto.
  - intros n [<-|[]]. unfold node_ok, reconstructPath, node_pos; simpl.
    rewrite Heta. repeat split; auto. constructor; assumption.
  - constructor; [intros []|constructor].
  - right. eexists. split; [left; reflexivity|].
    unfold node_pos; simpl. split; [exact Heta | lia].
  - constructor.
Qed.

Lemma findPath_fuel_spec (grid : Grid) (start end_ : Position) :
  exists res,
    findPath_fuel (search_fuel grid) grid start end_ = Some res /\
    search_result grid start end_ res.
Proof.
  unfold findPath_fuel.
  destruct (isWalkable grid (pos_x start) (pos_y start)) eqn:Es;
    cbn [negb orb].
  - destruct (isWalkable grid (pos_x end_) (pos_y end_)) eqn:Ee;
      cbn [negb orb].
    + apply findPath_loop_spec.
      * apply Inv_init. exact Es.
      * unfold search_fuel. cbn [length]. lia.
    + exists []. split; auto. left. split; auto. intros path HW.
      apply Walk_walkable in HW. unfold walkable in HW. congruence.
  - exists []. split; auto. left. split; auto. intros path HW.
    apply Walk_start_walkable in HW. unfold walkable in HW. congruence.
Qed.

Lemma findPath_fuel_enough (grid : Grid) (start end_ : Position) :
  findPath_fuel (search_fuel grid) grid start end_
  = Some (findPath grid start end_).
Proof.
  unfold findPath.
  destruct (findPath_fuel_spec grid start end_) as (res & -> & _).
  reflexivity.
Qed.

Lemma findPath_spec (grid : Grid) (start end_ : Position) :
  search_result grid start end_ (findPath grid start end_).
Proof.
  unfold findPath.
  destruct (findPath_fuel_spec grid start end_) as (res & -> & H). exact H.
Qed.

Lemma findPath_found (grid : Grid) (start end_ : Position) :
  (exists route, Route grid start end_ route) ->
  Route grid start end_ (findPath grid start end_) /\
  forall route, Route grid start end_ route ->
                (length (findPath grid start end_) <= length route)%nat.
Proof.
  intros [route Hr]. apply Route_Walk in Hr.
  destruct (findPath_spec grid start end_) as [[_ Hno]|[HW Hmin]].
  - exfalso. eapply Hno; eauto.
  - split; [apply Walk_Route, HW|].
    intros r Hroute. apply Hmin, Route_Walk, Hroute.
Qed.

Lemma findPath_none (grid : Grid) (start end_ : Position) :
  findPath grid start end_ = [] <->
  ~ exists route, Route grid start end_ route.
Proof.
  destruct (findPath_spec grid start end_) as [[Hnil Hno]|[HW Hmin]].
  - split; auto. intros _ [route Hr]. eapply Hno, Route_Walk; eauto.
  - split.
    + intros Hnil. rewrite Hnil in HW. apply Walk_nonempty in HW. congruence.
    + intros Hno. exfalso. apply Hno. eexists. apply Walk_Route, HW.
Qed.

Lemma hasPath_iff (grid : Grid) (start end_ : Position) :
  hasPath grid start end_ = true <->
  exists route, Route grid start end_ route.
Proof.
  unfold hasPath, zlen. split.
  - intros H. destruct (findPath_spec grid start end_) as [[Hnil _]|[HW _]].
    + rewrite Hnil in H. discriminate.
    + eexists. apply Walk_Route, HW.
  - intros Hr. apply findPath_found in Hr as [Hr _].
    destruct (findPath grid start end_); [destruct Hr; discriminate|].
    apply Z.gtb_lt. cbn [length]. lia.
Qed.

(** ** Reading and writing grid cells *)

Lemma zth_Some {A : Type} (l : list A) (i : Z) (a : A) :
  zth l i = Some a -> 0 <= i < zlen l.
Proof.
  unfold zth, zlen. destruct (i <? 0) eqn:E; [discriminate|].
  apply Z.ltb_ge in E. intros H.
  assert (Z.to_nat i < length l)%nat by (apply nth_error_Some; congruence).
  lia.
Qed.

Lemma zth_in_range {A : Type} (l : list A) (i : Z) :
  0 <= i < zlen l -> exists a, zth l i = Some a.
Proof.
  unfold zth, zlen. intros H.
  destruct (i <? 0) eqn:E; [apply Z.ltb_lt in E; lia|].
  destruct (nth_error l (Z.to_nat i)) eqn:En; eauto.
  apply nth_error_None in En. lia.
Qed.

Lemma length_setNth {A : Type} (i : nat) (v : A) (l : list A) :
  length (setNth i v l) = length l.
Proof.
  revert i. induction l as [|a l IH]; intros [|i]; simpl; auto.
Qed.

Lemma nth_error_setNth_eq {A : Type} (i : nat) (v : A) (l : list A) :
  (i < length l)%nat -> nth_error (setNth i v l) i = Some v.
Proof.
  revert i. induction l as [|a l IH]; intros [|i]; simpl; try lia; auto.
  intros H. apply IH. lia.
Qed.

Lemma nth_error_setNth_neq {A : Type} (i j : nat) (v : A) (l : list A) :
  i <> j -> nth_error (setNth i v l) j = nth_error l j.
Proof.
  revert i j. induction l as [|a l IH]; intros [|i] [|j]; simpl; auto;
    try congruence.
Qed.

Lemma setNth_setNth {A : Type} (i : nat) (v v' : A) (l : list A) :
  setNth i v (setNth i v' l) = setNth i v l.
Proof.
  revert i. induction l as [|a l IH]; intros [|i]; simpl; auto.
  rewrite IH. reflexivity.
Qed.

Lemma setNth_same {A : Type} (i : nat) (v : A) (l : list A) :
  nth_error l i = Some v -> setNth i v l = l.
Proof.
  revert i. induction l as [|a l IH]; intros [|i]; simpl; auto.
  - intros [= ->]. reflexivity.
  - intros H. rewrite IH; auto.
Qed.

Lemma zth_setNth {A : Type} (i j : Z) (v : A) (l : list A) :
  0 <= i < zlen l ->
  zth (setNth (Z.to_nat i) v l) j = if j =? i then Some v else zth l j.
Proof.
  unfold zth, zlen. intros Hi.
  destruct (j =? i) eqn:E.
  - apply Z.eqb_eq in E. subst j.
    destruct (i <? 0) eqn:E0; [apply Z.ltb_lt in E0; lia|].
    apply nth_error_setNth_eq. lia.
  - apply Z.eqb_neq in E. destruct (j <? 0) eqn:E0; auto.
    apply Z.ltb_ge in E0. apply nth_error_setNth_neq. lia.
Qed.

Lemma cell_setCell (g : Grid) (x y v x' y' : Z) (row : list Z) :
  zth g y = Some row -> 0 <= x < zlen row ->
  cell (setCell g x y v) x' y'
  = if (x' =? x) && (y' =? y) then Some v else cell g x' y'.
Proof.
  intros Hrow Hx. unfold cell, setCell. rewrite Hrow.
  replace ((0 <=? x) && (x <? zlen row)) with true
    by (symmetry; apply andb_true_iff; split;
        [apply Z.leb_le | apply Z.ltb_lt]; lia).
  rewrite zth_setNth by (eapply zth_Some; eauto).
  destruct (y' =? y) eqn:Ey.
  - apply Z.eqb_eq in Ey. subst y'. rewrite zth_setNth by assumption.
    rewrite Hrow. destruct (x' =? x); reflexivity.
  - rewrite andb_false_r. reflexivity.
Qed.

Lemma setCell_revert (g : Grid) (x y v v0 : Z) :
  cell g x y = Some v0 -> setCell (setCell g x y v) x y v0 = g.
Proof.
  unfold cell, setCell. destruct (zth g y) as [row|] eqn:Hrow; [|discriminate].
  intros Hx. pose proof (zth_Some _ _ _ Hx) as Hxr.
  pose proof (zth_Some _ _ _ Hrow) as Hyr.
  replace ((0 <=? x) && (x <? zlen row)) with true
    by (symmetry; apply andb_true_iff; split;
        [apply Z.leb_le | apply Z.ltb_lt]; lia).
  rewrite zth_setNth by assumption. rewrite Z.eqb_refl.
  unfold zlen. rewrite length_setNth. fold (zlen row).
  replace ((0 <=? x) && (x <? zlen row)) with true
    by (symmetry; apply andb_true_iff; split;
        [apply Z.leb_le | apply Z.ltb_lt]; lia).
  rewrite !setNth_setNth.
  apply setNth_same.
  unfold zth in Hrow, Hx.
  destruct (y <? 0); [discriminate|]. rewrite Hrow. f_equal.
  destruct (x <? 0); [discriminate|]. symmetry. apply setNth_same, Hx.
Qed.

Lemma Forall_setNth {A : Type} (P : A -> Prop) (i : nat) (v : A)
  (l : list A) :
  Forall P l -> P v -> Forall P (setNth i v l).
Proof.
  intros Hl Hv. revert i. induction Hl as [|a l Ha Hl IH]; intros [|i];
    simpl; auto.
Qed.

Lemma rect_row (g : Grid) (R C y : Z) (row : list Z) :
  rect g R C -> zth g y = Some row -> zlen row = C.
Proof.
  intros [_ Hall] Hrow. unfold zth in Hrow.
  destruct (y <? 0); [discriminate|].
  apply nth_error_In in Hrow. rewrite Forall_forall in Hall. auto.
Qed.

Lemma rect_setCell (g : Grid) (R C x y v : Z) :
  rect g R C -> rect (setCell g x y v) R C.
Proof.
  intros Hr. unfold setCell.
  destruct (zth g y) as [row|] eqn:Hrow; auto.
  destruct ((0 <=? x) && (x <? zlen row)); auto.
  pose proof (rect_row _ _ _ _ _ Hr Hrow) as Hlen.
  destruct Hr as [HR Hall]. split.
  - unfold zlen in *. rewrite length_setNth. exact HR.
  - apply Forall_setNth; auto. unfold zlen in *. rewrite length_setNth. auto.
Qed.

Lemma rect_row0 (g : Grid) (R C : Z) :
  rect g R C -> 1 <= R -> row0_length g = C.
Proof.
  intros [HR Hall] H1. destruct g as [|row g]; simpl.
  - unfold zlen in HR. simpl in HR. lia.
  - inversion Hall; auto.
Qed.

Lemma rect_cell (g : Grid) (R C x y : Z) :
  rect g R C -> 0 <= x < C -> 0 <= y < R ->
  exists row v, zth g y = Some row /\ zth row x = Some v /\
                cell g x y = Some v.
Proof.
  intros Hr Hx Hy. destruct (zth_in_range g y) as [row Hrow].
  { destruct Hr. lia. }
  pose proof (rect_row _ _ _ _ _ Hr Hrow) as Hlen.
  destruct (zth_in_range row x) as [v Hv]; [lia|].
  exists row, v. unfold cell. rewrite Hrow. auto.
Qed.

Lemma isWalkable_rect (g : Grid) (R C x y : Z) :
  rect g R C -> 1 <= R ->
  isWalkable g x y = true <->
  (0 <= x < C /\ 0 <= y < R /\ cell g x y <> Some 1).
Proof.
  intros Hr H1. unfold isWalkable.
  rewrite (rect_row0 _ _ _ Hr H1). destruct Hr as [HR _]. rewrite HR.
  destruct ((x <? 0) || (y <? 0) || (y >=? R) || (x >=? C)) eqn:E.
  - split; [discriminate|]. intros (Hx & Hy & _).
    rewrite !orb_true_iff in E. lia.
  - rewrite !orb_false_iff in E.
    destruct (cell g x y) as [[|[| |]|]|]; split; try discriminate;
      try (intros _; repeat split; try lia; congruence);
      try reflexivity.
    intros (_ & _ & H). congruence.
Qed.

(** ** Counting obstacles *)

Lemma sumZ_setNth {A : Type} (f : A -> Z) (i : nat) (v old : A)
  (l : list A) :
  nth_error l i = Some old ->
  sumZ f (setNth i v l) = sumZ f l - f old + f v.
Proof.
  revert i. induction l as [|a l IH]; intros [|i]; simpl; try discriminate.
  - intros [= ->]. lia.
  - intros H. rewrite (IH i H). lia.
Qed.

Lemma cell_Some_inv (g : Grid) (x y v : Z) :
  cell g x y = Some v ->
  exists row, zth g y = Some row /\ zth row x = Some v /\
              0 <= x < zlen row /\ 0 <= y < zlen g.
Proof.
  unfold cell. destruct (zth g y) as [row|] eqn:Hrow; [|discriminate].
  intros Hx. exists row. repeat split; auto;
    try (eapply zth_Some; eauto).
Qed.

Lemma count_setCell (g : Grid) (x y v old : Z) :
  cell g x y = Some old ->
  count_obstacles (setCell g x y v)
  = count_obstacles g - isObstacle old + isObstacle v.
Proof.
  intros Hc. destruct (cell_Some_inv _ _ _ _ Hc) as (row & Hrow & Hx & Hxr & Hyr).
  unfold setCell. rewrite Hrow.
  replace ((0 <=? x) && (x <? zlen row)) with true
    by (symmetry; apply andb_true_iff; split;
        [apply Z.leb_le | apply Z.ltb_lt]; lia).
  unfold count_obstacles. unfold zth in Hrow, Hx.
  destruct (y <? 0); [discriminate|]. destruct (x <? 0); [discriminate|].
  rewrite (sumZ_setNth _ _ _ row g Hrow).
  rewrite (sumZ_setNth _ _ _ old row Hx). lia.
Qed.

Lemma rect_repeat (R C : Z) :
  0 <= R -> 0 <= C ->
  rect (repeat (repeat 0 (Z.to_nat C)) (Z.to_nat R)) R C.
Proof.
  intros HR HC. split.
  - unfold zlen. rewrite repeat_length. lia.
  - apply Forall_forall. intros row Hin. apply repeat_spec in Hin. subst.
    unfold zlen. rewrite repeat_length. lia.
Qed.

Lemma cell_repeat (R C x y : Z) :
  0 <= x < C -> 0 <= y < R ->
  cell (repeat (repeat 0 (Z.to_nat C)) (Z.to_nat R)) x y = Some 0.
Proof.
  intros Hx Hy. unfold cell, zth.
  destruct (y <? 0) eqn:Ey; [apply Z.ltb_lt in Ey; lia|].
  rewrite nth_error_repeat by lia.
  destruct (x <? 0) eqn:Ex; [apply Z.ltb_lt in Ex; lia|].
  apply nth_error_repeat. lia.
Qed.

Lemma sumZ_zero {A : Type} (f : A -> Z) (l : list A) :
  (forall a, In a l -> f a = 0) -> sumZ f l = 0.
Proof.
  induction l as [|a l IH]; simpl; auto. intros H.
  rewrite IH, (H a); auto.
Qed.

Lemma count_repeat (R C : nat) :
  count_obstacles (repeat (repeat 0 C) R) = 0.
Proof.
  apply sumZ_zero. intros row Hin. apply repeat_spec in Hin. subst.
  apply sumZ_zero. intros v Hin. apply repeat_spec in Hin. subst. reflexivity.
Qed.

(** ** A grid without obstacles has a route *)

Lemma adjacent_right (x y : Z) : adjacent (mkPos x y) (mkPos (x + 1) y).
Proof.
  apply adjacent_cases. exists (1, 0). split; [simpl; auto 6|].
  simpl. f_equal; lia.
Qed.

Lemma adjacent_down (x y : Z) : adjacent (mkPos x y) (mkPos x (y + 1)).
Proof.
  apply adjacent_cases. exists (0, 1). split; [simpl; auto|].
  simpl. f_equal; lia.
Qed.

Lemma free_route (g : Grid) (R C : Z) :
  rect g R C -> 1 <= R -> 1 <= C ->
  (forall x y, cell g x y <> Some 1) ->
  exists route, Walk g (mkPos 0 0) (mkPos (C - 1) (R - 1)) route /\
                zlen route = (C - 1) + (R - 1) + 1.
Proof.
  intros Hr HR HC Hfree.
  assert (Hw : forall x y, 0 <= x < C -> 0 <= y < R -> walkable g (mkPos x y)).
  { intros x y Hx Hy. apply (isWalkable_rect g R C); auto. }
  assert (Hsnoc : forall (route : list Position) p,
             zlen (route ++ [p]) = zlen route + 1).
  { intros route p. unfold zlen. rewrite length_app. simpl. lia. }
  assert (Hrow : forall n : nat, Z.of_nat n < C ->
            exists route, Walk g (mkPos 0 0) (mkPos (Z.of_nat n) 0) route /\
                          zlen route = Z.of_nat n + 1).
  { induction n as [|n IH]; intros Hn.
    - exists [mkPos 0 0]. split; [|reflexivity].
      constructor. apply Hw; lia.
    - destruct IH as (route & Hroute & Hlen); [lia|].
      exists (route ++ [mkPos (Z.of_nat (S n)) 0]). split.
      + eapply Walk_step; eauto.
        * replace (Z.of_nat (S n)) with (Z.of_nat n + 1) by lia.
          apply adjacent_right.
        * apply Hw; lia.
      + rewrite Hsnoc. lia. }
  assert (Hcol : forall m : nat, Z.of_nat m < R ->
            exists route,
              Walk g (mkPos 0 0) (mkPos (C - 1) (Z.of_nat m)) route /\
              zlen route = (C - 1) + Z.of_nat m + 1).
  { induction m as [|m IH]; intros Hm.
    - destruct (Hrow (Z.to_nat (C - 1))) as (route & Hroute & Hlen); [lia|].
      replace (Z.of_nat (Z.to_nat (C - 1))) with (C - 1) in * by lia.
      exists route. split; auto. lia.
    - destruct IH as (route & Hroute & Hlen); [lia|].
      exists (route ++ [mkPos (C - 1) (Z.of_nat (S m))]). split.
      + eapply Walk_step; eauto.
        * replace (Z.of_nat (S m)) with (Z.of_nat m + 1) by lia.
          apply adjacent_down.
        * apply Hw; lia.
      + rewrite Hsnoc. lia. }
  destruct (Hcol (Z.to_nat (R - 1))) as (route & Hroute & Hlen); [lia|].
  replace (Z.of_nat (Z.to_nat (R - 1))) with (R - 1) in * by lia.
  exists route. split; auto.
Qed.

(** A route takes at least as many steps as the Manhattan distance. *)
Lemma Walk_length (g : Grid) (s t : Position) (route : list Position) :
  Walk g s t route -> heuristic s t + 1 <= zlen route.
Proof.
  induction 1 as [Hs|v w' route HW IH Ha Hw].
  - rewrite heuristic_refl. unfold zlen. simpl. lia.
  - pose proof (adjacent_heuristic v w' s Ha).
    unfold zlen in *. rewrite length_app. simpl. lia.
Qed.

(** ** The grid generator *)

Lemma generateGrid_loop_unfold fuel random R C N maxAttempts st :
  generateGrid_loop fuel random R C N maxAttempts st
  = if (gen_placed st <? N) && (gen_attempts st <? maxAttempts)
    then
      match fuel with
      | O => None
      | S fuel' =>
          let g := gen_grid st in
          let (x, y) := random (gen_attempts st) in
          let continue_ st' :=
            generateGrid_loop fuel' random R C N maxAttempts st' in
          match cell g x y with
          | Some 0 =>
              if ((x <=? 1) && (y <=? 1))
                 || ((x >=? C - 2) && (y >=? R - 2))
              then continue_ (mkGenState g (gen_placed st)
                                         (gen_attempts st + 1))
              else
                let g1 := setCell g x y 1 in
                if hasPath g1 (mkPos 0 0) (mkPos (C - 1) (R - 1))
                then continue_ (mkGenState g1 (gen_placed st + 1)
                                           (gen_attempts st + 1))
                else continue_ (mkGenState (setCell g1 x y 0) (gen_placed st)
                                           (gen_attempts st + 1))
          | _ => continue_ (mkGenState g (gen_placed st) (gen_attempts st + 1))
          end
      end
    else Some st.
Proof. destruct fuel; reflexivity. Qed.

Lemma GenInv_attempt (R C N : Z) (st : GenState) (a : Z) :
  GenInv R C N st ->
  GenInv R C N (mkGenState (gen_grid st) (gen_placed st) a).
Proof. intros [? ? ? ? ? ? ?]. constructor; simpl; auto. Qed.

Lemma GenInv_place (R C N : Z) (st : GenState) (x y a : Z) :
  GenInv R C N st ->
  gen_placed st < N ->
  cell (gen_grid st) x y = Some 0 ->
  ((x <=? 1) && (y <=? 1)) || ((x >=? C - 2) && (y >=? R - 2)) = false ->
  hasPath (setCell (gen_grid st) x y 1) (mkPos 0 0) (mkPos (C - 1) (R - 1))
  = true ->
  GenInv R C N
    (mkGenState (setCell (gen_grid st) x y 1) (gen_placed st + 1) a).
Proof.
  intros HI Hlt Hc Hbuf Hp.
  destruct (cell_Some_inv _ _ _ _ Hc) as (row & Hrow & _ & Hxr & _).
  apply orb_false_iff in Hbuf as [Hb1 Hb2].
  apply andb_false_iff in Hb1. apply andb_false_iff in Hb2.
  rewrite !Z.leb_gt in Hb1. rewrite !Z.geb_leb, !Z.leb_gt in Hb2.
  destruct HI as [Hr Hs He Hcnt Hpl Hbf Hpath].
  constructor; simpl; auto.
  - apply rect_setCell; auto.
  - rewrite (cell_setCell _ _ _ _ _ _ row); auto.
    destruct ((0 =? x) && (0 =? y)) eqn:E; auto.
    apply andb_true_iff in E as [E1 E2]. apply Z.eqb_eq in E1, E2. lia.
  - rewrite (cell_setCell _ _ _ _ _ _ row); auto.
    destruct ((C - 1 =? x) && (R - 1 =? y)) eqn:E; auto.
    apply andb_true_iff in E as [E1 E2]. apply Z.eqb_eq in E1, E2. lia.
  - rewrite (count_setCell _ _ _ _ 0); auto. unfold isObstacle; simpl. lia.
  - lia.
  - intros x' y'. rewrite (cell_setCell _ _ _ _ _ _ row); auto.
    destruct ((x' =? x) && (y' =? y)) eqn:E; auto.
    apply andb_true_iff in E as [E1 E2]. apply Z.eqb_eq in E1, E2.
    subst. intros _. lia.
Qed.

Lemma generateGrid_loop_spec (random : Z -> Z * Z) (R C N maxAttempts : Z) :
  forall fuel st,
    GenInv R C N st ->
    maxAttempts <= gen_attempts st + Z.of_nat fuel ->
    exists st',
      generateGrid_loop fuel random R C N maxAttempts st = Some st' /\
      GenInv R C N st' /\
      (gen_attempts st <= maxAttempts -> gen_attempts st' <= maxAttempts).
Proof.
  induction fuel as [|fuel IH]; intros st HI Hfuel;
    rewrite generateGrid_loop_unfold;
    destruct ((gen_placed st <? N) && (gen_attempts st <? maxAttempts)) eqn:Ec;
    try (exists st; auto; fail).
  - apply andb_true_iff in Ec as [_ Ec]. apply Z.ltb_lt in Ec. lia.
  - apply andb_true_iff in Ec as [Ep Ea].
    apply Z.ltb_lt in Ep, Ea. cbv zeta.
    destruct (random (gen_attempts st)) as [x y].
    assert (Hnext : forall st1,
               GenInv R C N st1 -> gen_attempts st1 = gen_attempts st + 1 ->
               exists st',
                 generateGrid_loop fuel random R C N maxAttempts st1 = Some st' /\
                 GenInv R C N st' /\
                 (gen_attempts st <= maxAttempts ->
                  gen_attempts st' <= maxAttempts)).
    { intros st1 HI1 Ha1. destruct (IH st1 HI1) as (st' & Hs & HI' & Hle).
      - lia.
      - exists st'. split; [exact Hs|]. split; [exact HI'|].
        intros _. apply Hle. lia. }
    destruct (cell (gen_grid st) x y) as [v|] eqn:Hcell;
      [|apply Hnext; [apply GenInv_attempt; auto | reflexivity]].
    destruct (Z.eq_dec v 0) as [->|Hv].
    + destruct (((x <=? 1) && (y <=? 1)) || ((x >=? C - 2) && (y >=? R - 2)))
        eqn:Hbuf; [apply Hnext; [apply GenInv_attempt; auto | reflexivity]|].
      destruct (hasPath (setCell (gen_grid st) x y 1) (mkPos 0 0)
                        (mkPos (C - 1) (R - 1))) eqn:Hp.
      * apply Hnext; [|reflexivity]. apply GenInv_place; auto.
      * rewrite (setCell_revert _ _ _ _ _ Hcell).
        apply Hnext; [apply GenInv_attempt; auto | reflexivity].
    + destruct v; try congruence;
        (apply Hnext; [apply GenInv_attempt; auto | reflexivity]).
Qed.

Lemma GenInv_init (R C N : Z) :
  2 <= R -> 2 <= C -> 0 <= N ->
  GenInv R C N
    (mkGenState
       (setCell (setCell (repeat (repeat 0 (Z.to_nat C)) (Z.to_nat R)) 0 0 2)
                (C - 1) (R - 1) 3) 0 0).
Proof.
  intros HR HC HN.
  set (g0 := repeat (repeat 0 (Z.to_nat C)) (Z.to_nat R)).
  assert (Hr0 : rect g0 R C) by (apply rect_repeat; lia).
  destruct (rect_cell g0 R C 0 0 Hr0) as (row0 & v0 & Hrow0 & Hx0 & Hc0);
    try lia.
  pose proof (rect_row _ _ _ _ _ Hr0 Hrow0) as Hlen0.
  set (g1 := setCell g0 0 0 2).
  assert (Hr1 : rect g1 R C) by (apply rect_setCell; auto).
  destruct (rect_cell g1 R C (C - 1) (R - 1) Hr1)
    as (row1 & v1 & Hrow1 & Hx1 & Hc1); try lia.
  pose proof (rect_row _ _ _ _ _ Hr1 Hrow1) as Hlen1.
  assert (Hcell1 : forall x y,
             cell g1 x y = if (x =? 0) && (y =? 0) then Some 2 else cell g0 x y).
  { intros x y. unfold g1. apply (cell_setCell _ _ _ _ _ _ row0); auto. lia. }
  assert (Hcell2 : forall x y,
             cell (setCell g1 (C - 1) (R - 1) 3) x y
             = if (x =? C - 1) && (y =? R - 1) then Some 3 else cell g1 x y).
  { intros x y. apply (cell_setCell _ _ _ _ _ _ row1); auto. lia. }
  assert (Hfree : forall x y,
             cell (setCell g1 (C - 1) (R - 1) 3) x y <> Some 1).
  { intros x y. rewrite Hcell2, Hcell1.
    destruct ((x =? C - 1) && (y =? R - 1)); [discriminate|].
    destruct ((x =? 0) && (y =? 0)); [discriminate|].
    intros H. destruct (cell_Some_inv _ _ _ _ H) as (row & Hrow & _ & Hxr & Hyr).
    pose proof (rect_row _ _ _ _ _ Hr0 Hrow). destruct Hr0 as [HR0 _].
    unfold g0 in H. rewrite cell_repeat in H by lia. discriminate. }
  constructor; simpl.
  - apply rect_setCell; auto.
  - rewrite Hcell2, Hcell1.
    destruct ((0 =? C - 1) && (0 =? R - 1)) eqn:E; auto.
    apply andb_true_iff in E as [E _]. apply Z.eqb_eq in E. lia.
  - rewrite Hcell2, !Z.eqb_refl. reflexivity.
  - rewrite (count_setCell _ _ _ _ v1 Hc1).
    unfold g1. rewrite (count_setCell _ _ _ _ v0 Hc0).
    unfold g0 at 1. rewrite count_repeat.
    assert (v0 = 0).
    { unfold g0 in Hc0. rewrite cell_repeat in Hc0 by lia. congruence. }
    assert (v1 = 0).
    { rewrite Hcell1 in Hc1.
      destruct ((C - 1 =? 0) && (R - 1 =? 0)) eqn:E.
      - apply andb_true_iff in E as [E _]. apply Z.eqb_eq in E. lia.
      - unfold g0 in Hc1. rewrite cell_repeat in Hc1 by lia. congruence. }
    subst. reflexivity.
  - lia.
  - intros x y H. exfalso. eapply Hfree; eauto.
  - apply hasPath_iff.
    destruct (free_route (setCell g1 (C - 1) (R - 1) 3) R C)
      as (route & Hroute & _); auto; try lia.
    + apply rect_setCell; auto.
    + exists route. apply Walk_Route, Hroute.
Qed.

(** ** Maps *)

Lemma JsMap_get_set_eq {V : Type} (m : JsMap.t V) (k : String.string)
  (v : V) :
  JsMap.get (JsMap.set m k v) k = Some v.
Proof.
  induction m as [|[k' v'] m IH]; simpl.
  - rewrite String.eqb_refl. reflexivity.
  - destruct (String.eqb k' k) eqn:E; simpl; rewrite E; auto.
Qed.

Lemma JsMap_get_set_neq {V : Type} (m : JsMap.t V) (k k' : String.string)
  (v : V) :
  k <> k' -> JsMap.get (JsMap.set m k v) k' = JsMap.get m k'.
Proof.
  intros Hne. induction m as [|[k0 v0] m IH]; simpl.
  - destruct (String.eqb k k') eqn:E; auto.
    apply String.eqb_eq in E. congruence.
  - destruct (String.eqb k0 k) eqn:E; simpl.
    + apply String.eqb_eq in E. subst k0.
      destruct (String.eqb k k') eqn:E'; auto.
      apply String.eqb_eq in E'. congruence.
    + destruct (String.eqb k0 k'); auto.
Qed.

Lemma JsMap_has_set_eq {V : Type} (m : JsMap.t V) (k : String.string)
  (v : V) :
  JsMap.has (JsMap.set m k v) k = true.
Proof. unfold JsMap.has. rewrite JsMap_get_set_eq. reflexivity. Qed.

Lemma JsMap_has_set_neq {V : Type} (m : JsMap.t V) (k k' : String.string)
  (v : V) :
  k <> k' -> JsMap.has (JsMap.set m k v) k' = JsMap.has m k'.
Proof. intros H. unfold JsMap.has. rewrite JsMap_get_set_neq; auto. Qed.

Lemma JsMap_get_In {V : Type} (m : JsMap.t V) (k : String.string) (v : V) :
  JsMap.get m k = Some v -> In (k, v) (JsMap.entries m).
Proof.
  unfold JsMap.entries. induction m as [|[k' v'] m IH]; simpl; [discriminate|].
  destruct (String.eqb k' k) eqn:E.
  - apply String.eqb_eq in E. intros [= ->]. subst. auto.
  - auto.
Qed.

(** ** Rejected moves *)

Lemma checkBoundaryCollision_true (row0 : list Z) (rest : Grid) (x y : Z) :
  checkBoundaryCollision (mkPos x y)
    (mkGridSize (zlen (row0 :: rest)) (zlen row0)) = true
  <-> out_of_grid (row0 :: rest) x y.
Proof.
  unfold checkBoundaryCollision, out_of_grid; simpl.
  rewrite !orb_true_iff, !Z.ltb_lt, !Z.geb_le. lia.
Qed.

Lemma checkBoundaryCollision_false (row0 : list Z) (rest : Grid) (x y : Z) :
  checkBoundaryCollision (mkPos x y)
    (mkGridSize (zlen (row0 :: rest)) (zlen row0)) = false
  <-> in_grid (row0 :: rest) x y.
Proof.
  unfold checkBoundaryCollision, in_grid; simpl.
  rewrite !orb_false_iff, !Z.ltb_ge, !Z.geb_leb, !Z.leb_gt. lia.
Qed.

Lemma in_grid_nonempty (g : Grid) (x y : Z) :
  in_grid g x y -> exists row0 rest, g = row0 :: rest.
Proof.
  intros [_ Hy]. destruct g as [|row0 rest]; eauto.
  unfold zlen in Hy; simpl in Hy. lia.
Qed.

(** The five rejections of [processMove], in the order the source tests
    them. *)
Lemma processMove_no_state w now gameId botId toX toY :
  JsMap.get (activeGames w) gameId = None ->
  processMove w now gameId botId toX toY = (Err GameStateNotFound, w).
Proof. intros H. unfold processMove. rewrite H. reflexivity. Qed.

Lemma processMove_not_live w now gameId botId toX toY gs :
  JsMap.get (activeGames w) gameId = Some gs ->
  JsMap.get (botPositions gs) botId = None ->
  processMove w now gameId botId toX toY = (Err BotNotActive, w).
Proof. intros H1 H2. unfold processMove. rewrite H1, H2. reflexivity. Qed.

Lemma processMove_finished w now gameId botId toX toY gs cur :
  JsMap.get (activeGames w) gameId = Some gs ->
  JsMap.get (botPositions gs) botId = Some cur ->
  JsMap.has (botFinishTimes gs) botId = true ->
  processMove w now gameId botId toX toY = (Err AlreadyFinished, w).
Proof.
  intros H1 H2 H3. unfold processMove. rewrite H1, H2, H3. reflexivity.
Qed.

Lemma processMove_not_adjacent w now gameId botId toX toY gs cur :
  JsMap.get (activeGames w) gameId = Some gs ->
  JsMap.get (botPositions gs) botId = Some cur ->
  JsMap.has (botFinishTimes gs) botId = false ->
  isValidMove cur (mkPos toX toY) = false ->
  processMove w now gameId botId toX toY = (Err InvalidMove, w).
Proof.
  intros H1 H2 H3 H4. unfold processMove. rewrite H1, H2, H3, H4.
  reflexivity.
Qed.

Lemma processMove_out_of_bounds w now gameId botId toX toY gs cur :
  JsMap.get (activeGames w) gameId = Some gs ->
  JsMap.get (botPositions gs) botId = Some cur ->
  JsMap.has (botFinishTimes gs) botId = false ->
  isValidMove cur (mkPos toX toY) = true ->
  out_of_grid (grid gs) toX toY ->
  processMove w now gameId botId toX toY
  = (Err (match grid gs with [] => TypeError | _ => OutOfBounds end), w).
Proof.
  intros H1 H2 H3 H4 H5. unfold processMove. rewrite H1, H2, H3, H4.
  cbn [negb]. destruct (grid gs) as [|row0 rest] eqn:Eg; [reflexivity|].
  apply checkBoundaryCollision_true in H5. rewrite H5. reflexivity.
Qed.

Lemma processMove_rejections w now gameId botId toX toY :
  JsMap.get (activeGames w) gameId = None \/
  (exists gs,
      JsMap.get (activeGames w) gameId = Some gs /\
      (JsMap.get (botPositions gs) botId = None \/
       JsMap.has (botFinishTimes gs) botId = true \/
       (exists cur, JsMap.get (botPositions gs) botId = Some cur /\
                    isValidMove cur (mkPos toX toY) = false) \/
       out_of_grid (grid gs) toX toY)) ->
  exists e, processMove w now gameId botId toX toY = (Err e, w).
Proof.
  intros [H|(gs & Hgs & H)].
  - eexists. apply processMove_no_state, H.
  - destruct (JsMap.get (botPositions gs) botId) as [cur|] eqn:Hcur;
      [|eexists; eapply processMove_not_live; eauto].
    destruct (JsMap.has (botFinishTimes gs) botId) eqn:Hfin;
      [eexists; eapply processMove_finished; eauto|].
    destruct (isValidMove cur (mkPos toX toY)) eqn:Hadj;
      [|eexists; eapply processMove_not_adjacent; eauto].
    destruct H as [H|[H|[(cur' & Hc & H)|H]]]; try congruence.
    eexists. eapply processMove_out_of_bounds; eauto.
Qed.

(** ** Moves that pass the checks *)

Ltac enter_move H :=
  let Eg := fresh "Eg" in
  let row0 := fresh "row0" in
  let rest := fresh "rest" in
  let Hin := fresh "Hin" in
  unfold processMove;
  rewrite (acc_state _ _ _ _ _ _ _ _ H), (acc_live _ _ _ _ _ _ _ _ H),
    (acc_unfinished _ _ _ _ _ _ _ _ H), (acc_adjacent _ _ _ _ _ _ _ _ H);
  cbn [negb];
  pose proof (acc_in_grid _ _ _ _ _ _ _ _ H) as Hin;
  destruct (in_grid_nonempty _ _ _ Hin) as (row0 & rest & Eg);
  rewrite Eg in Hin |- *;
  apply checkBoundaryCollision_false in Hin; rewrite Hin;
  rewrite <- Eg; clear Hin Eg row0 rest;
  rewrite (acc_game _ _ _ _ _ _ _ _ H); cbv zeta;
  cbn [grid botPositions botFinishTimes endPosition startTime moveCounters].

Lemma checkObstacleCollision_in_grid (g : Grid) (x y : Z) :
  in_grid g x y ->
  checkObstacleCollision g (mkPos x y)
  = match cell g x y with Some 1 => true | _ => false end.
Proof.
  intros [Hx Hy]. unfold checkObstacleCollision; simpl.
  replace ((y <? 0) || (y >=? zlen g) || (x <? 0) || (x >=? row0_length g))
    with false; auto.
  symmetry. rewrite !orb_false_iff, !Z.ltb_ge, !Z.geb_leb, !Z.leb_gt. lia.
Qed.

Lemma isWalkable_in_grid (g : Grid) (x y : Z) :
  isWalkable g x y = true <-> in_grid g x y /\ cell g x y <> Some 1.
Proof.
  unfold isWalkable, in_grid.
  destruct ((x <? 0) || (y <? 0) || (y >=? zlen g) || (x >=? row0_length g))
    eqn:E.
  - rewrite !orb_true_iff, !Z.ltb_lt, !Z.geb_le in E.
    split; [discriminate | lia].
  - rewrite !orb_false_iff, !Z.ltb_ge, !Z.geb_leb, !Z.leb_gt in E.
    destruct (cell g x y) as [[|[| |]|]|]; split; try discriminate;
      try (intros _; split; [lia | congruence]); try reflexivity.
    intros [_ H]. congruence.
Qed.

Lemma processMove_collision w now gameId botId toX toY gs cur game bg :
  Accepted w gameId botId toX toY gs cur game ->
  cell (grid gs) toX toY = Some 1 ->
  botGame_findUnique w botId gameId = Some bg ->
  processMove w now gameId botId toX toY
  = (Ok (Collided COLLISION_PENALTY_SECONDS (bg_collisions bg + 1) cur
                  (next_moveNumber gs botId)),
     add_move
       (botGame_update (set_gameState w gameId (counted gs botId)) gameId
                       (bg_id bg) incr_collisions)
       (move_record gameId botId game cur toX toY
                    (next_moveNumber gs botId) true)).
Proof.
  intros H Hc Hbg. enter_move H.
  rewrite (checkObstacleCollision_in_grid _ _ _ (acc_in_grid _ _ _ _ _ _ _ _ H)).
  rewrite Hc. unfold handleCollision.
  change (botGame_findUnique (set_gameState w gameId _) botId gameId)
    with (botGame_findUnique w botId gameId).
  rewrite Hbg. reflexivity.
Qed.

Lemma processMove_collision_stranger w now gameId botId toX toY gs cur game :
  Accepted w gameId botId toX toY gs cur game ->
  cell (grid gs) toX toY = Some 1 ->
  botGame_findUnique w botId gameId = None ->
  processMove w now gameId botId toX toY
  = (Err NotParticipant, set_gameState w gameId (counted gs botId)).
Proof.
  intros H Hc Hbg. enter_move H.
  rewrite (checkObstacleCollision_in_grid _ _ _ (acc_in_grid _ _ _ _ _ _ _ _ H)).
  rewrite Hc. unfold handleCollision.
  change (botGame_findUnique (set_gameState w gameId _) botId gameId)
    with (botGame_findUnique w botId gameId).
  rewrite Hbg. reflexivity.
Qed.

Lemma processMove_blocked w now gameId botId toX toY gs cur game blocker :
  Accepted w gameId botId toX toY gs cur game ->
  cell (grid gs) toX toY <> Some 1 ->
  checkBotCollision (blockers gs) botId (mkPos toX toY) = Some blocker ->
  processMove w now gameId botId toX toY
  = (Ok (Blocked blocker cur (next_moveNumber gs botId)),
     set_gameState w gameId (counted gs botId)).
Proof.
  intros H Hc Hb. enter_move H.
  rewrite (checkObstacleCollision_in_grid _ _ _ (acc_in_grid _ _ _ _ _ _ _ _ H)).
  replace (match cell (grid gs) toX toY with Some 1 => true | _ => false end)
    with false
    by (destruct (cell (grid gs) toX toY) as [[|[| |]|]|]; congruence).
  cbn [grid botPositions botFinishTimes]. fold (blockers gs).
  rewrite Hb. reflexivity.
Qed.

Lemma processMove_moved w now gameId botId toX toY gs cur game :
  Accepted w gameId botId toX toY gs cur game ->
  cell (grid gs) toX toY <> Some 1 ->
  checkBotCollision (blockers gs) botId (mkPos toX toY) = None ->
  exists result w',
    processMove w now gameId botId toX toY = (Ok result, w') /\
    ((Position_eqb (mkPos toX toY) (endPosition gs) = false /\
      result = Moved (mkPos toX toY) (next_moveNumber gs botId) false None /\
      JsMap.get (activeGames w') gameId = Some (advanced gs botId toX toY))
     \/
     (Position_eqb (mkPos toX toY) (endPosition gs) = true /\
      result = Moved (mkPos toX toY) (next_moveNumber gs botId) true
                     (Some (now - startTime gs)) /\
      JsMap.get (activeGames w') gameId
      = Some (finished_at (advanced gs botId toX toY) botId
                          (now - startTime gs)))) /\
    moves w' = moves w ++ [move_record gameId botId game cur toX toY
                                       (next_moveNumber gs botId) false] /\
    forall other, other <> gameId ->
                  JsMap.get (activeGames w') other
                  = JsMap.get (activeGames w) other.
Proof.
  intros H Hc Hb. enter_move H.
  rewrite (checkObstacleCollision_in_grid _ _ _ (acc_in_grid _ _ _ _ _ _ _ _ H)).
  replace (match cell (grid gs) toX toY with Some 1 => true | _ => false end)
    with false
    by (destruct (cell (grid gs) toX toY) as [[|[| |]|]|]; congruence).
  cbn [grid botPositions botFinishTimes endPosition startTime moveCounters
       pos_x pos_y].
  fold (blockers gs). rewrite Hb.
  fold (next_moveNumber gs botId).
  change ((toX =? pos_x (endPosition gs)) && (toY =? pos_y (endPosition gs)))
    with (Position_eqb (mkPos toX toY) (endPosition gs)).
  destruct (Position_eqb (mkPos toX toY) (endPosition gs)) eqn:Eend.
  - eexists _, _. split; [reflexivity|]. split; [|split].
    + right. split; [reflexivity|].
      rewrite JsMap_get_set_eq. split; [reflexivity|].
      match goal with
      | |- JsMap.get (activeGames ?w') gameId = _ =>
          assert (Hag : activeGames w'
                        = JsMap.set
                            (JsMap.set
                               (JsMap.set (activeGames w) gameId
                                          (counted gs botId))
                               gameId (advanced gs botId toX toY))
                            gameId
                            (finished_at (advanced gs botId toX toY) botId
                                         (now - startTime gs)))
      end.
      { match goal with
        | |- context [botGame_findUnique ?w4 botId gameId] =>
            destruct (botGame_findUnique w4 botId gameId) as [bg|]
        end; [|reflexivity].
        unfold botGame_update. cbn [games set_gameState set_activeGames add_move].
        destruct (JsMap.get (games w) gameId); reflexivity. }
      rewrite Hag. apply JsMap_get_set_eq.
    + match goal with
      | |- context [botGame_findUnique ?w4 botId gameId] =>
          destruct (botGame_findUnique w4 botId gameId) as [bg|]
      end; [|reflexivity].
      unfold botGame_update. cbn [games set_gameState set_activeGames add_move].
      destruct (JsMap.get (games w) gameId); reflexivity.
    + intros other Hne.
      match goal with
      | |- context [botGame_findUnique ?w4 botId gameId] =>
          destruct (botGame_findUnique w4 botId gameId) as [bg|]
      end.
      * unfold botGame_update.
        cbn [games set_gameState set_activeGames add_move].
        destruct (JsMap.get (games w) gameId);
          cbn [activeGames set_games set_gameState set_activeGames add_move];
          rewrite !JsMap_get_set_neq by congruence; reflexivity.
      * cbn [activeGames set_games set_gameState set_activeGames add_move].
        rewrite !JsMap_get_set_neq by congruence; reflexivity.
  - eexists _, _. split; [reflexivity|]. split; [|split].
    + left. split; [reflexivity|]. split; [reflexivity|].
      cbn [activeGames set_games set_gameState set_activeGames add_move].
      apply JsMap_get_set_eq.
    + reflexivity.
    + intros other Hne.
      cbn [activeGames set_games set_gameState set_activeGames add_move].
      rewrite !JsMap_get_set_neq by congruence; reflexivity.
Qed.

Lemma activeGames_botGame_update w gameId id upd :
  activeGames (botGame_update w gameId id upd) = activeGames w.
Proof.
  unfold botGame_update. destruct (JsMap.get (games w) gameId); reflexivity.
Qed.

Lemma moves_botGame_update w gameId id upd :
  moves (botGame_update w gameId id upd) = moves w.
Proof.
  unfold botGame_update. destruct (JsMap.get (games w) gameId); reflexivity.
Qed.

Lemma get_set_gameState w gameId gs :
  JsMap.get (activeGames (set_gameState w gameId gs)) gameId = Some gs.
Proof. apply JsMap_get_set_eq. Qed.

Lemma get_set_gameState_other w gameId gs other :
  other <> gameId ->
  JsMap.get (activeGames (set_gameState w gameId gs)) other
  = JsMap.get (activeGames w) other.
Proof. intros H. apply JsMap_get_set_neq. congruence. Qed.

Lemma checkBotCollision_Some positions botId p blocker :
  checkBotCollision positions botId p = Some blocker ->
  blocker <> botId /\ In (mkBotPosition blocker p) positions.
Proof.
  induction positions as [|[b q] rest IH]; simpl; [discriminate|].
  destruct (negb (String.eqb b botId) && (pos_x q =? pos_x p)
            && (pos_y q =? pos_y p)) eqn:E.
  - intros [= <-]. apply andb_true_iff in E as [E Ey].
    apply andb_true_iff in E as [Eb Ex].
    apply negb_true_iff, String.eqb_neq in Eb.
    split; auto. left. f_equal.
    apply Position_eqb_eq. unfold Position_eqb. rewrite Ex, Ey. reflexivity.
  - intros H. destruct (IH H). auto.
Qed.

Lemma checkBotCollision_None positions botId p :
  checkBotCollision positions botId p = None ->
  forall b, In (mkBotPosition b p) positions -> b = botId.
Proof.
  induction positions as [|[b q] rest IH]; simpl; [contradiction|].
  destruct (negb (String.eqb b botId) && (pos_x q =? pos_x p)
            && (pos_y q =? pos_y p)) eqn:E; [discriminate|].
  intros H b' [Heq|Hin]; [|auto].
  injection Heq as -> ->.
  rewrite !Z.eqb_refl, !andb_true_r in E.
  apply negb_false_iff, String.eqb_eq in E. exact E.
Qed.

Lemma In_blockers gs b p :
  In (mkBotPosition b p) (blockers gs) <->
  In (b, p) (JsMap.entries (botPositions gs)) /\
  JsMap.has (botFinishTimes gs) b = false.
Proof.
  unfold blockers. rewrite in_map_iff. split.
  - intros ([b' p'] & Heq & Hin). simpl in Heq. injection Heq as -> ->.
    apply filter_In in Hin as [Hin Hf]. simpl in Hf.
    apply negb_true_iff in Hf. auto.
  - intros [Hin Hf]. exists (b, p). split; auto.
    apply filter_In. split; auto. simpl. rewrite Hf. reflexivity.
Qed.

(** ** Rows of the record store *)

Lemma find_update_row (rows_ : list BotGame) (botId : String.string)
  (bg : BotGame) (upd : BotGame -> BotGame) :
  NoDup (map bg_id rows_) ->
  (forall p, bg_botId (upd p) = bg_botId p) ->
  find (fun p => String.eqb (bg_botId p) botId) rows_ = Some bg ->
  find (fun p => String.eqb (bg_botId p) botId)
       (update_row (bg_id bg) upd rows_) = Some (upd bg).
Proof.
  intros Hnd Hupd. induction rows_ as [|p rest IH]; simpl; [discriminate|].
  inversion Hnd as [|? ? Hnotin Hnd']; subst.
  destruct (String.eqb (bg_botId p) botId) eqn:Eb.
  - intros [= ->]. rewrite String.eqb_refl. simpl.
    rewrite Hupd, Eb. reflexivity.
  - intros Hfind. pose proof (find_some _ _ Hfind) as [Hin _].
    destruct (String.eqb (bg_id p) (bg_id bg)) eqn:Ei.
    + apply String.eqb_eq in Ei. exfalso. apply Hnotin. rewrite Ei.
      apply in_map. exact Hin.
    + simpl. rewrite Eb. auto.
Qed.

Lemma find_update_row_other (rows_ : list BotGame)
  (botId other : String.string) (bg : BotGame) (upd : BotGame -> BotGame) :
  (forall p, bg_botId (upd p) = bg_botId p) ->
  find (fun p => String.eqb (bg_botId p) botId) rows_ = Some bg ->
  NoDup (map bg_id rows_) ->
  other <> botId ->
  find (fun p => String.eqb (bg_botId p) other)
       (update_row (bg_id bg) upd rows_)
  = find (fun p => String.eqb (bg_botId p) other) rows_.
Proof.
  intros Hupd Hfind Hnd Hne. revert Hfind Hnd.
  induction rows_ as [|p rest IH]; simpl; auto.
  intros Hfind Hnd. inversion Hnd as [|? ? Hnotin Hnd']; subst.
  destruct (String.eqb (bg_botId p) botId) eqn:Eb.
  - injection Hfind as ->. rewrite String.eqb_refl. simpl.
    rewrite Hupd. apply String.eqb_eq in Eb.
    destruct (String.eqb (bg_botId bg) other) eqn:Eo; auto.
    apply String.eqb_eq in Eo. congruence.
  - pose proof (find_some _ _ Hfind) as [Hin _].
    destruct (String.eqb (bg_id p) (bg_id bg)) eqn:Ei.
    + apply String.eqb_eq in Ei. exfalso. apply Hnotin. rewrite Ei.
      apply in_map. exact Hin.
    + simpl. rewrite IH; auto.
Qed.

Lemma botGame_findUnique_update w gameId botId bg upd :
  unique_ids w gameId ->
  (forall p, bg_botId (upd p) = bg_botId p) ->
  botGame_findUnique w botId gameId = Some bg ->
  botGame_findUnique (botGame_update w gameId (bg_id bg) upd) botId gameId
  = Some (upd bg).
Proof.
  unfold botGame_findUnique, botGame_update, unique_ids. intros Hu Hupd.
  destruct (JsMap.get (games w) gameId) as [g|] eqn:Eg; [|discriminate].
  intros Hfind. cbn [games set_games]. rewrite JsMap_get_set_eq.
  cbn [participants set_participants].
  apply find_update_row; auto.
Qed.

Lemma botGame_findUnique_update_other w gameId botId other bg upd :
  unique_ids w gameId ->
  (forall p, bg_botId (upd p) = bg_botId p) ->
  botGame_findUnique w botId gameId = Some bg ->
  other <> botId ->
  botGame_findUnique (botGame_update w gameId (bg_id bg) upd) other gameId
  = botGame_findUnique w other gameId.
Proof.
  unfold botGame_findUnique, botGame_update, unique_ids. intros Hu Hupd.
  destruct (JsMap.get (games w) gameId) as [g|] eqn:Eg; [|discriminate].
  intros Hfind Hne. cbn [games set_games]. rewrite JsMap_get_set_eq.
  cbn [participants set_participants].
  eapply find_update_row_other; eauto.
Qed.

(** ** What a call of [processMove] does to the round state *)

Lemma processMove_dichotomy w now gameId botId toX toY :
  (exists e, processMove w now gameId botId toX toY = (Err e, w)) \/
  (exists gs cur game, Accepted w gameId botId toX toY gs cur game).
Proof.
  destruct (JsMap.get (activeGames w) gameId) as [gs|] eqn:Hgs;
    [|left; eexists; apply processMove_no_state; auto].
  destruct (JsMap.get (botPositions gs) botId) as [cur|] eqn:Hcur;
    [|left; eexists; eapply processMove_not_live; eauto].
  destruct (JsMap.has (botFinishTimes gs) botId) eqn:Hfin;
    [left; eexists; eapply processMove_finished; eauto|].
  destruct (isValidMove cur (mkPos toX toY)) eqn:Hadj;
    [|left; eexists; eapply processMove_not_adjacent; eauto].
  destruct (grid gs) as [|row0 rest] eqn:Eg.
  { left. eexists. unfold processMove. rewrite Hgs, Hcur, Hfin, Hadj, Eg.
    reflexivity. }
  destruct (checkBoundaryCollision (mkPos toX toY)
              (mkGridSize (zlen (row0 :: rest)) (zlen row0))) eqn:Hb.
  { left. eexists. unfold processMove. rewrite Hgs, Hcur, Hfin, Hadj, Eg.
    cbn [negb]. rewrite Hb. reflexivity. }
  destruct (GameModel_findById w gameId) as [game|] eqn:Hgame.
  - right. exists gs, cur, game. constructor; auto.
    rewrite Eg. apply checkBoundaryCollision_false. exact Hb.
  - left. eexists. unfold processMove. rewrite Hgs, Hcur, Hfin, Hadj, Eg.
    cbn [negb]. rewrite Hb, Hgame. reflexivity.
Qed.

(** The round state after an accepted call: only the move counter of the
    bot, and on an advance its position and possibly its finish time, have
    changed. *)
Lemma processMove_state w now gameId botId toX toY gs cur game :
  Accepted w gameId botId toX toY gs cur game ->
  exists gs',
    JsMap.get (activeGames (snd (processMove w now gameId botId toX toY)))
              gameId = Some gs' /\
    grid gs' = grid gs /\
    moveCounters gs'
    = JsMap.set (moveCounters gs) botId (next_moveNumber gs botId) /\
    (botPositions gs' = botPositions gs \/
     (botPositions gs' = JsMap.set (botPositions gs) botId (mkPos toX toY) /\
      cell (grid gs) toX toY <> Some 1)) /\
    forall other, other <> gameId ->
      JsMap.get (activeGames (snd (processMove w now gameId botId toX toY)))
                other
      = JsMap.get (activeGames w) other.
Proof.
  intros H.
  assert (Hcase : cell (grid gs) toX toY = Some 1 \/
                  cell (grid gs) toX toY <> Some 1).
  { destruct (cell (grid gs) toX toY) as [v|]; [|right; discriminate].
    destruct (Z.eq_dec v 1); [left | right]; congruence. }
  destruct Hcase as [Hc|Hc].
  - destruct (botGame_findUnique w botId gameId) as [bg|] eqn:Hbg.
    + rewrite (processMove_collision _ _ _ _ _ _ _ _ _ _ H Hc Hbg).
      exists (counted gs botId). cbn [snd add_move activeGames].
      rewrite activeGames_botGame_update. repeat split; auto.
      * apply get_set_gameState.
      * intros other Hne. apply get_set_gameState_other, Hne.
    + rewrite (processMove_collision_stranger _ _ _ _ _ _ _ _ _ H Hc Hbg).
      exists (counted gs botId). cbn [snd]. repeat split; auto.
      * apply get_set_gameState.
      * intros other Hne. apply get_set_gameState_other, Hne.
  - destruct (checkBotCollision (blockers gs) botId (mkPos toX toY))
      as [blocker|] eqn:Hb.
    + rewrite (processMove_blocked _ _ _ _ _ _ _ _ _ _ H Hc Hb).
      exists (counted gs botId). cbn [snd]. repeat split; auto.
      * apply get_set_gameState.
      * intros other Hne. apply get_set_gameState_other, Hne.
    + destruct (processMove_moved _ now _ _ _ _ _ _ _ H Hc Hb)
        as (result & w' & Heq & Hst & _ & Hother).
      rewrite Heq. cbn [snd].
      destruct Hst as [(_ & _ & Hget)|(_ & _ & Hget)].
      * exists (advanced gs botId toX toY). repeat split; auto.
      * exists (finished_at (advanced gs botId toX toY) botId
                            (now - startTime gs)).
        repeat split; auto.
Qed.

(** ** Starting a level *)

Lemma findPath_nonempty_start (g : Grid) (s e : Position) :
  findPath g s e <> [] -> walkable g s.
Proof.
  intros Hne. destruct (findPath_spec g s e) as [[Hnil _]|[HW _]];
    [congruence|]. eapply Walk_start_walkable; eauto.
Qed.

Lemma seed_map {V : Type} (l : list BotGame) (v : V) :
  forall (m : JsMap.t V) (k : String.string) (x : V),
    JsMap.get (fold_left (fun m p => JsMap.set m (bg_botId p) v) l m) k
    = Some x ->
    x = v \/ JsMap.get m k = Some x.
Proof.
  induction l as [|a l IH]; intros m k x; simpl; auto.
  intros H. apply IH in H as [H|H]; auto.
  destruct (String.eqb (bg_botId a) k) eqn:E.
  - apply String.eqb_eq in E. subst k. rewrite JsMap_get_set_eq in H.
    left. congruence.
  - apply String.eqb_neq in E. rewrite JsMap_get_set_neq in H; auto.
Qed.

Lemma activeGames_updateStatus w gameId st level :
  activeGames (GameModel_updateStatus w gameId st level) = activeGames w.
Proof.
  unfold GameModel_updateStatus.
  destruct (JsMap.get (games w) gameId); reflexivity.
Qed.

Lemma startLevel_spec (randoms : nat -> Z -> Z * Z) now n gameId level :
  forall retries w outcome w',
    startLevel retries w now randoms n gameId level = Some (outcome, w') ->
    (exists e, outcome = Err e /\ w' = w) \/
    (exists start_ gs,
        outcome = Ok start_ /\
        JsMap.get (activeGames w') gameId = Some gs /\
        walkable (grid gs) (mkPos 0 0) /\
        (forall botId p, JsMap.get (botPositions gs) botId = Some p ->
                         p = mkPos 0 0) /\
        botFinishTimes gs = JsMap.empty /\
        (forall botId c, JsMap.get (moveCounters gs) botId = Some c -> c = 0) /\
        forall other, other <> gameId ->
                      JsMap.get (activeGames w') other
                      = JsMap.get (activeGames w) other).
Proof.
  assert (Hgo : forall w game g outcome w',
    (zlen (findPath g (mkPos 0 0)
             (mkPos (gridCols (arena game) - 1) (gridRows (arena game) - 1)))
     =? 0) = false ->
    (let activeParticipants :=
       filter (fun p => negb (bg_eliminated p)) (participants game) in
     let botPositions_ :=
       fold_left (fun m p => JsMap.set m (bg_botId p) (mkPos 0 0))
                 activeParticipants JsMap.empty in
     let moveCounters_ :=
       fold_left (fun m p => JsMap.set m (bg_botId p) 0)
                 activeParticipants JsMap.empty in
     let endPosition_ :=
       mkPos (gridCols (arena game) - 1) (gridRows (arena game) - 1) in
     let gameState :=
       mkGameState g botPositions_ endPosition_ now moveCounters_
                   JsMap.empty in
     Some (Ok (mkLevelStart g endPosition_ botPositions_ level),
           GameModel_updateStatus
             (set_activeGames w (JsMap.set (activeGames w) gameId gameState))
             gameId (statusMap level) level)) = Some (outcome, w') ->
    exists start_ gs,
      outcome = Ok start_ /\
      JsMap.get (activeGames w') gameId = Some gs /\
      walkable (grid gs) (mkPos 0 0) /\
      (forall botId p, JsMap.get (botPositions gs) botId = Some p ->
                       p = mkPos 0 0) /\
      botFinishTimes gs = JsMap.empty /\
      (forall botId c, JsMap.get (moveCounters gs) botId = Some c -> c = 0) /\
      forall other, other <> gameId ->
                    JsMap.get (activeGames w') other
                    = JsMap.get (activeGames w) other).
  { intros w game g outcome w' Ep. cbv zeta. intros [= <- <-].
    eexists _, _. split; [reflexivity|].
    rewrite activeGames_updateStatus. cbn [activeGames set_activeGames].
    rewrite JsMap_get_set_eq. split; [reflexivity|].
    cbn [grid botPositions botFinishTimes moveCounters].
    split; [|split; [|split; [|split]]].
    - eapply findPath_nonempty_start. intros Hnil. rewrite Hnil in Ep.
      discriminate.
    - intros botId p Hget. apply seed_map in Hget as [?|Hget];
        [assumption | discriminate].
    - reflexivity.
    - intros botId c Hget. apply seed_map in Hget as [?|Hget];
        [assumption | discriminate].
    - intros other Hne. apply JsMap_get_set_neq. congruence. }
  induction retries as [|retries IH]; intros w outcome w'; cbn [startLevel];
    (destruct (GameModel_findById w gameId) as [game|];
     [|intros [= <- <-]; left; eauto]);
    match goal with
    | |- context [generateGrid ?r ?a ?b ?c] =>
        destruct (generateGrid r a b c) as [g|]; [|discriminate]
    end;
    match goal with
    | |- context [findPath ?g ?s ?e] =>
        destruct (zlen (findPath g s e) =? 0) eqn:Ep
    end; try discriminate.
  - intros H. right. eapply Hgo; eauto.
  - apply IH.
  - intros H. right. eapply Hgo; eauto.
Qed.

(** ** Sorting and slicing *)

Section Sorting.

Context {A : Type}.
Variable leb : A -> A -> bool.

Lemma insertBy_Permutation (a : A) (l : list A) :
  Permutation (insertBy leb a l) (a :: l).
Proof.
  induction l as [|b l IH]; simpl; auto.
  destruct (leb a b); auto.
  eapply perm_trans; [apply perm_skip, IH | apply perm_swap].
Qed.

Lemma sortBy_Permutation (l : list A) : Permutation (sortBy leb l) l.
Proof.
  induction l as [|a l IH]; simpl; auto.
  eapply perm_trans; [apply insertBy_Permutation | apply perm_skip, IH].
Qed.

Lemma sortBy_length (l : list A) : length (sortBy leb l) = length l.
Proof. apply Permutation_length, sortBy_Permutation. Qed.

Lemma sortBy_In (l : list A) (a : A) : In a (sortBy leb l) <-> In a l.
Proof.
  split; apply Permutation_in;
    [|apply Permutation_sym]; apply sortBy_Permutation.
Qed.

Hypothesis leb_total : forall a b, leb a b = true \/ leb b a = true.
Hypothesis leb_trans :
  forall a b c, leb a b = true -> leb b c = true -> leb a c = true.

Lemma insertBy_sorted (a : A) (l : list A) :
  StronglySorted (fun x y => leb x y = true) l ->
  StronglySorted (fun x y => leb x y = true) (insertBy leb a l).
Proof.
  induction 1 as [|b l Hs IH Hall]; simpl.
  - repeat constructor.
  - destruct (leb a b) eqn:E.
    + constructor; [constructor; auto|].
      constructor; auto.
      rewrite Forall_forall in *. eauto.
    + constructor; auto.
      rewrite Forall_forall in *. intros x Hx.
      apply (Permutation_in _ (insertBy_Permutation a l)) in Hx.
      destruct Hx as [<-|Hx]; auto.
      destruct (leb_total a b); congruence.
Qed.

Lemma sortBy_sorted (l : list A) :
  StronglySorted (fun x y => leb x y = true) (sortBy leb l).
Proof.
  induction l as [|a l IH]; simpl; [constructor|].
  apply insertBy_sorted, IH.
Qed.

End Sorting.

Lemma sorted_before {A : Type} (R : A -> A -> Prop) (l : list A) (a b : A) :
  StronglySorted R l -> In a l -> In b l -> ~ R b a -> a <> b ->
  exists l1 l2 l3, l = l1 ++ a :: l2 ++ b :: l3.
Proof.
  intros Hs Ha Hb Hnr Hne.
  apply in_split in Ha as (l1 & r & ->).
  apply in_app_or in Hb as [Hb|[Hb|Hb]].
  - exfalso. apply in_split in Hb as (x & y & ->).
    rewrite <- app_assoc in Hs. simpl in Hs.
    clear - Hs Hnr. induction x as [|c x IH]; simpl in Hs.
    + inversion Hs as [|? ? _ Hall]; subst.
      rewrite Forall_forall in Hall. apply Hnr, Hall.
      apply in_or_app. right. left. reflexivity.
    + inversion Hs; auto.
  - congruence.
  - apply in_split in Hb as (l2 & l3 & ->). eauto.
Qed.

Lemma slice_front {A : Type} (l : list A) (k : Z) :
  0 <= k <= zlen l -> slice l 0 (Some k) = firstn (Z.to_nat k) l.
Proof.
  intros Hk. unfold slice.
  assert (H0 : slice_index l 0 = 0%nat).
  { unfold slice_index. change (0 <? 0) with false. cbv iota.
    unfold zlen. lia. }
  assert (Hk' : slice_index l k = Z.to_nat k).
  { unfold slice_index.
    destruct (k <? 0) eqn:E; [apply Z.ltb_lt in E; lia|].
    rewrite Z.min_l by lia. reflexivity. }
  rewrite H0, Hk', Nat.sub_0_r. reflexivity.
Qed.

Lemma slice_back {A : Type} (l : list A) (k : Z) :
  0 <= k <= zlen l -> slice l k None = skipn (Z.to_nat k) l.
Proof.
  intros Hk. unfold slice, slice_index.
  destruct (k <? 0) eqn:E; [apply Z.ltb_lt in E; lia|].
  rewrite Z.min_l by lia.
  apply firstn_all2. rewrite length_skipn. lia.
Qed.

Lemma Num_leb_total (a b : Num) : Num_leb a b = true \/ Num_leb b a = true.
Proof.
  destruct a, b; simpl; auto.
  destruct (Z.leb_spec z z0); [left | right]; auto.
  apply Z.leb_le. lia.
Qed.

Lemma Num_leb_trans (a b c : Num) :
  Num_leb a b = true -> Num_leb b c = true -> Num_leb a c = true.
Proof.
  destruct a, b, c; simpl; auto; try discriminate.
  rewrite !Z.leb_le. lia.
Qed.

(** ** The rows of a game and the updates of [eliminateBots] *)

Lemma mem_In (s : String.string) (l : list String.string) :
  mem s l = true <-> In s l.
Proof.
  unfold mem. rewrite existsb_exists. split.
  - intros (x & Hin & Heq). apply String.eqb_eq in Heq. subst; auto.
  - intros Hin. exists s. split; auto. apply String.eqb_refl.
Qed.

Lemma rowsOf_botGame_update w gameId id upd :
  rowsOf (botGame_update w gameId id upd) gameId
  = update_row id upd (rowsOf w gameId).
Proof.
  unfold rowsOf, botGame_update.
  destruct (JsMap.get (games w) gameId) as [g|] eqn:Eg.
  - cbn [games set_games]. rewrite JsMap_get_set_eq. reflexivity.
  - rewrite Eg. reflexivity.
Qed.

Lemma update_row_map (id : String.string) (upd : BotGame -> BotGame)
  (rows_ : list BotGame) :
  NoDup (map bg_id rows_) ->
  update_row id upd rows_
  = map (fun p => if String.eqb (bg_id p) id then upd p else p) rows_.
Proof.
  induction rows_ as [|p rest IH]; simpl; auto.
  intros Hnd. inversion Hnd as [|? ? Hnotin Hnd']; subst.
  destruct (String.eqb (bg_id p) id) eqn:E.
  - f_equal. apply String.eqb_eq in E. subst id.
    rewrite <- (map_id rest) at 1. apply map_ext_in.
    intros q Hq. destruct (String.eqb (bg_id q) (bg_id p)) eqn:E'; auto.
    apply String.eqb_eq in E'. exfalso. apply Hnotin. rewrite <- E'.
    apply in_map, Hq.
  - f_equal. auto.
Qed.

Lemma map_bg_id_preserved (f : BotGame -> BotGame) (rows_ : list BotGame) :
  (forall p, bg_id (f p) = bg_id p) ->
  map bg_id (map f rows_) = map bg_id rows_.
Proof.
  intros Hf. rewrite map_map. apply map_ext. exact Hf.
Qed.

Lemma rowsOf_elim_fold level gameId (eliminated : list Ranking) :
  forall w,
    rowsOf (fold_left (fun w' bot =>
                         botGame_update w' gameId (rk_botGameId bot)
                                        (set_eliminated level))
                      eliminated w) gameId
    = elim_rows level eliminated (rowsOf w gameId).
Proof.
  induction eliminated as [|e rest IH]; intros w; simpl; auto.
  rewrite IH, rowsOf_botGame_update. reflexivity.
Qed.

Lemma rowsOf_rerank gameId (qualified : list Ranking) :
  forall w i,
    rowsOf (rerank w gameId qualified i) gameId
    = rerank_rows qualified i (rowsOf w gameId).
Proof.
  induction qualified as [|q rest IH]; intros w i; simpl; auto.
  rewrite IH, rowsOf_botGame_update. reflexivity.
Qed.

Lemma elim_rows_map level (eliminated : list Ranking) :
  forall rows_,
    NoDup (map bg_id rows_) ->
    elim_rows level eliminated rows_
    = map (eliminate_row level eliminated) rows_.
Proof.
  unfold elim_rows.
  induction eliminated as [|e rest IH]; intros rows_ Hnd; simpl.
  - symmetry. erewrite map_ext; [apply map_id|]. reflexivity.
  - rewrite update_row_map by assumption.
    rewrite IH by (rewrite map_bg_id_preserved; auto;
                   intros p; destruct (String.eqb (bg_id p) (rk_botGameId e));
                   reflexivity).
    rewrite map_map. apply map_ext. intros p.
    unfold eliminate_row. simpl.
    destruct (String.eqb (bg_id p) (rk_botGameId e)) eqn:E; simpl; auto.
    destruct (mem (bg_id p) (map rk_botGameId rest)); reflexivity.
Qed.

Lemma rank_in_absent id (qualified : list Ranking) i :
  ~ In id (map rk_botGameId qualified) -> rank_in id qualified i = None.
Proof.
  revert i. induction qualified as [|q rest IH]; intros i Hn; simpl; auto.
  destruct (String.eqb id (rk_botGameId q)) eqn:E.
  - apply String.eqb_eq in E. exfalso. apply Hn. left. auto.
  - apply IH. intros H. apply Hn. right. exact H.
Qed.

Lemma rerank_rows_map (qualified : list Ranking) :
  forall i rows_,
    NoDup (map bg_id rows_) ->
    NoDup (map rk_botGameId qualified) ->
    rerank_rows qualified i rows_ = map (rerank_row qualified i) rows_.
Proof.
  induction qualified as [|q rest IH]; intros i rows_ Hnd Hq; simpl.
  - symmetry. erewrite map_ext; [apply map_id|]. reflexivity.
  - inversion Hq as [|? ? Hnotin Hq']; subst.
    rewrite update_row_map by assumption.
    rewrite IH; auto.
    2:{ rewrite map_bg_id_preserved; auto.
        intros p; destruct (String.eqb (bg_id p) (rk_botGameId q));
          reflexivity. }
    rewrite map_map. apply map_ext. intros p.
    unfold rerank_row. simpl.
    destruct (String.eqb (bg_id p) (rk_botGameId q)) eqn:E.
    + apply String.eqb_eq in E.
      change (bg_id (set_position (i + 1) p)) with (bg_id p).
      rewrite E, rank_in_absent by assumption. reflexivity.
    + reflexivity.
Qed.

Lemma rank_in_nth (qualified : list Ranking) :
  forall i k q,
    NoDup (map rk_botGameId qualified) ->
    nth_error qualified k = Some q ->
    rank_in (rk_botGameId q) qualified i = Some (i + Z.of_nat k + 1).
Proof.
  induction qualified as [|q0 rest IH]; intros i k q Hnd Hk;
    [destruct k; discriminate|].
  inversion Hnd as [|? ? Hnotin Hnd']; subst. simpl.
  destruct k as [|k]; simpl in Hk.
  - injection Hk as ->. rewrite String.eqb_refl. f_equal. lia.
  - destruct (String.eqb (rk_botGameId q) (rk_botGameId q0)) eqn:E.
    + apply String.eqb_eq in E. exfalso. apply Hnotin. rewrite <- E.
      apply in_map. eapply nth_error_In; eauto.
    + rewrite (IH (i + 1) k q); auto. f_equal. lia.
Qed.

Lemma filter_split_length {A : Type} (f g : A -> bool) (l : list A) :
  length (filter f l)
  = (length (filter (fun x => f x && g x) l)
     + length (filter (fun x => f x && negb (g x)) l))%nat.
Proof.
  induction l as [|a l IH]; simpl; auto.
  destruct (f a), (g a); simpl; lia.
Qed.

Lemma NoDup_map_filter {A B : Type} (h : A -> B) (f : A -> bool)
  (l : list A) :
  NoDup (map h l) -> NoDup (map h (filter f l)).
Proof.
  induction l as [|a l IH]; simpl; auto.
  intros Hnd. inversion Hnd as [|? ? Hnotin Hnd']; subst.
  destruct (f a); simpl; auto. constructor; auto.
  intros Hin. apply Hnotin. apply in_map_iff in Hin as (x & Hx & Hin).
  apply filter_In in Hin as [Hin _]. rewrite <- Hx. apply in_map, Hin.
Qed.

Lemma NoDup_app_disjoint {A : Type} (l1 l2 : list A) (a : A) :
  NoDup (l1 ++ l2) -> In a l1 -> In a l2 -> False.
Proof.
  induction l1 as [|b l1 IH]; simpl; [contradiction|].
  intros Hnd [->|Hin] H2; inversion Hnd as [|? ? Hnotin Hnd']; subst.
  - apply Hnotin, in_or_app. right. exact H2.
  - eauto.
Qed.

Lemma count_after_elimination (rows_ : list BotGame)
  (ids : list String.string) :
  NoDup (map bg_id rows_) -> NoDup ids ->
  (forall s, In s ids ->
             exists p, In p rows_ /\ bg_id p = s /\ is_active p = true) ->
  (length (filter (fun p => is_active p && negb (mem (bg_id p) ids)) rows_)
   + length ids)%nat
  = length (filter is_active rows_).
Proof.
  intros Hnd Hids Hwit.
  rewrite (filter_split_length is_active (fun p => mem (bg_id p) ids)).
  set (hit := filter (fun p => is_active p && mem (bg_id p) ids) rows_).
  assert (Hlen : length hit = length ids); [|lia].
  rewrite <- (length_map bg_id hit).
  apply Nat.le_antisymm.
  - apply NoDup_incl_length; [apply NoDup_map_filter, Hnd|].
    intros s Hs. apply in_map_iff in Hs as (p & <- & Hp).
    apply filter_In in Hp as [_ Hp]. apply andb_true_iff in Hp as [_ Hp].
    apply mem_In, Hp.
  - apply NoDup_incl_length; auto.
    intros s Hs. destruct (Hwit s Hs) as (p & Hp & <- & Hact).
    apply in_map. apply filter_In. split; auto.
    rewrite Hact. apply mem_In in Hs. rewrite Hs. reflexivity.
Qed.

Lemma activeParticipants_length w gameId :
  length (activeParticipantsOf w gameId) = survivors w gameId.
Proof.
  unfold activeParticipantsOf, survivors.
  apply Permutation_length.
  clear. generalize (rowsOf w gameId). intros l.
  assert (H : Permutation (sortBy by_position l) l)
    by apply sortBy_Permutation.
  induction H; simpl; auto.
  - destruct (is_active x); auto.
  - destruct (is_active x), (is_active y); auto. apply perm_swap.
  - eapply perm_trans; eauto.
Qed.

Lemma activeParticipants_In w gameId p :
  In p (activeParticipantsOf w gameId) <->
  In p (rowsOf w gameId) /\ is_active p = true.
Proof.
  unfold activeParticipantsOf. rewrite filter_In, sortBy_In. reflexivity.
Qed.

Lemma activeParticipants_NoDup w gameId :
  NoDup (map bg_id (rowsOf w gameId)) ->
  NoDup (map bg_id (activeParticipantsOf w gameId)).
Proof.
  intros Hnd. unfold activeParticipantsOf. apply NoDup_map_filter.
  eapply Permutation_NoDup; [|exact Hnd].
  apply Permutation_map, Permutation_sym, sortBy_Permutation.
Qed.

Lemma rankingsOf_ids w gameId gs :
  Permutation (map rk_botGameId (rankingsOf w gameId gs))
              (map bg_id (activeParticipantsOf w gameId)).
Proof.
  unfold rankingsOf.
  eapply perm_trans; [apply Permutation_map, sortBy_Permutation|].
  rewrite map_map. apply Permutation_refl.
Qed.

Lemma rankingsOf_In w gameId gs r :
  In r (rankingsOf w gameId gs) ->
  exists p, In p (rowsOf w gameId) /\ is_active p = true /\
            r = ranking_of gs p.
Proof.
  unfold rankingsOf. rewrite sortBy_In, in_map_iff.
  intros (p & <- & Hp). apply activeParticipants_In in Hp as [Hp Ha]. eauto.
Qed.

Lemma GameModel_findById_rows w gameId g :
  JsMap.get (games w) gameId = Some g ->
  GameModel_findById w gameId
  = Some (set_participants g (sortBy by_position (rowsOf w gameId))).
Proof.
  intros Hg. unfold GameModel_findById, rowsOf. rewrite Hg. reflexivity.
Qed.

Lemma eliminateBots_unfold w gameId level gs g :
  JsMap.get (activeGames w) gameId = Some gs ->
  JsMap.get (games w) gameId = Some g ->
  let rankings := rankingsOf w gameId gs in
  let E := eliminationCount level in
  0 <= E <= zlen rankings ->
  let k := Z.to_nat (zlen rankings - E) in
  eliminateBots w gameId level
  = (Ok (mkElimination (map rk_botId (firstn k rankings))
                       (map rk_botId (skipn k rankings)) rankings),
     rerank
       (fold_left (fun w' bot =>
                     botGame_update w' gameId (rk_botGameId bot)
                                    (set_eliminated level))
                  (skipn k rankings) w)
       gameId (firstn k rankings) 0).
Proof.
  intros Hgs Hg rankings E HE k. unfold eliminateBots.
  rewrite Hgs, (GameModel_findById_rows _ _ _ Hg). cbv zeta.
  cbn [participants set_participants].
  change (filter (fun p => negb (bg_eliminated p))
                 (sortBy by_position (rowsOf w gameId)))
    with (activeParticipantsOf w gameId).
  change (sortBy (fun a b => Num_leb (rk_totalTime a) (rk_totalTime b))
                 (map (ranking_of gs) (activeParticipantsOf w gameId)))
    with rankings.
  change (match ELIMINATION_MAP level with Some n => n | None => 0 end)
    with E.
  rewrite slice_front by lia. rewrite slice_back by lia.
  reflexivity.
Qed.

Lemma eliminate_row_fields level eliminated p :
  bg_id (eliminate_row level eliminated p) = bg_id p /\
  bg_botId (eliminate_row level eliminated p) = bg_botId p /\
  bg_eliminated (eliminate_row level eliminated p)
  = mem (bg_id p) (map rk_botGameId eliminated) || bg_eliminated p /\
  (mem (bg_id p) (map rk_botGameId eliminated) = true ->
   bg_eliminatedAt (eliminate_row level eliminated p) = Some level).
Proof.
  unfold eliminate_row.
  destruct (mem (bg_id p) (map rk_botGameId eliminated)); simpl; auto.
  repeat split; auto. discriminate.
Qed.

Lemma rerank_row_fields qualified i p :
  bg_id (rerank_row qualified i p) = bg_id p /\
  bg_botId (rerank_row qualified i p) = bg_botId p /\
  bg_eliminated (rerank_row qualified i p) = bg_eliminated p /\
  bg_eliminatedAt (rerank_row qualified i p) = bg_eliminatedAt p /\
  (forall r, rank_in (bg_id p) qualified i = Some r ->
             bg_position (rerank_row qualified i p) = r).
Proof.
  unfold rerank_row.
  destruct (rank_in (bg_id p) qualified i); simpl; repeat split; auto;
    congruence.
Qed.

Lemma filter_map_length {A B : Type} (f : B -> bool) (g : A -> B)
  (l : list A) :
  length (filter f (map g l)) = length (filter (fun x => f (g x)) l).
Proof.
  induction l as [|a l IH]; simpl; auto.
  destruct (f (g a)); simpl; auto.
Qed.

Section Elimination.

Variables (w : World) (gameId : String.string) (level : Z).
Variables (gs : GameState) (g : Game).
Hypothesis Hstate : JsMap.get (activeGames w) gameId = Some gs.
Hypothesis Hgame : JsMap.get (games w) gameId = Some g.
Hypothesis Hkey : NoDup (map bg_id (rowsOf w gameId)).
Hypothesis Hcount :
  eliminationCount level <= zlen (activeParticipantsOf w gameId).

Let rankings := rankingsOf w gameId gs.
Let k := Z.to_nat (zlen rankings - eliminationCount level).
Let qualified := firstn k rankings.
Let eliminated := skipn k rankings.

Lemma eliminationCount_nonneg : 0 <= eliminationCount level.
Proof.
  unfold eliminationCount, ELIMINATION_MAP.
  destruct (level =? 1); [lia|]. destruct (level =? 2); [lia|].
  destruct (level =? 3); lia.
Qed.

Lemma rankings_length : zlen rankings = zlen (activeParticipantsOf w gameId).
Proof.
  unfold rankings, rankingsOf, zlen.
  rewrite sortBy_length, length_map. reflexivity.
Qed.

Lemma rankings_split : rankings = qualified ++ eliminated.
Proof. symmetry. apply firstn_skipn. Qed.

Lemma eliminated_length : zlen eliminated = eliminationCount level.
Proof.
  pose proof eliminationCount_nonneg. pose proof rankings_length.
  unfold eliminated, zlen in *. rewrite length_skipn. unfold k, zlen. lia.
Qed.

Lemma rankings_ids_NoDup : NoDup (map rk_botGameId rankings).
Proof.
  eapply Permutation_NoDup.
  - apply Permutation_sym, rankingsOf_ids.
  - apply activeParticipants_NoDup, Hkey.
Qed.

Lemma qualified_ids_NoDup : NoDup (map rk_botGameId qualified).
Proof.
  pose proof rankings_ids_NoDup as H. rewrite rankings_split, map_app in H.
  eapply NoDup_app_remove_r; eauto.
Qed.

Lemma eliminated_ids_NoDup : NoDup (map rk_botGameId eliminated).
Proof.
  pose proof rankings_ids_NoDup as H. rewrite rankings_split, map_app in H.
  eapply NoDup_app_remove_l; eauto.
Qed.

Lemma qualified_not_eliminated q :
  In q qualified -> mem (rk_botGameId q) (map rk_botGameId eliminated) = false.
Proof.
  intros Hq. destruct (mem _ _) eqn:E; auto. apply mem_In in E.
  exfalso. pose proof rankings_ids_NoDup as H.
  rewrite rankings_split, map_app in H.
  eapply NoDup_app_disjoint; eauto. apply in_map, Hq.
Qed.

Lemma eliminateBots_result :
  eliminateBots w gameId level
  = (Ok (mkElimination (map rk_botId qualified) (map rk_botId eliminated)
                       rankings),
     rerank
       (fold_left (fun w' bot =>
                     botGame_update w' gameId (rk_botGameId bot)
                                    (set_eliminated level))
                  eliminated w)
       gameId qualified 0).
Proof.
  apply (eliminateBots_unfold w gameId level gs g Hstate Hgame).
  pose proof eliminationCount_nonneg. pose proof rankings_length.
  fold rankings. lia.
Qed.

Lemma eliminateBots_rows :
  rowsOf (snd (eliminateBots w gameId level)) gameId
  = map (fun p => rerank_row qualified 0 (eliminate_row level eliminated p))
        (rowsOf w gameId).
Proof.
  rewrite eliminateBots_result. cbn [snd].
  rewrite rowsOf_rerank, rowsOf_elim_fold.
  rewrite elim_rows_map by exact Hkey.
  rewrite rerank_rows_map.
  - apply map_map.
  - rewrite map_bg_id_preserved; auto.
    intros p. apply eliminate_row_fields.
  - apply qualified_ids_NoDup.
Qed.

Lemma eliminated_marked e :
  In e eliminated ->
  exists p, In p (rowsOf (snd (eliminateBots w gameId level)) gameId) /\
            bg_id p = rk_botGameId e /\ bg_botId p = rk_botId e /\
            bg_eliminated p = true /\ bg_eliminatedAt p = Some level.
Proof.
  intros He.
  assert (Hr : In e rankings)
    by (rewrite rankings_split; apply in_or_app; auto).
  apply rankingsOf_In in Hr as (p & Hp & Hact & ->).
  exists (rerank_row qualified 0 (eliminate_row level eliminated p)).
  rewrite eliminateBots_rows. split; [apply in_map with
    (f := fun p => rerank_row qualified 0 (eliminate_row level eliminated p));
    exact Hp|].
  destruct (rerank_row_fields qualified 0 (eliminate_row level eliminated p))
    as (-> & -> & -> & -> & _).
  destruct (eliminate_row_fields level eliminated p) as (-> & -> & -> & Hat).
  assert (Hm : mem (bg_id p) (map rk_botGameId eliminated) = true).
  { apply mem_In. change (bg_id p) with (rk_botGameId (ranking_of gs p)).
    apply in_map, He. }
  rewrite Hm. repeat split; auto.
Qed.

Lemma qualified_reranked i q :
  nth_error qualified i = Some q ->
  exists p, In p (rowsOf (snd (eliminateBots w gameId level)) gameId) /\
            bg_id p = rk_botGameId q /\ bg_botId p = rk_botId q /\
            bg_eliminated p = false /\ bg_position p = Z.of_nat i + 1.
Proof.
  intros Hi. pose proof (nth_error_In _ _ Hi) as Hq.
  assert (Hr : In q rankings)
    by (rewrite rankings_split; apply in_or_app; auto).
  apply rankingsOf_In in Hr as (p & Hp & Hact & Heq).
  exists (rerank_row qualified 0 (eliminate_row level eliminated p)).
  rewrite eliminateBots_rows. split; [apply in_map with
    (f := fun p => rerank_row qualified 0 (eliminate_row level eliminated p));
    exact Hp|].
  destruct (rerank_row_fields qualified 0 (eliminate_row level eliminated p))
    as (-> & -> & -> & _ & Hpos).
  destruct (eliminate_row_fields level eliminated p) as (Hid & -> & -> & _).
  pose proof (qualified_not_eliminated q Hq) as Hm.
  assert (Hidq : bg_id p = rk_botGameId q) by (subst q; reflexivity).
  rewrite Hidq, Hm. subst q. simpl.
  repeat split; auto.
  - unfold is_active in Hact. apply negb_true_iff in Hact. exact Hact.
  - apply Hpos. rewrite Hid.
    change (bg_id p) with (rk_botGameId (ranking_of gs p)).
    rewrite (rank_in_nth qualified 0 i (ranking_of gs p)
               qualified_ids_NoDup Hi). f_equal.
Qed.

Lemma survivors_after :
  Z.of_nat (survivors (snd (eliminateBots w gameId level)) gameId)
  = Z.of_nat (survivors w gameId) - eliminationCount level.
Proof.
  unfold survivors at 1. rewrite eliminateBots_rows, filter_map_length.
  pose proof (count_after_elimination (rowsOf w gameId)
                (map rk_botGameId eliminated) Hkey eliminated_ids_NoDup)
    as Hc.
  assert (Hwit : forall s, In s (map rk_botGameId eliminated) ->
            exists p, In p (rowsOf w gameId) /\ bg_id p = s /\
                      is_active p = true).
  { intros s Hs. apply in_map_iff in Hs as (e & <- & He).
    assert (Hr : In e rankings)
      by (rewrite rankings_split; apply in_or_app; auto).
    apply rankingsOf_In in Hr as (p & Hp & Hact & ->). eauto. }
  specialize (Hc Hwit).
  rewrite (filter_ext
             (fun p => is_active (rerank_row qualified 0
                                    (eliminate_row level eliminated p)))
             (fun p => is_active p
                       && negb (mem (bg_id p) (map rk_botGameId eliminated)))).
  - pose proof eliminated_length as He. unfold zlen in He.
    rewrite length_map in Hc. unfold survivors. lia.
  - intros p. unfold is_active.
    destruct (rerank_row_fields qualified 0 (eliminate_row level eliminated p))
      as (_ & _ & -> & _).
    destruct (eliminate_row_fields level eliminated p) as (_ & _ & -> & _).
    destruct (mem (bg_id p) (map rk_botGameId eliminated)),
      (bg_eliminated p); reflexivity.
Qed.

End Elimination.

(** ** Round completion *)

Lemma with_sentinels_get sentinel (l : list BotGame) :
  forall (m : JsMap.t Z) (k : String.string),
    JsMap.get (with_sentinels sentinel l m) k
    = match JsMap.get m k with
      | Some t => Some t
      | None => if existsb (fun p => String.eqb (bg_botId p) k) l
                then Some sentinel else None
      end.
Proof.
  unfold with_sentinels.
  induction l as [|p l IH]; intros m k; simpl.
  - destruct (JsMap.get m k); reflexivity.
  - rewrite IH. unfold JsMap.has.
    destruct (JsMap.get m (bg_botId p)) as [t|] eqn:Ep; simpl.
    + destruct (JsMap.get m k) as [t'|] eqn:Ek; auto.
      destruct (String.eqb (bg_botId p) k) eqn:E; auto.
      apply String.eqb_eq in E. congruence.
    + destruct (String.eqb (bg_botId p) k) eqn:E.
      * apply String.eqb_eq in E. subst k.
        rewrite JsMap_get_set_eq, Ep. reflexivity.
      * apply String.eqb_neq in E. rewrite JsMap_get_set_neq by assumption.
        reflexivity.
Qed.

Lemma checkLevelComplete_unfold w now gameId gs g :
  JsMap.get (activeGames w) gameId = Some gs ->
  JsMap.get (games w) gameId = Some g ->
  checkLevelComplete w now gameId
  = let active := activeParticipantsOf w gameId in
    let timedOut := now - startTime gs >=? timeLimitMs g in
    if all_finished gs active || timedOut
    then if timedOut
         then (true,
               set_gameState w gameId
                 (with_finishTimes gs
                    (with_sentinels (timeLimitMs g + 999999) active
                                    (botFinishTimes gs))))
         else (true, w)
    else (false, w).
Proof.
  intros Hgs Hg. unfold checkLevelComplete.
  rewrite Hgs, (GameModel_findById_rows _ _ _ Hg). reflexivity.
Qed.

Lemma rowsOf_set_gameState w gameId gs other :
  rowsOf (set_gameState w gameId gs) other = rowsOf w other.
Proof. reflexivity. Qed.

Lemma eliminateBots_rankings w gameId level gs g :
  JsMap.get (activeGames w) gameId = Some gs ->
  JsMap.get (games w) gameId = Some g ->
  exists r w',
    eliminateBots w gameId level = (Ok r, w') /\
    el_rankings r = rankingsOf w gameId gs.
Proof.
  intros Hgs Hg. unfold eliminateBots.
  rewrite Hgs, (GameModel_findById_rows _ _ _ Hg). cbv zeta.
  eexists _, _. split; reflexivity.
Qed.

Lemma rankingsOf_sorted w gameId gs :
  StronglySorted (fun a b => by_time a b = true) (rankingsOf w gameId gs).
Proof.
  apply sortBy_sorted.
  - intros a b. apply Num_leb_total.
  - intros a b c. apply Num_leb_trans.
Qed.

Lemma ranking_time gs p t :
  JsMap.get (botFinishTimes gs) (bg_botId p) = Some t -> t <> 0 ->
  rk_totalTime (ranking_of gs p)
  = Fin (t + bg_collisions p * COLLISION_PENALTY_SECONDS * 1000).
Proof.
  intros Ht Hne. unfold ranking_of. cbn [rk_totalTime]. rewrite Ht.
  destruct t; try congruence; reflexivity.
Qed.

Lemma ranking_time_unfinished gs p :
  JsMap.get (botFinishTimes gs) (bg_botId p) = None ->
  rk_totalTime (ranking_of gs p) = Infinity.
Proof.
  intros Ht. unfold ranking_of. cbn [rk_totalTime]. rewrite Ht. reflexivity.
Qed.

(** * The properties of the specification *)

Lemma getPathLength_cases (g : Grid) (s e : Position) :
  (findPath g s e = [] /\ getPathLength g s e = -1) \/
  (findPath g s e <> [] /\
   getPathLength g s e = zlen (findPath g s e) - 1 /\
   0 <= getPathLength g s e).
Proof.
  unfold getPathLength. destruct (findPath g s e) as [|p path] eqn:E.
  - left. split; reflexivity.
  - right. split; [discriminate|].
    replace (zlen (p :: path) >? 0) with true
      by (symmetry; apply Z.gtb_lt; unfold zlen; cbn [length]; lia).
    unfold zlen; cbn [length]. lia.
Qed.

Lemma free_grid_path (g : Grid) (R C : Z) :
  rect g R C -> 1 <= R -> 1 <= C ->
  (forall x y, cell g x y <> Some 1) ->
  getPathLength g (mkPos 0 0) (mkPos (C - 1) (R - 1)) = (C - 1) + (R - 1) /\
  hasPath g (mkPos 0 0) (mkPos (C - 1) (R - 1)) = true.
Proof.
  intros Hr HR HC Hfree.
  destruct (free_route g R C Hr HR HC Hfree) as (route & Hroute & Hlen).
  assert (Hex : exists r, Route g (mkPos 0 0) (mkPos (C - 1) (R - 1)) r)
    by (exists route; apply Walk_Route, Hroute).
  split; [|apply hasPath_iff, Hex].
  destruct (findPath_found _ _ _ Hex) as [Hfound Hmin].
  specialize (Hmin route (Walk_Route _ _ _ _ Hroute)).
  pose proof (Walk_length _ _ _ _ (Route_Walk _ _ _ _ Hfound)) as Hlow.
  assert (Hh : heuristic (mkPos 0 0) (mkPos (C - 1) (R - 1))
               = (C - 1) + (R - 1)) by (unfold heuristic; simpl; lia).
  destruct (getPathLength_cases g (mkPos 0 0) (mkPos (C - 1) (R - 1)))
    as [[Hnil _]|(_ & -> & _)].
  - rewrite Hnil in Hfound. destruct Hfound; discriminate.
  - unfold zlen in *. lia.
Qed.

(** C2. For every grid, start and goal: when a four-directional walkable
    route from start to goal exists, [findPath] returns a route from start
    to goal inclusive (consecutive cells one cardinal step apart, every
    cell walkable) with the fewest steps of all such routes; when none
    exists it returns the empty sequence. The search returns within its
    fuel. [getPathLength] is -1 exactly when no route exists, [hasPath] is
    true exactly when one exists, and on every 4 x 4 grid without obstacle
    [getPathLength] from (0,0) to (3,3) is 6 and [hasPath] is true. *)
Theorem findPath_shortest_route (g : Grid) (start end_ : Position) :
  findPath_fuel (search_fuel g) g start end_
  = Some (findPath g start end_) /\
  ((exists route, Route g start end_ route) ->
   Route g start end_ (findPath g start end_) /\
   forall route, Route g start end_ route ->
                 zlen (findPath g start end_) - 1 <= zlen route - 1) /\
  ((~ exists route, Route g start end_ route) ->
   findPath g start end_ = []) /\
  (getPathLength g start end_ = -1 <->
   ~ exists route, Route g start end_ route) /\
  (hasPath g start end_ = true <-> exists route, Route g start end_ route) /\
  (forall g4, rect g4 4 4 -> (forall x y, cell g4 x y <> Some 1) ->
              getPathLength g4 (mkPos 0 0) (mkPos 3 3) = 6 /\
              hasPath g4 (mkPos 0 0) (mkPos 3 3) = true).
Proof.
  split; [apply findPath_fuel_enough|].
  split; [|split; [|split; [|split]]].
  - intros Hex. destruct (findPath_found _ _ _ Hex) as [Hr Hmin].
    split; auto. intros route Hroute. specialize (Hmin route Hroute).
    unfold zlen. lia.
  - apply findPath_none.
  - rewrite <- findPath_none.
    destruct (getPathLength_cases g start end_)
      as [[Hnil ->]|(Hne & _ & Hpos)].
    + split; auto.
    + split; [lia | congruence].
  - apply hasPath_iff.
  - intros g4 Hr Hfree.
    apply (free_grid_path g4 4 4 Hr); auto; lia.
Qed.

Lemma findPath_shortest_route_witness :
  Route grid4 (mkPos 0 0) (mkPos 3 3) (findPath grid4 (mkPos 0 0) (mkPos 3 3))
  /\ getPathLength grid4 (mkPos 0 0) (mkPos 3 3) = 6.
Proof.
  split.
  - apply (findPath_shortest_route grid4 (mkPos 0 0) (mkPos 3 3)).
    apply hasPath_iff. vm_compute. reflexivity.
  - vm_compute. reflexivity.
Defined.

(** C3. For all [R >= 2], [C >= 2] and [N >= 0], and every sequence of
    random cells inside the grid, [generateGrid(R, C, N)] returns after at
    most [10 * N] placement attempts an [R] x [C] grid whose cell (0,0) is
    the start mark 2 and whose cell (C-1,R-1) is the goal mark 3, with at
    most [N] obstacle cells, none of them in the buffer around the start
    ([x <= 1] and [y <= 1]) or around the goal ([x >= C-2] and [y >= R-2]),
    and with a walkable route from start to goal ([hasPath] is true). *)
Theorem generateGrid_solvable (random : Z -> Z * Z) (R C N : Z) :
  2 <= R -> 2 <= C -> 0 <= N ->
  (forall i, 0 <= fst (random i) < C /\ 0 <= snd (random i) < R) ->
  exists st,
    generateGrid_run random R C N = Some st /\
    generateGrid random R C N = Some (gen_grid st) /\
    0 <= gen_attempts st <= 10 * N /\
    rect (gen_grid st) R C /\
    cell (gen_grid st) 0 0 = Some 2 /\
    cell (gen_grid st) (C - 1) (R - 1) = Some 3 /\
    count_obstacles (gen_grid st) = gen_placed st /\
    count_obstacles (gen_grid st) <= N /\
    (forall x y, cell (gen_grid st) x y = Some 1 ->
                 ~ (x <= 1 /\ y <= 1) /\ ~ (x >= C - 2 /\ y >= R - 2)) /\
    hasPath (gen_grid st) (mkPos 0 0) (mkPos (C - 1) (R - 1)) = true /\
    exists route,
      Route (gen_grid st) (mkPos 0 0) (mkPos (C - 1) (R - 1)) route.
Proof.
  intros HR HC HN _.
  assert (Hrun : generateGrid_run random R C N
                 = generateGrid_loop (Z.to_nat (N * 10)) random R C N (N * 10)
                     (mkGenState
                        (setCell
                           (setCell (repeat (repeat 0 (Z.to_nat C))
                                            (Z.to_nat R)) 0 0 2)
                           (C - 1) (R - 1) 3) 0 0)).
  { unfold generateGrid_run.
    replace ((R <? 1) || (C <? 1)) with false; [reflexivity|].
    symmetry. apply orb_false_iff. rewrite !Z.ltb_ge. lia. }
  destruct (generateGrid_loop_spec random R C N (N * 10) (Z.to_nat (N * 10))
              _ (GenInv_init R C N HR HC HN))
    as (st & Hloop & HI & Hle).
  { simpl. lia. }
  assert (Hatt : 0 <= gen_attempts st <= 10 * N).
  { split; [|simpl in Hle; lia].
    clear - Hloop HN.
    assert (Hmono : forall fuel st0 st1,
               generateGrid_loop fuel random R C N (N * 10) st0 = Some st1 ->
               gen_attempts st0 <= gen_attempts st1).
    { induction fuel as [|fuel IH]; intros st0 st1;
        rewrite generateGrid_loop_unfold;
        destruct ((gen_placed st0 <? N) && (gen_attempts st0 <? N * 10));
        try discriminate; try (intros [= ->]; lia).
      cbv zeta. destruct (random (gen_attempts st0)) as [x y].
      assert (Hstep : forall st',
                 gen_attempts st' = gen_attempts st0 + 1 ->
                 generateGrid_loop fuel random R C N (N * 10) st' = Some st1 ->
                 gen_attempts st0 <= gen_attempts st1).
      { intros st' Ha Hs. apply IH in Hs. lia. }
      destruct (cell (gen_grid st0) x y) as [[|[| |]|]|];
        try (apply Hstep; reflexivity).
      destruct (((x <=? 1) && (y <=? 1))
                || ((x >=? C - 2) && (y >=? R - 2)));
        [apply Hstep; reflexivity|].
      destruct (hasPath (setCell (gen_grid st0) x y 1) (mkPos 0 0)
                        (mkPos (C - 1) (R - 1)));
        apply Hstep; reflexivity. }
    apply Hmono in Hloop. simpl in Hloop. exact Hloop. }
  exists st. rewrite Hrun. unfold generateGrid. rewrite Hrun, Hloop.
  destruct HI as [Hr Hs He Hcnt Hpl Hbuf Hpath].
  split; [reflexivity|]. split; [reflexivity|]. split; [exact Hatt|].
  split; [exact Hr|]. split; [exact Hs|]. split; [exact He|].
  split; [exact Hcnt|]. split; [lia|]. split; [exact Hbuf|].
  split; [exact Hpath | apply hasPath_iff, Hpath].
Qed.

Lemma generateGrid_solvable_witness :
  exists st,
    generateGrid_run (fun i => (i mod 3, (i / 3) mod 3)) 3 3 2 = Some st /\
    hasPath (gen_grid st) (mkPos 0 0) (mkPos 2 2) = true.
Proof.
  destruct (generateGrid_solvable (fun i => (i mod 3, (i / 3) mod 3)) 3 3 2)
    as (st & Hrun & _ & _ & _ & _ & _ & _ & _ & _ & Hpath & _);
    try lia.
  - intros i. simpl.
    pose proof (Z.mod_pos_bound i 3). pose proof (Z.mod_pos_bound (i / 3) 3).
    lia.
  - exists st. split; assumption.
Defined.

(** ** A small match for the examples *)

Lemma demo_accepted (botId : String.string) (cur : Position) (toX toY : Z) :
  JsMap.get (botPositions demo_state) botId = Some cur ->
  JsMap.has (botFinishTimes demo_state) botId = false ->
  isValidMove cur (mkPos toX toY) = true ->
  0 <= toX < 3 -> 0 <= toY < 3 ->
  Accepted demo_world "g" botId toX toY demo_state cur demo_game.
Proof.
  intros Hcur Hfin Hadj Hx Hy. constructor; auto.
  split; assumption.
Qed.

(** ** Reachable states *)

Lemma positions_walkable_startLevel
  retries w now randoms n gameId level outcome w' :
  positions_walkable w ->
  startLevel retries w now randoms n gameId level = Some (outcome, w') ->
  positions_walkable w'.
Proof.
  intros Hok Hs.
  destruct (startLevel_spec randoms now n gameId level retries w outcome w' Hs)
    as [(e & _ & ->)|(s & gs & _ & Hget & Hw & Hpos & _ & _ & Hother)]; auto.
  intros gid gs' botId p Hgs' Hp.
  destruct (String.string_dec gid gameId) as [->|Hne].
  - rewrite Hget in Hgs'. injection Hgs' as <-.
    rewrite (Hpos botId p Hp). apply isWalkable_in_grid. exact Hw.
  - rewrite (Hother gid Hne) in Hgs'. eapply Hok; eauto.
Qed.

Lemma positions_walkable_processMove w now gameId botId toX toY :
  positions_walkable w ->
  positions_walkable (snd (processMove w now gameId botId toX toY)).
Proof.
  intros Hok.
  destruct (processMove_dichotomy w now gameId botId toX toY)
    as [(e & ->)|(gs & cur & game & Hacc)]; auto.
  destruct (processMove_state w now gameId botId toX toY gs cur game Hacc)
    as (gs1 & Hget & Hgrid & _ & Hpos & Hother).
  intros gid gs' bot p Hgs' Hp.
  destruct (String.string_dec gid gameId) as [->|Hne].
  - rewrite Hget in Hgs'. injection Hgs' as <-. rewrite Hgrid.
    destruct Hpos as [Hsame|[Hset Hfree]].
    + rewrite Hsame in Hp.
      eapply Hok; eauto. apply (acc_state _ _ _ _ _ _ _ _ Hacc).
    + rewrite Hset in Hp.
      destruct (String.string_dec bot botId) as [->|Hnb].
      * rewrite JsMap_get_set_eq in Hp. injection Hp as <-. simpl.
        split; [apply (acc_in_grid _ _ _ _ _ _ _ _ Hacc) | exact Hfree].
      * rewrite JsMap_get_set_neq in Hp by congruence.
        eapply Hok; eauto. apply (acc_state _ _ _ _ _ _ _ _ Hacc).
  - rewrite (Hother gid Hne) in Hgs'. eapply Hok; eauto.
Qed.

Lemma games_botGame_update_Some w gameId id upd other g :
  JsMap.get (games w) other = Some g ->
  exists g', JsMap.get (games (botGame_update w gameId id upd)) other
             = Some g'.
Proof.
  intros Hg. unfold botGame_update.
  destruct (JsMap.get (games w) gameId) as [g0|] eqn:E; [|eauto].
  cbn [games set_games].
  destruct (String.string_dec gameId other) as [->|Hne].
  - rewrite JsMap_get_set_eq. eauto.
  - rewrite JsMap_get_set_neq by assumption. eauto.
Qed.

Lemma JsMap_get_delete {V : Type} (m : JsMap.t V) (k k' : String.string) :
  JsMap.get (JsMap.delete m k) k'
  = if String.eqb k k' then None else JsMap.get m k'.
Proof.
  unfold JsMap.delete. induction m as [|[k0 v0] m IH]; simpl.
  - destruct (String.eqb k k'); reflexivity.
  - destruct (String.eqb k0 k) eqn:E0; simpl.
    + apply String.eqb_eq in E0. subst k0. rewrite IH.
      destruct (String.eqb k k'); reflexivity.
    + rewrite IH. destruct (String.eqb k k') eqn:E.
      * apply String.eqb_eq in E. subst k'. rewrite E0. reflexivity.
      * reflexivity.
Qed.

Lemma checkLevelComplete_world w now gameId :
  snd (checkLevelComplete w now gameId) = w \/
  exists gs finishTimes,
    JsMap.get (activeGames w) gameId = Some gs /\
    snd (checkLevelComplete w now gameId)
    = set_gameState w gameId (with_finishTimes gs finishTimes).
Proof.
  unfold checkLevelComplete.
  destruct (JsMap.get (activeGames w) gameId) as [gs|] eqn:Hgs; auto.
  destruct (GameModel_findById w gameId) as [game|]; auto.
  cbv zeta.
  match goal with
  | |- context [if ?c || ?t then _ else _] =>
      destruct c; destruct t; cbn [orb snd]; auto
  end; right; eexists _, _; split; reflexivity.
Qed.

Lemma completeGame_world w gameId winner :
  (activeGames (snd (completeGame w gameId winner)) = activeGames w \/
   activeGames (snd (completeGame w gameId winner))
   = JsMap.delete (activeGames w) gameId) /\
  forall other g,
    JsMap.get (games w) other = Some g ->
    exists g', JsMap.get (games (snd (completeGame w gameId winner))) other
               = Some g'.
Proof.
  unfold completeGame.
  destruct (GameModel_findById w gameId) as [game|]; [|split; eauto].
  cbv zeta. cbn [snd].
  assert (Hset : forall other g,
             JsMap.get (games w) other = Some g ->
             exists g', JsMap.get (games (GameModel_setWinner w gameId winner))
                                  other = Some g').
  { intros other g Hg. unfold GameModel_setWinner.
    destruct (JsMap.get (games w) gameId) as [g0|]; [|eauto].
    cbn [games set_games].
    destruct (String.string_dec gameId other) as [->|Hne].
    - rewrite JsMap_get_set_eq. eauto.
    - rewrite JsMap_get_set_neq by assumption. eauto. }
  assert (Hact : activeGames (GameModel_setWinner w gameId winner)
                 = activeGames w).
  { unfold GameModel_setWinner.
    destruct (JsMap.get (games w) gameId); reflexivity. }
  destruct (botGame_findUnique (GameModel_setWinner w gameId winner)
                               winner gameId) as [bg|].
  - split.
    + right. cbn [activeGames set_activeGames].
      rewrite activeGames_botGame_update, Hact. reflexivity.
    + intros other g Hg. cbn [games set_activeGames].
      destruct (Hset other g Hg) as [g1 Hg1].
      eapply games_botGame_update_Some. exact Hg1.
  - split.
    + right. cbn [activeGames set_activeGames]. rewrite Hact. reflexivity.
    + intros other g Hg. cbn [games set_activeGames]. eauto.
Qed.

(** C4. In every state reached by starting levels and processing moves,
    every live position lies inside the grid of its round and is not an
    obstacle cell; and a level that starts seeds every live position at the
    start cell (0,0). *)
Theorem live_positions_walkable (w : World) :
  Reachable w ->
  positions_walkable w /\
  forall retries now randoms n gameId level start_ w',
    startLevel retries w now randoms n gameId level = Some (Ok start_, w') ->
    exists gs,
      JsMap.get (activeGames w') gameId = Some gs /\
      forall botId p, JsMap.get (botPositions gs) botId = Some p ->
                      p = mkPos 0 0.
Proof.
  intros Hreach. split.
  - induction Hreach as [w Hempty|w games' Hreach IH Hkeep
                        |w retries now randoms n gameId level
                           outcome w' Hreach IH Hs
                        |w now gameId botId toX toY Hreach IH
                        |w now gameId Hreach IH
                        |w gameId winner Hreach IH].
    + intros gid gs botId p Hgs. rewrite Hempty in Hgs. discriminate.
    + exact IH.
    + eapply positions_walkable_startLevel; eauto.
    + apply positions_walkable_processMove, IH.
    + destruct (checkLevelComplete_world w now gameId)
        as [->|(gs0 & ft & Hgs0 & ->)]; auto.
      intros gid gs botId p Hgs Hp.
      destruct (String.string_dec gid gameId) as [->|Hne].
      * rewrite get_set_gameState in Hgs. injection Hgs as <-.
        exact (IH gameId gs0 botId p Hgs0 Hp).
      * rewrite get_set_gameState_other in Hgs by assumption.
        eapply IH; eauto.
    + destruct (completeGame_world w gameId winner) as [[Ha|Ha] _];
        intros gid gs botId p Hgs Hp; rewrite Ha in Hgs.
      * eapply IH; eauto.
      * rewrite JsMap_get_delete in Hgs.
        destruct (String.eqb gameId gid); [discriminate|].
        eapply IH; eauto.
  - intros retries now randoms n gameId level start_ w' Hs.
    destruct (startLevel_spec randoms now n gameId level retries w _ w' Hs)
      as [(e & He & _)|(s & gs & _ & Hget & _ & Hpos & _)];
      [discriminate|].
    exists gs. split; assumption.
Qed.

Lemma live_positions_walkable_witness :
  positions_walkable
    (snd (processMove
            (match startLevel 0 demo_boot 1000 demo_random 1 "g" 1 with
             | Some (_, w) => w
             | None => demo_boot
             end)
            1500 "g" "a" 1 0)).
Proof.
  apply live_positions_walkable.
  apply reach_processMove.
  destruct (startLevel 0 demo_boot 1000 demo_random 1 "g" 1)
    as [[outcome w]|] eqn:E.
  - eapply reach_startLevel; [|exact E]. apply reach_boot. reflexivity.
  - apply reach_boot. reflexivity.
Defined.

(** C8. A move is rejected with an error, and the world (so the whole
    round state: positions, move counters, finish times) is left as it
    was, when no round state exists for the game, when the bot is not live
    in the game, when it has already finished the round, when the
    destination is not one cardinal step from its cell, or when the
    destination is outside the grid. Submitting the same such move again,
    at any later time, is rejected again and still changes nothing. *)
Theorem processMove_rejects_unchanged
  (w : World) (now later : Z) (gameId botId : String.string) (toX toY : Z) :
  JsMap.get (activeGames w) gameId = None \/
  (exists gs,
      JsMap.get (activeGames w) gameId = Some gs /\
      (JsMap.get (botPositions gs) botId = None \/
       JsMap.has (botFinishTimes gs) botId = true \/
       (exists cur, JsMap.get (botPositions gs) botId = Some cur /\
                    isValidMove cur (mkPos toX toY) = false) \/
       out_of_grid (grid gs) toX toY)) ->
  (exists e, processMove w now gameId botId toX toY = (Err e, w)) /\
  (exists e,
      processMove (snd (processMove w now gameId botId toX toY)) later
                  gameId botId toX toY = (Err e, w)).
Proof.
  intros H.
  destruct (processMove_rejections w now gameId botId toX toY H) as [e He].
  destruct (processMove_rejections w later gameId botId toX toY H) as [e' He'].
  split; [eauto|]. rewrite He. cbn [snd]. eauto.
Qed.

Lemma processMove_rejects_unchanged_witness :
  (exists e, processMove demo_world 2000 "g" "a" 2 2 = (Err e, demo_world)) /\
  (exists e,
      processMove (snd (processMove demo_world 2000 "g" "a" 2 2)) 3000
                  "g" "a" 2 2 = (Err e, demo_world)).
Proof.
  apply (processMove_rejects_unchanged demo_world 2000 3000 "g" "a" 2 2).
  right. exists demo_state. split; [reflexivity|].
  right; right; left. exists (mkPos 0 0). split; reflexivity.
Defined.

Lemma games_updateStatus_Some w gameId st level other g :
  JsMap.get (games w) other = Some g ->
  exists g', JsMap.get (games (GameModel_updateStatus w gameId st level)) other
             = Some g'.
Proof.
  intros Hg. unfold GameModel_updateStatus.
  destruct (JsMap.get (games w) gameId) as [g0|] eqn:E; [|eauto].
  cbn [games set_games].
  destruct (String.string_dec gameId other) as [->|Hne].
  - rewrite JsMap_get_set_eq. eauto.
  - rewrite JsMap_get_set_neq by assumption. eauto.
Qed.

Lemma GameModel_findById_Some w gameId :
  (exists g, JsMap.get (games w) gameId = Some g) <->
  (exists game, GameModel_findById w gameId = Some game).
Proof.
  unfold GameModel_findById.
  destruct (JsMap.get (games w) gameId); split; intros [x H]; eauto;
    discriminate.
Qed.

Lemma startLevel_games (randoms : nat -> Z -> Z * Z) now n gameId level :
  forall retries w outcome w',
    startLevel retries w now randoms n gameId level = Some (outcome, w') ->
    w' = w \/
    ((exists game, GameModel_findById w gameId = Some game) /\
     exists gs,
       w' = GameModel_updateStatus (set_gameState w gameId gs) gameId
                                   (statusMap level) level).
Proof.
  induction retries as [|retries IH]; intros w outcome w'; cbn [startLevel];
    (destruct (GameModel_findById w gameId) as [game|] eqn:Eg;
     [|intros [= <- <-]; left; reflexivity]);
    match goal with
    | |- context [generateGrid ?r ?a ?b ?c] =>
        destruct (generateGrid r a b c) as [g|]; [|discriminate]
    end;
    match goal with
    | |- context [findPath ?g ?s ?e] =>
        destruct (zlen (findPath g s e) =? 0) eqn:Ep
    end; try discriminate.
  - intros [= <- <-]. right. split; [eauto|]. eexists. reflexivity.
  - intros H. destruct (IH _ _ _ H) as [->|[_ Hw]]; auto.
    right. split; eauto.
  - intros [= <- <-]. right. split; [eauto|]. eexists. reflexivity.
Qed.

Lemma Reachable_store_consistent (w : World) :
  Reachable w -> store_consistent w.
Proof.
  induction 1 as [w Hempty|w games' Hreach IH Hkeep
                 |w retries now randoms n gameId level
                    outcome w' Hreach IH Hs
                 |w now gameId botId toX toY Hreach IH
                 |w now gameId Hreach IH
                 |w gameId winner Hreach IH].
  - intros gid gs Hgs. rewrite Hempty in Hgs. discriminate.
  - intros gid gs Hgs. destruct (IH gid gs Hgs) as [g Hg].
    apply (Hkeep gid g Hg).
  - destruct (startLevel_games randoms now n gameId level _ _ _ _ Hs)
      as [->|[Hgame [gs0 ->]]]; auto.
    intros gid gs Hgs. rewrite activeGames_updateStatus in Hgs.
    destruct (String.string_dec gid gameId) as [->|Hne].
    + apply GameModel_findById_Some in Hgame as [g Hg].
      eapply games_updateStatus_Some. exact Hg.
    + rewrite get_set_gameState_other in Hgs by assumption.
      destruct (IH gid gs Hgs) as [g Hg].
      eapply games_updateStatus_Some. exact Hg.
  - destruct (processMove_dichotomy w now gameId botId toX toY)
      as [(e & ->)|(gs0 & cur & game & Hacc)]; auto.
    intros gid gs Hgs.
    assert (Hold : exists g, JsMap.get (games w) gid = Some g).
    { destruct (String.string_dec gid gameId) as [->|Hne].
      - apply GameModel_findById_Some. exists game.
        apply (acc_game _ _ _ _ _ _ _ _ Hacc).
      - destruct (processMove_state w now gameId botId toX toY _ _ _ Hacc)
          as (_ & _ & _ & _ & _ & Hother).
        rewrite (Hother gid Hne) in Hgs. eapply IH; eauto. }
    destruct Hold as [g Hg]. clear Hgs.
    assert (Hcase : cell (grid gs0) toX toY = Some 1 \/
                    cell (grid gs0) toX toY <> Some 1).
    { destruct (cell (grid gs0) toX toY) as [v|]; [|right; discriminate].
      destruct (Z.eq_dec v 1); [left | right]; congruence. }
    destruct Hcase as [Hc|Hc].
    + destruct (botGame_findUnique w botId gameId) as [bg|] eqn:Hbg.
      * rewrite (processMove_collision _ now _ _ _ _ _ _ _ _ Hacc Hc Hbg).
        cbn [snd add_move games].
        eapply (games_botGame_update_Some
                  (set_gameState w gameId (counted gs0 botId))). exact Hg.
      * rewrite (processMove_collision_stranger _ now _ _ _ _ _ _ _
                   Hacc Hc Hbg). eauto.
    + destruct (checkBotCollision (blockers gs0) botId (mkPos toX toY))
        as [blocker|] eqn:Hb.
      * rewrite (processMove_blocked _ now _ _ _ _ _ _ _ _ Hacc Hc Hb). eauto.
      * clear - Hacc Hc Hb Hg. revert Hg.
        pose proof Hacc as Hacc'. revert Hacc'. enter_move Hacc.
        rewrite (checkObstacleCollision_in_grid _ _ _
                   (acc_in_grid _ _ _ _ _ _ _ _ Hacc)).
        replace (match cell (grid gs0) toX toY with
                 | Some 1 => true | _ => false end) with false
          by (destruct (cell (grid gs0) toX toY) as [[|[| |]|]|]; congruence).
        fold (blockers gs0). rewrite Hb. intros _ Hg.
        match goal with
        | |- context [if ?c then _ else _] => destruct c
        end; cbn [snd]; [|eauto].
        match goal with
        | |- context [botGame_findUnique ?w4 botId gameId] =>
            destruct (botGame_findUnique w4 botId gameId) as [bg|]
        end; [|eauto].
        eapply games_botGame_update_Some. exact Hg.
  - destruct (checkLevelComplete_world w now gameId)
      as [->|(gs0 & ft & Hgs0 & ->)]; auto.
    intros gid gs Hgs.
    destruct (String.string_dec gid gameId) as [->|Hne].
    + eapply IH; eauto.
    + rewrite get_set_gameState_other in Hgs by assumption.
      eapply IH; eauto.
  - destruct (completeGame_world w gameId winner) as [Hact Hkeep].
    intros gid gs Hgs.
    assert (Hold : exists gs0, JsMap.get (activeGames w) gid = Some gs0).
    { destruct Hact as [Ha|Ha]; rewrite Ha in Hgs; [eauto|].
      rewrite JsMap_get_delete in Hgs.
      destruct (String.eqb gameId gid); [discriminate | eauto]. }
    destruct Hold as [gs0 Hgs0]. destruct (IH gid gs0 Hgs0) as [g Hg].
    eapply Hkeep; eauto.
Qed.

Lemma Reachable_accepted
  (w : World) (gameId botId : String.string) (toX toY : Z)
  (gs : GameState) (cur : Position) :
  Reachable w ->
  JsMap.get (activeGames w) gameId = Some gs ->
  JsMap.get (botPositions gs) botId = Some cur ->
  JsMap.has (botFinishTimes gs) botId = false ->
  isValidMove cur (mkPos toX toY) = true ->
  in_grid (grid gs) toX toY ->
  exists game, Accepted w gameId botId toX toY gs cur game.
Proof.
  intros Hreach Hgs Hcur Hfin Hadj Hin.
  destruct (Reachable_store_consistent w Hreach gameId gs Hgs) as [g Hg].
  assert (Hgame : exists game, GameModel_findById w gameId = Some game)
    by (apply GameModel_findById_Some; eauto).
  destruct Hgame as [game Hgame].
  exists game. constructor; assumption.
Qed.

Lemma demo_started_reachable : Reachable demo_started.
Proof.
  unfold demo_started.
  destruct (startLevel 0 demo_boot 1000 demo_random 1 "g" 1)
    as [[outcome w]|] eqn:E.
  - eapply reach_startLevel; [|exact E]. apply reach_boot. reflexivity.
  - apply reach_boot. reflexivity.
Qed.

Lemma demo_moved_reachable : Reachable demo_moved.
Proof. apply reach_processMove, demo_started_reachable. Qed.

(** C7. In every reachable state, when a move of a live, unfinished bot
    to a cell one cardinal step away and inside the grid targets an
    obstacle cell, and the record store has the row of the participant
    (rows having distinct ids), [processMove] reports a collision with the
    fixed 10-second penalty and the incremented collision count, returns
    the current cell as the position, leaves the position map and the
    finish-time map as they were, raises the collision counter of the
    participant by exactly one and leaves the counters of the others, and
    appends one move record flagged as a collision. *)
Theorem processMove_obstacle_collision
  (w : World) (now : Z) (gameId botId : String.string) (toX toY : Z)
  (gs : GameState) (cur : Position) (bg : BotGame) :
  Reachable w ->
  JsMap.get (activeGames w) gameId = Some gs ->
  JsMap.get (botPositions gs) botId = Some cur ->
  JsMap.has (botFinishTimes gs) botId = false ->
  isValidMove cur (mkPos toX toY) = true ->
  in_grid (grid gs) toX toY ->
  cell (grid gs) toX toY = Some 1 ->
  botGame_findUnique w botId gameId = Some bg ->
  unique_ids w gameId ->
  exists w' gs' game,
    processMove w now gameId botId toX toY
    = (Ok (Collided 10 (bg_collisions bg + 1) cur
                    (orElse (JsMap.get (moveCounters gs) botId) 0 + 1)),
       w') /\
    JsMap.get (activeGames w') gameId = Some gs' /\
    botPositions gs' = botPositions gs /\
    JsMap.get (botPositions gs') botId = Some cur /\
    botFinishTimes gs' = botFinishTimes gs /\
    grid gs' = grid gs /\
    (exists bg',
        botGame_findUnique w' botId gameId = Some bg' /\
        bg_collisions bg' = bg_collisions bg + 1) /\
    (forall other, other <> botId ->
                   botGame_findUnique w' other gameId
                   = botGame_findUnique w other gameId) /\
    GameModel_findById w gameId = Some game /\
    moves w'
    = moves w ++ [mkMove gameId botId (currentLevel game)
                         (pos_x cur) (pos_y cur) toX toY
                         (orElse (JsMap.get (moveCounters gs) botId) 0 + 1)
                         true].
Proof.
  intros Hreach Hgs Hcur Hfin Hadj Hin Hc Hbg Hkey.
  destruct (Reachable_accepted w gameId botId toX toY gs cur
              Hreach Hgs Hcur Hfin Hadj Hin) as [game Hacc].
  rewrite (processMove_collision _ now _ _ _ _ _ _ _ _ Hacc Hc Hbg).
  eexists _, (counted gs botId), game. split; [reflexivity|].
  assert (Hkey1 : unique_ids (set_gameState w gameId (counted gs botId))
                             gameId) by exact Hkey.
  assert (Hbg1 : botGame_findUnique (set_gameState w gameId (counted gs botId))
                                    botId gameId = Some bg) by exact Hbg.
  split; [|split; [|split; [|split; [|split; [|split; [|split; [|split]]]]]]].
  - cbn [add_move activeGames]. rewrite activeGames_botGame_update.
    apply get_set_gameState.
  - reflexivity.
  - exact Hcur.
  - reflexivity.
  - reflexivity.
  - exists (incr_collisions bg). split; [|reflexivity].
    change (botGame_findUnique (add_move ?x ?m) botId gameId)
      with (botGame_findUnique x botId gameId).
    apply botGame_findUnique_update; auto.
  - intros other Hne.
    change (botGame_findUnique (add_move ?x ?m) other gameId)
      with (botGame_findUnique x other gameId).
    rewrite (botGame_findUnique_update_other _ _ botId other bg); auto.
  - apply (acc_game _ _ _ _ _ _ _ _ Hacc).
  - cbn [add_move moves]. rewrite moves_botGame_update. reflexivity.
Qed.

Lemma processMove_obstacle_collision_witness :
  exists w' gs' game,
    processMove demo_moved 1600 "g" "a" 2 0
    = (Ok (Collided 10 1 (mkPos 1 0) 2), w') /\
    JsMap.get (activeGames w') "g" = Some gs' /\
    JsMap.get (botPositions gs') "a" = Some (mkPos 1 0) /\
    GameModel_findById demo_moved "g" = Some game.
Proof.
  assert (Hgs : exists gs,
             JsMap.get (activeGames demo_moved) "g" = Some gs /\
             JsMap.get (botPositions gs) "a" = Some (mkPos 1 0) /\
             JsMap.has (botFinishTimes gs) "a" = false /\
             in_grid (grid gs) 2 0 /\
             cell (grid gs) 2 0 = Some 1 /\
             orElse (JsMap.get (moveCounters gs) "a") 0 + 1 = 2).
  { eexists. split; [vm_compute; reflexivity|].
    split; [vm_compute; reflexivity|]. split; [vm_compute; reflexivity|].
    split; [|split; vm_compute; reflexivity].
    unfold in_grid. vm_compute. intuition discriminate. }
  destruct Hgs as (gs & Hget & Hcur & Hfin & Hin & Hcell & Htwo).
  destruct (processMove_obstacle_collision demo_moved 1600 "g" "a" 2 0
              gs (mkPos 1 0) (demo_row "r1" "a" 1 0))
    as (w' & gs' & game & Heq & Hget' & _ & Hpos & _ & _ & _ & _ & Hgame & _);
    auto.
  - apply demo_moved_reachable.
  - intros g Hg. vm_compute in Hg. injection Hg as <-. simpl.
    repeat constructor; simpl; intuition discriminate.
  - exists w', gs', game. rewrite Htwo in Heq. repeat split; assumption.
Defined.

(** C10. In every state reached by starting levels and processing moves,
    every call of [processMove] that passes the checks (the round state
    exists, the bot is live and has not finished, the destination is one
    cardinal step away and inside the grid) raises the move counter of the
    submitting bot by exactly one, whatever the call ends in: an obstacle
    collision (or a failure of its bookkeeping), an agent block or an
    advance. The counters of the other bots stay as they were. *)
Theorem processMove_counts_attempts
  (w : World) (now : Z) (gameId botId : String.string) (toX toY : Z)
  (gs : GameState) (cur : Position) :
  Reachable w ->
  JsMap.get (activeGames w) gameId = Some gs ->
  JsMap.get (botPositions gs) botId = Some cur ->
  JsMap.has (botFinishTimes gs) botId = false ->
  isValidMove cur (mkPos toX toY) = true ->
  in_grid (grid gs) toX toY ->
  exists gs',
    JsMap.get (activeGames (snd (processMove w now gameId botId toX toY)))
              gameId = Some gs' /\
    JsMap.get (moveCounters gs') botId
    = Some (orElse (JsMap.get (moveCounters gs) botId) 0 + 1) /\
    (forall other, other <> botId ->
                   JsMap.get (moveCounters gs') other
                   = JsMap.get (moveCounters gs) other) /\
    (cell (grid gs) toX toY = Some 1 ->
     (exists penalty collisions,
         fst (processMove w now gameId botId toX toY)
         = Ok (Collided penalty collisions cur (next_moveNumber gs botId))) \/
     fst (processMove w now gameId botId toX toY) = Err NotParticipant) /\
    (forall blocker,
        cell (grid gs) toX toY <> Some 1 ->
        checkBotCollision (blockers gs) botId (mkPos toX toY) = Some blocker ->
        fst (processMove w now gameId botId toX toY)
        = Ok (Blocked blocker cur (next_moveNumber gs botId))).
Proof.
  intros Hreach Hgs Hcur Hfin Hadj Hin.
  destruct (Reachable_store_consistent w Hreach gameId gs Hgs) as [g Hg].
  assert (Hgame : exists game, GameModel_findById w gameId = Some game)
    by (apply GameModel_findById_Some; eauto).
  destruct Hgame as [game Hgame].
  assert (Hacc : Accepted w gameId botId toX toY gs cur game)
    by (constructor; assumption).
  destruct (processMove_state w now gameId botId toX toY gs cur game Hacc)
    as (gs' & Hget & _ & Hcnt & _ & _).
  exists gs'. split; [exact Hget|]. rewrite Hcnt.
  split; [apply JsMap_get_set_eq|].
  split; [intros other Hne; apply JsMap_get_set_neq; congruence|].
  split.
  - intros Hc.
    destruct (botGame_findUnique w botId gameId) as [bg|] eqn:Hbg.
    + rewrite (processMove_collision _ now _ _ _ _ _ _ _ _ Hacc Hc Hbg).
      left. eexists _, _. reflexivity.
    + rewrite (processMove_collision_stranger _ now _ _ _ _ _ _ _ Hacc Hc Hbg).
      right. reflexivity.
  - intros blocker Hc Hb.
    rewrite (processMove_blocked _ now _ _ _ _ _ _ _ _ Hacc Hc Hb).
    reflexivity.
Qed.

Lemma processMove_counts_attempts_witness :
  exists gs gs',
    JsMap.get (activeGames demo_started) "g" = Some gs /\
    JsMap.get (activeGames (snd (processMove demo_started 2000 "g" "a" 0 1)))
              "g" = Some gs' /\
    JsMap.get (moveCounters gs') "a" = Some 1.
Proof.
  assert (Hgs : exists gs,
             JsMap.get (activeGames demo_started) "g" = Some gs /\
             JsMap.get (botPositions gs) "a" = Some (mkPos 0 0) /\
             JsMap.has (botFinishTimes gs) "a" = false /\
             in_grid (grid gs) 0 1 /\
             orElse (JsMap.get (moveCounters gs) "a") 0 + 1 = 1).
  { eexists. split; [vm_compute; reflexivity|].
    split; [vm_compute; reflexivity|]. split; [vm_compute; reflexivity|].
    split; [|vm_compute; reflexivity].
    unfold in_grid. vm_compute. intuition discriminate. }
  destruct Hgs as (gs & Hget & Hcur & Hfin & Hin & Hone).
  destruct (processMove_counts_attempts demo_started 2000 "g" "a" 0 1
              gs (mkPos 0 0))
    as (gs' & Hget' & Hcnt & _); auto.
  - apply demo_started_reachable.
  - exists gs, gs'. rewrite Hone in Hcnt. repeat split; assumption.
Defined.

(** C6 as stated fails: a blocked move does change the round state. Bot b
    steps towards the cell of the unfinished bot a; the move is blocked,
    and the move counter of b has gone from 0 to 1. *)
Lemma blocked_move_raises_counter :
  fst (processMove demo_moved 1600 "g" "b" 1 0)
  = Ok (Blocked "a" (mkPos 0 0) 1) /\
  option_map moveCounters
    (JsMap.get (activeGames (snd (processMove demo_moved 1600 "g" "b" 1 0)))
               "g")
  <> option_map moveCounters (JsMap.get (activeGames demo_moved) "g").
Proof. split; [vm_compute; reflexivity | vm_compute; discriminate]. Qed.

(** C6, amended. In every reachable state, for a move that passes the
    adjacency, boundary and obstacle checks: when the destination is the
    cell of a different bot without a finish time, [processMove] answers
    "blocked" by such a bot, and nothing changes but the move counter of
    the submitting bot, which goes up by one: the position map, the
    finish-time map, the grid, the record store (so every collision count)
    and the move log are as before. When every other bot on the destination
    has a finish time, the move is not blocked: the bot advances to the
    destination. *)
Theorem processMove_agent_block
  (w : World) (now : Z) (gameId botId : String.string) (toX toY : Z)
  (gs : GameState) (cur : Position) :
  Reachable w ->
  JsMap.get (activeGames w) gameId = Some gs ->
  JsMap.get (botPositions gs) botId = Some cur ->
  JsMap.has (botFinishTimes gs) botId = false ->
  isValidMove cur (mkPos toX toY) = true ->
  in_grid (grid gs) toX toY ->
  cell (grid gs) toX toY <> Some 1 ->
  ((exists other,
       other <> botId /\
       JsMap.get (botPositions gs) other = Some (mkPos toX toY) /\
       JsMap.has (botFinishTimes gs) other = false) ->
   exists blocker w' gs',
     processMove w now gameId botId toX toY
     = (Ok (Blocked blocker cur
                    (orElse (JsMap.get (moveCounters gs) botId) 0 + 1)), w') /\
     blocker <> botId /\
     In (blocker, mkPos toX toY) (JsMap.entries (botPositions gs)) /\
     JsMap.has (botFinishTimes gs) blocker = false /\
     JsMap.get (activeGames w') gameId = Some gs' /\
     botPositions gs' = botPositions gs /\
     botFinishTimes gs' = botFinishTimes gs /\
     grid gs' = grid gs /\
     endPosition gs' = endPosition gs /\
     startTime gs' = startTime gs /\
     moveCounters gs'
     = JsMap.set (moveCounters gs) botId
                 (orElse (JsMap.get (moveCounters gs) botId) 0 + 1) /\
     games w' = games w /\
     moves w' = moves w /\
     forall other, other <> gameId ->
                   JsMap.get (activeGames w') other
                   = JsMap.get (activeGames w) other) /\
  ((forall other,
       other <> botId ->
       In (other, mkPos toX toY) (JsMap.entries (botPositions gs)) ->
       JsMap.has (botFinishTimes gs) other = true) ->
   exists finished finishTime w' gs',
     processMove w now gameId botId toX toY
     = (Ok (Moved (mkPos toX toY)
                  (orElse (JsMap.get (moveCounters gs) botId) 0 + 1)
                  finished finishTime), w') /\
     JsMap.get (activeGames w') gameId = Some gs' /\
     JsMap.get (botPositions gs') botId = Some (mkPos toX toY)).
Proof.
  intros Hreach Hgs Hcur Hfin Hadj Hin Hc.
  destruct (Reachable_accepted w gameId botId toX toY gs cur
              Hreach Hgs Hcur Hfin Hadj Hin) as [game Hacc].
  split.
  - intros (other & Hne & Hpos & Hunf).
    destruct (checkBotCollision (blockers gs) botId (mkPos toX toY))
      as [blocker|] eqn:Hb.
    + destruct (checkBotCollision_Some _ _ _ _ Hb) as [Hbne Hbin].
      apply In_blockers in Hbin as [Hentry Hbunf].
      rewrite (processMove_blocked _ now _ _ _ _ _ _ _ _ Hacc Hc Hb).
      exists blocker. eexists _, (counted gs botId).
      split; [reflexivity|].
      repeat (split; [first [assumption | reflexivity
                            | apply get_set_gameState]|]).
      intros o Ho. apply get_set_gameState_other, Ho.
    + exfalso. apply Hne.
      apply (checkBotCollision_None _ _ _ Hb other).
      apply In_blockers. split; auto. apply JsMap_get_In, Hpos.
  - intros Hfree.
    assert (Hb : checkBotCollision (blockers gs) botId (mkPos toX toY) = None).
    { destruct (checkBotCollision (blockers gs) botId (mkPos toX toY))
        as [blocker|] eqn:Hb; auto.
      destruct (checkBotCollision_Some _ _ _ _ Hb) as [Hbne Hbin].
      apply In_blockers in Hbin as [Hentry Hbunf].
      rewrite (Hfree blocker Hbne Hentry) in Hbunf. discriminate. }
    destruct (processMove_moved _ now _ _ _ _ _ _ _ Hacc Hc Hb)
      as (result & w' & Heq & Hst & _).
    destruct Hst as [(_ & -> & Hget)|(_ & -> & Hget)];
      eexists _, _, w', _; (split; [exact Heq|]);
      (split; [exact Hget|]); apply JsMap_get_set_eq.
Qed.

Lemma processMove_agent_block_witness :
  exists blocker w',
    processMove demo_moved 1600 "g" "b" 1 0
    = (Ok (Blocked blocker (mkPos 0 0) 1), w') /\
    games w' = games demo_moved.
Proof.
  assert (Hgs : exists gs,
             JsMap.get (activeGames demo_moved) "g" = Some gs /\
             JsMap.get (botPositions gs) "b" = Some (mkPos 0 0) /\
             JsMap.has (botFinishTimes gs) "b" = false /\
             JsMap.get (botPositions gs) "a" = Some (mkPos 1 0) /\
             JsMap.has (botFinishTimes gs) "a" = false /\
             cell (grid gs) 1 0 = Some 0 /\
             orElse (JsMap.get (moveCounters gs) "b") 0 + 1 = 1 /\
             in_grid (grid gs) 1 0).
  { eexists. repeat (split; [vm_compute; reflexivity|]).
    unfold in_grid. vm_compute. intuition discriminate. }
  destruct Hgs as (gs & Hget & Hcur & Hfin & Ha & Hafin & Hcell & Hone & Hin).
  destruct (processMove_agent_block demo_moved 1600 "g" "b" 1 0
              gs (mkPos 0 0)) as [Hblocked _]; auto.
  - apply demo_moved_reachable.
  - congruence.
  - destruct Hblocked as (blocker & w' & gs' & Heq & _ & _ & _ & _ & _ & _
                          & _ & _ & _ & _ & Hgames & _).
    + exists "a"%string. split; [discriminate|]. split; assumption.
    + exists blocker, w'. rewrite Hone in Heq. split; assumption.
Defined.

(** C5 at the timeout of this match: the unfinished bot u does not rank
    last. Its ranking time is 60000 + 999999 = 1059999, and the ranking
    time of p, who finished, is 50000 + 101 * 10000 = 1060000. *)
Lemma timed_out_bot_outranks_finisher :
  fst (checkLevelComplete timeout_world 60000 "g") = true /\
  exists r w',
    eliminateBots (snd (checkLevelComplete timeout_world 60000 "g")) "g" 1
    = (Ok r, w') /\
    map rk_botId (el_rankings r) = ["u"; "p"]%string.
Proof.
  split; [vm_compute; reflexivity|].
  eexists _, _. split; vm_compute; reflexivity.
Qed.

(** Round completion, and how far the sentinel reaches.
    [checkLevelComplete] returns true exactly when every
    non-eliminated participant has a finish time for the round or the time
    since the round start has reached the time budget. Before the budget is
    reached it changes nothing. Once it is reached, every non-eliminated
    participant without a finish time gets the sentinel (the budget in ms
    plus 999999) and the finish times already recorded stay; in the
    elimination that follows, such a participant ranks after every
    participant who finished within the budget and has at most 99
    collisions more than it (a collision adds 10000 ms to the ranking
    time, so 100 collisions more outweigh the sentinel). *)
Theorem checkLevelComplete_timeout
  (w : World) (now : Z) (gameId : String.string) (gs : GameState) (g : Game) :
  JsMap.get (activeGames w) gameId = Some gs ->
  JsMap.get (games w) gameId = Some g ->
  let active := activeParticipantsOf w gameId in
  let limit := timeLimit (arena g) * 1000 in
  let elapsed := now - startTime gs in
  let w' := snd (checkLevelComplete w now gameId) in
  (fst (checkLevelComplete w now gameId) = true <->
   (forall p, In p active ->
              JsMap.has (botFinishTimes gs) (bg_botId p) = true) \/
   limit <= elapsed) /\
  (elapsed < limit -> w' = w) /\
  (limit <= elapsed ->
   exists gs',
     JsMap.get (activeGames w') gameId = Some gs' /\
     games w' = games w /\ moves w' = moves w /\
     grid gs' = grid gs /\ botPositions gs' = botPositions gs /\
     moveCounters gs' = moveCounters gs /\
     (forall p t, JsMap.get (botFinishTimes gs) (bg_botId p) = Some t ->
                  JsMap.get (botFinishTimes gs') (bg_botId p) = Some t) /\
     (forall u, In u active ->
                JsMap.get (botFinishTimes gs) (bg_botId u) = None ->
                JsMap.get (botFinishTimes gs') (bg_botId u)
                = Some (limit + 999999)) /\
     (forall p u t level,
         In p active -> In u active ->
         JsMap.get (botFinishTimes gs) (bg_botId p) = Some t ->
         0 < t <= limit ->
         JsMap.get (botFinishTimes gs) (bg_botId u) = None ->
         bg_collisions p <= bg_collisions u + 99 ->
         exists r w'' before between after,
           eliminateBots w' gameId level = (Ok r, w'') /\
           el_rankings r
           = before ++ ranking_of gs' p :: between
                    ++ ranking_of gs' u :: after)).
Proof.
  intros Hgs Hg active limit elapsed w'. unfold w'.
  rewrite (checkLevelComplete_unfold w now gameId gs g Hgs Hg). cbv zeta.
  fold active. change (timeLimitMs g) with limit.
  change (now - startTime gs) with elapsed.
  assert (Hall : all_finished gs active = true <->
                 forall p, In p active ->
                           JsMap.has (botFinishTimes gs) (bg_botId p) = true).
  { unfold all_finished. apply forallb_forall. }
  destruct (elapsed >=? limit) eqn:Et.
  - apply Z.geb_le in Et. rewrite orb_true_r. cbn [fst snd].
    split; [split; auto|]. split; [lia|]. intros _.
    set (gs' := with_finishTimes gs
                  (with_sentinels (limit + 999999) active (botFinishTimes gs))).
    assert (Hkeep : forall p t,
               JsMap.get (botFinishTimes gs) (bg_botId p) = Some t ->
               JsMap.get (botFinishTimes gs') (bg_botId p) = Some t).
    { intros p t Ht. unfold gs'. cbn [botFinishTimes with_finishTimes].
      rewrite with_sentinels_get, Ht. reflexivity. }
    assert (Hsent : forall u, In u active ->
               JsMap.get (botFinishTimes gs) (bg_botId u) = None ->
               JsMap.get (botFinishTimes gs') (bg_botId u)
               = Some (limit + 999999)).
    { intros u Hu Hn. unfold gs'. cbn [botFinishTimes with_finishTimes].
      rewrite with_sentinels_get, Hn.
      replace (existsb (fun p => String.eqb (bg_botId p) (bg_botId u)) active)
        with true; auto.
      symmetry. apply existsb_exists. exists u. split; auto.
      apply String.eqb_refl. }
    exists gs'. split; [apply get_set_gameState|].
    repeat (split; [first [reflexivity | assumption]|]).
    intros p u t level Hp Hu Ht Htr Hn Hcol.
    destruct (eliminateBots_rankings (set_gameState w gameId gs') gameId level
                gs' g (get_set_gameState _ _ _) Hg)
      as (r & w'' & Heq & Hrank).
    exists r, w''. rewrite Hrank.
    change (rankingsOf (set_gameState w gameId gs') gameId gs')
      with (rankingsOf w gameId gs').
    assert (Htp : rk_totalTime (ranking_of gs' p)
                  = Fin (t + bg_collisions p * COLLISION_PENALTY_SECONDS * 1000))
      by (apply ranking_time; [apply Hkeep, Ht | lia]).
    assert (Htu : rk_totalTime (ranking_of gs' u)
                  = Fin (limit + 999999
                         + bg_collisions u * COLLISION_PENALTY_SECONDS * 1000)).
    { apply ranking_time; [apply Hsent; assumption|]. unfold limit. lia. }
    assert (Hnle : by_time (ranking_of gs' u) (ranking_of gs' p) <> true).
    { unfold by_time. rewrite Htp, Htu. simpl. rewrite Z.leb_le.
      unfold COLLISION_PENALTY_SECONDS. lia. }
    destruct (sorted_before (fun a b => by_time a b = true)
                (rankingsOf w gameId gs') (ranking_of gs' p) (ranking_of gs' u))
      as (l1 & l2 & l3 & Hsplit); auto.
    + apply rankingsOf_sorted.
    + unfold rankingsOf. apply sortBy_In, in_map, Hp.
    + unfold rankingsOf. apply sortBy_In, in_map, Hu.
    + intros Heq'. apply Hnle. rewrite <- Heq'. unfold by_time.
      destruct (Num_leb_total (rk_totalTime (ranking_of gs' p))
                              (rk_totalTime (ranking_of gs' p))); auto.
    + exists l1, l2, l3. split; [exact Heq | exact Hsplit].
  - rewrite Z.geb_leb in Et. apply Z.leb_gt in Et. rewrite orb_false_r.
    destruct (all_finished gs active) eqn:Ea; cbn [fst snd].
    + split; [split; auto; intros _; left; apply Hall; reflexivity|].
      split; [reflexivity | lia].
    + split; [|split; [reflexivity | lia]].
      split; [discriminate|]. intros [H|H]; [|lia].
      apply Hall in H. congruence.
Qed.

Lemma checkLevelComplete_timeout_witness :
  fst (checkLevelComplete demo_world 61000 "g") = true.
Proof.
  apply (checkLevelComplete_timeout demo_world 61000 "g" demo_state demo_game);
    try reflexivity.
  right. vm_compute. discriminate.
Defined.

(** C1 as stated fails for a pool smaller than the elimination count:
    with three participants left, round 2 (count 4) eliminates one of them
    and keeps two. *)
Lemma eliminateBots_small_pool :
  exists r w',
    eliminateBots demo_world "g" 2 = (Ok r, w') /\
    ELIMINATION_MAP 2 = Some 4 /\
    survivors demo_world "g" = 3%nat /\
    length (el_eliminated r) = 1%nat /\
    length (el_qualified r) = 2%nat /\
    survivors w' "g" = 2%nat.
Proof. eexists _, _. repeat split; vm_compute; reflexivity. Qed.

(** C1, amended. When at least [E] participants are not eliminated, where
    [E] is the entry of the static table (round 1: 2, round 2: 4, round 3:
    3) for the round, [eliminateBots] ranks every non-eliminated
    participant by effective time, which for a recorded non-zero finish
    time is that time plus 10000 ms per collision and without a finish
    time is [Infinity], in ascending order;
    eliminates exactly the last [E] of the ranking, marking each with the
    round number; and gives the survivors the positions 1..N in ranking
    order. The number of survivors drops by [E]: from 10 to 8 in round 1,
    from 8 to 4 in round 2, from 4 to 1 in round 3. *)
Theorem eliminateBots_ranks_and_culls
  (w : World) (gameId : String.string) (level : Z)
  (gs : GameState) (g : Game) :
  JsMap.get (activeGames w) gameId = Some gs ->
  JsMap.get (games w) gameId = Some g ->
  NoDup (map bg_id (participants g)) ->
  eliminationCount level <= Z.of_nat (survivors w gameId) ->
  let active := activeParticipantsOf w gameId in
  let qualified := qualifiedOf w gameId gs level in
  let eliminated := eliminatedOf w gameId gs level in
  exists r w',
    eliminateBots w gameId level = (Ok r, w') /\
    Permutation (el_rankings r) (map (ranking_of gs) active) /\
    StronglySorted
      (fun a b => Num_leb (rk_totalTime a) (rk_totalTime b) = true)
      (el_rankings r) /\
    (forall p t, In p active ->
                 JsMap.get (botFinishTimes gs) (bg_botId p) = Some t ->
                 t <> 0 ->
                 rk_totalTime (ranking_of gs p)
                 = Fin (t + bg_collisions p * 10 * 1000)) /\
    (forall p, JsMap.get (botFinishTimes gs) (bg_botId p) = None ->
               rk_totalTime (ranking_of gs p) = Infinity) /\
    el_rankings r = qualified ++ eliminated /\
    zlen eliminated = eliminationCount level /\
    el_qualified r = map rk_botId qualified /\
    el_eliminated r = map rk_botId eliminated /\
    (forall e, In e eliminated ->
               exists p, In p (rowsOf w' gameId) /\
                         bg_id p = rk_botGameId e /\
                         bg_botId p = rk_botId e /\
                         bg_eliminated p = true /\
                         bg_eliminatedAt p = Some level) /\
    (forall i q, nth_error qualified i = Some q ->
                 exists p, In p (rowsOf w' gameId) /\
                           bg_id p = rk_botGameId q /\
                           bg_botId p = rk_botId q /\
                           bg_eliminated p = false /\
                           bg_position p = Z.of_nat i + 1) /\
    eliminationCount 1 = 2 /\ eliminationCount 2 = 4 /\
    eliminationCount 3 = 3 /\
    Z.of_nat (survivors w' gameId)
    = Z.of_nat (survivors w gameId) - eliminationCount level /\
    (survivors w gameId = 10%nat -> level = 1 ->
     survivors w' gameId = 8%nat) /\
    (survivors w gameId = 8%nat -> level = 2 ->
     survivors w' gameId = 4%nat) /\
    (survivors w gameId = 4%nat -> level = 3 ->
     survivors w' gameId = 1%nat).
Proof.
  intros Hgs Hg Hnd Hcount active qualified eliminated.
  assert (Hkey : NoDup (map bg_id (rowsOf w gameId)))
    by (unfold rowsOf; rewrite Hg; exact Hnd).
  assert (Hc : eliminationCount level <= zlen (activeParticipantsOf w gameId))
    by (unfold zlen; rewrite activeParticipants_length; exact Hcount).
  pose proof (eliminateBots_result w gameId level gs g Hgs Hg Hc) as Hres.
  pose proof (survivors_after w gameId level gs g Hgs Hg Hkey Hc) as Hsurv.
  pose proof (eliminated_marked w gameId level gs g Hgs Hg Hkey Hc) as Hmark.
  pose proof (qualified_reranked w gameId level gs g Hgs Hg Hkey Hc) as Hrank.
  rewrite Hres in Hsurv, Hmark, Hrank. cbn [snd] in Hsurv, Hmark, Hrank.
  eexists _, _. split; [exact Hres|]. cbn [el_rankings el_qualified el_eliminated].
  split; [apply sortBy_Permutation|].
  split; [apply rankingsOf_sorted|].
  split; [intros p t _ Ht Hne; apply (ranking_time gs p t Ht Hne)|].
  split; [apply ranking_time_unfinished|].
  split; [symmetry; apply firstn_skipn|].
  split; [apply (eliminated_length w gameId level gs Hc)|].
  split; [reflexivity|]. split; [reflexivity|].
  split; [exact Hmark|]. split; [exact Hrank|].
  split; [reflexivity|]. split; [reflexivity|]. split; [reflexivity|].
  split; [exact Hsurv|].
  revert Hsurv. clear.
  generalize (survivors w gameId) as n. intros n.
  match goal with
  | |- Z.of_nat ?x = _ -> _ => generalize x as n'
  end.
  intros n' Hsurv.
  repeat split; intros Hn ->; subst n;
    change (eliminationCount 1) with 2 in Hsurv;
    change (eliminationCount 2) with 4 in Hsurv;
    change (eliminationCount 3) with 3 in Hsurv; lia.
Qed.

Lemma eliminateBots_ranks_and_culls_witness :
  exists r w',
    eliminateBots demo_world "g" 1 = (Ok r, w') /\
    Z.of_nat (survivors w' "g") = Z.of_nat (survivors demo_world "g") - 2.
Proof.
  destruct (eliminateBots_ranks_and_culls demo_world "g" 1
              demo_state demo_game)
    as (r & w' & Heq & _ & _ & _ & _ & _ & _ & _ & _ & _ & _ & _ & _ & _
        & Hsurv & _); try reflexivity.
  - simpl. repeat constructor; simpl; intuition discriminate.
  - vm_compute. discriminate.
  - exists r, w'. split; assumption.
Defined.

(** * Further properties of the code *)

(** ** More on the path oracle *)

Lemma isValidMove_distance (a b : Position) :
  isValidMove a b = (heuristic a b =? 1).
Proof.
  unfold isValidMove, heuristic.
  destruct (Z.abs (pos_x a - pos_x b) =? 1) eqn:E1;
  destruct (Z.abs (pos_y a - pos_y b) =? 0) eqn:E2;
  destruct (Z.abs (pos_x a - pos_x b) =? 0) eqn:E3;
  destruct (Z.abs (pos_y a - pos_y b) =? 1) eqn:E4;
  destruct (Z.abs (pos_x a - pos_x b) + Z.abs (pos_y a - pos_y b) =? 1) eqn:E5;
  try reflexivity; exfalso;
  rewrite ?Z.eqb_eq, ?Z.eqb_neq in *; lia.
Qed.

Lemma heuristic_sym (a b : Position) : heuristic a b = heuristic b a.
Proof. unfold heuristic. lia. Qed.

Lemma isValidMove_sym (a b : Position) : isValidMove a b = isValidMove b a.
Proof. rewrite !isValidMove_distance, heuristic_sym. reflexivity. Qed.

Lemma adjacent_sym (a b : Position) : adjacent a b -> adjacent b a.
Proof. unfold adjacent. rewrite isValidMove_sym. auto. Qed.


Lemma getNeighbors_parent grid u nb :
  In nb (getNeighbors grid u) ->
  node_parent nb = Some u /\ node_g nb = 0 /\ node_h nb = 0 /\ node_f nb = 0.
Proof.
  unfold getNeighbors. rewrite in_flat_map. intros [dir [_ Hin]].
  destruct (isWalkable grid (node_x u + fst dir) (node_y u + snd dir));
    [|contradiction].
  destruct Hin as [<- | []]. repeat split.
Qed.

Lemma getNeighbors_distinct grid u :
  NoDup (map node_pos (getNeighbors grid u)) /\
  (length (getNeighbors grid u) <= 4)%nat.
Proof.
  unfold getNeighbors, directions. cbn [flat_map fst snd].
  destruct (isWalkable grid (node_x u + 0) (node_y u + -1));
  destruct (isWalkable grid (node_x u + 0) (node_y u + 1));
  destruct (isWalkable grid (node_x u + -1) (node_y u + 0));
  destruct (isWalkable grid (node_x u + 1) (node_y u + 0));
  cbn [app map length node_pos newPathNode node_x node_y];
  (split; [|lia]);
  repeat (constructor; [cbn [In]; intros H;
                        repeat (destruct H as [H|H]; [injection H; lia|]);
                        exact H|]);
  constructor.
Qed.

(** X2. [getNeighbors] returns exactly the walkable cells one cardinal
    step from the node: each of them once, at most four, and every one with
    the node as its parent. *)
Theorem getNeighbors_exact (grid : Grid) (u : PathNode) :
  (forall p, In p (map node_pos (getNeighbors grid u)) <->
             isValidMove (node_pos u) p = true /\
             isWalkable grid (pos_x p) (pos_y p) = true) /\
  NoDup (map node_pos (getNeighbors grid u)) /\
  (length (getNeighbors grid u) <= 4)%nat /\
  (forall nb, In nb (getNeighbors grid u) -> node_parent nb = Some u).
Proof.
  split; [|split; [apply getNeighbors_distinct|
                   split; [apply getNeighbors_distinct|]]].
  - intros p. rewrite in_map_iff. split.
    + intros (nb & <- & Hin). apply getNeighbors_sound in Hin. exact Hin.
    + intros [Ha Hw].
      destruct (getNeighbors_complete grid u p Ha Hw) as (nb & Hin & Hp).
      exists nb. auto.
  - intros nb Hin. apply getNeighbors_parent in Hin. apply Hin.
Qed.

Lemma findLowestF_loop_first (rest pre : list PathNode) (i li : nat)
  (lf : Z) (lo : PathNode) :
  length pre = i -> nth_error (pre ++ rest) li = Some lo ->
  (li < i)%nat ->
  lf = node_f lo ->
  (forall n, In n pre -> ~ lower_fh n lo) ->
  (forall j n, (j < li)%nat -> nth_error pre j = Some n -> lower_fh lo n) ->
  exists m,
    nth_error (pre ++ rest) (findLowestF_loop rest i li lf lo) = Some m /\
    (forall n, In n (pre ++ rest) -> ~ lower_fh n m) /\
    (forall j n, (j < findLowestF_loop rest i li lf lo)%nat ->
                 nth_error (pre ++ rest) j = Some n -> lower_fh m n).
Proof.
  revert pre i li lf lo.
  induction rest as [|n rest IH];
    intros pre i li lf lo Hlen Hlo Hli Hlf Hmin Hfirst.
  - simpl. exists lo. rewrite app_nil_r in *. auto.
  - simpl.
    assert (Hn : nth_error ((pre ++ [n]) ++ rest) i = Some n).
    { rewrite <- app_assoc. simpl. rewrite nth_error_app2 by lia.
      replace (i - length pre)%nat with 0%nat by lia. reflexivity. }
    assert (Hlen' : length (pre ++ [n]) = S i)
      by (rewrite length_app; simpl; lia).
    assert (Hpre : forall j x, (j < i)%nat ->
                               nth_error (pre ++ [n]) j = Some x ->
                               nth_error pre j = Some x).
    { intros j x Hj Hx. rewrite nth_error_app1 in Hx by lia. exact Hx. }
    assert (Hlo' : nth_error pre li = Some lo).
    { rewrite nth_error_app1 in Hlo by lia. exact Hlo. }
    replace (pre ++ n :: rest) with ((pre ++ [n]) ++ rest) in *
      by (rewrite <- app_assoc; reflexivity).
    destruct (node_f n <? lf) eqn:E1;
      [apply Z.ltb_lt in E1|apply Z.ltb_ge in E1].
    + apply IH; [exact Hlen'|exact Hn|lia|reflexivity| |].
      * intros n' Hin. apply in_app_or in Hin as [Hin|[<-|[]]].
        -- specialize (Hmin _ Hin). unfold lower_fh in *. lia.
        -- unfold lower_fh. lia.
      * intros j x Hj Hx. apply Hpre in Hx; auto.
        assert (Hin : In x pre) by (eapply nth_error_In; eauto).
        specialize (Hmin _ Hin). unfold lower_fh in *. lia.
    + destruct ((node_f n =? lf) && (node_h n <? node_h lo)) eqn:E2.
      * apply andb_true_iff in E2 as [E2 E3].
        apply Z.eqb_eq in E2. apply Z.ltb_lt in E3.
        apply IH; [exact Hlen'|exact Hn|lia|lia| |].
        -- intros n' Hin. apply in_app_or in Hin as [Hin|[<-|[]]].
           ++ specialize (Hmin _ Hin). unfold lower_fh in *. lia.
           ++ unfold lower_fh. lia.
        -- intros j x Hj Hx. apply Hpre in Hx; auto.
           assert (Hin : In x pre) by (eapply nth_error_In; eauto).
           specialize (Hmin _ Hin). unfold lower_fh in *. lia.
      * apply IH; [exact Hlen'|exact Hlo|lia|exact Hlf| |].
        -- intros n' Hin. apply in_app_or in Hin as [Hin|[<-|[]]]; auto.
           apply andb_false_iff in E2.
           rewrite Z.eqb_neq, Z.ltb_ge in E2. unfold lower_fh. lia.
        -- intros j x Hj Hx. apply (Hfirst j); auto. apply Hpre; auto. lia.
Qed.

(** X3. On a non-empty open set [findLowestF] returns the index of the
    first node that is least in [f] and, among the nodes of that [f], least
    in [h]: no node has a lower [f], none of the same [f] has a lower [h],
    and every node before the index is strictly worse. *)
Theorem findLowestF_first_minimum (openSet : list PathNode) :
  openSet <> [] ->
  exists m,
    nth_error openSet (findLowestF openSet) = Some m /\
    (forall n, In n openSet ->
               node_f m < node_f n \/
               (node_f m = node_f n /\ node_h m <= node_h n)) /\
    (forall j n, (j < findLowestF openSet)%nat ->
                 nth_error openSet j = Some n -> lower_fh m n).
Proof.
  destruct openSet as [|first rest]; [congruence|]. intros _.
  destruct (findLowestF_loop_first rest [first] 1 0 (node_f first) first)
    as (m & Hm & Hmin & Hfirst); auto.
  - intros n [<-|[]]. unfold lower_fh. lia.
  - intros j n Hj. lia.
  - exists m. split; [exact Hm|]. split; [|exact Hfirst].
    intros n Hin. specialize (Hmin n Hin). unfold lower_fh in Hmin. lia.
Qed.

Lemma findLowestF_first_minimum_witness :
  exists m,
    nth_error [mkNode 0 0 2 3 5 None; mkNode 1 0 1 3 4 None;
               mkNode 0 1 2 2 4 None; mkNode 1 1 3 2 5 None]
              (findLowestF [mkNode 0 0 2 3 5 None; mkNode 1 0 1 3 4 None;
                            mkNode 0 1 2 2 4 None; mkNode 1 1 3 2 5 None])
    = Some m /\ m = mkNode 0 1 2 2 4 None.
Proof.
  destruct (findLowestF_first_minimum
              [mkNode 0 0 2 3 5 None; mkNode 1 0 1 3 4 None;
               mkNode 0 1 2 2 4 None; mkNode 1 1 3 2 5 None])
    as (m & Hm & _); [discriminate|].
  exists m. split; [exact Hm|].
  vm_compute in Hm. injection Hm as <-. reflexivity.
Defined.

(** *** Routes as a metric *)

Lemma Walk_cons grid w v s q :
  adjacent w v -> walkable grid w -> Walk grid v s q ->
  Walk grid w s (w :: q).
Proof.
  intros Ha Hw HW. induction HW as [Hv|u x q' HW IH Hux Hx].
  - apply (Walk_step grid w w v [w]); auto. constructor; auto.
  - apply (Walk_step grid w u x (w :: q')); auto.
Qed.

Lemma Walk_rev grid s e p : Walk grid s e p -> Walk grid e s (rev p).
Proof.
  induction 1 as [Hs|v w path HW IH Ha Hw].
  - constructor; auto.
  - rewrite rev_app_distr. simpl.
    apply Walk_cons with (v := v); auto. apply adjacent_sym, Ha.
Qed.

Lemma Walk_app grid s v w p1 p2 :
  Walk grid s v p1 -> Walk grid v w p2 -> Walk grid s w (p1 ++ tl p2).
Proof.
  intros H1 H2. induction H2 as [Hv|u x q HW IH Hux Hx].
  - simpl. rewrite app_nil_r. exact H1.
  - destruct q as [|a q]; [apply Walk_nonempty in HW; congruence|].
    simpl in *. rewrite app_assoc. apply Walk_step with (v := u); auto.
Qed.

Lemma Walk_prefix grid s v p :
  Walk grid s v p ->
  forall l1 x l2, p = l1 ++ x :: l2 -> Walk grid s x (l1 ++ [x]).
Proof.
  induction 1 as [Hs|v w path HW IH Ha Hw]; intros l1 x l2 Heq.
  - destruct l1 as [|a l1].
    + injection Heq as <- <-. constructor; auto.
    + injection Heq as _ Heq. destruct l1; discriminate.
  - destruct l2 as [|b l2] using rev_ind.
    + apply app_inj_tail in Heq as [<- <-].
      apply Walk_step with (v := v); auto.
    + clear IHl2.
      change (l1 ++ x :: l2 ++ [b]) with (l1 ++ (x :: l2) ++ [b]) in Heq.
      rewrite app_assoc in Heq.
      apply app_inj_tail in Heq as [Heq _].
      apply (IH l1 x l2 Heq).
Qed.

Lemma Walk_simple grid s e p :
  Walk grid s e p ->
  NoDup p \/ exists p', Walk grid s e p' /\ (length p' < length p)%nat.
Proof.
  induction 1 as [Hs|v w path HW IH Ha Hw].
  - left. constructor; [intros []|constructor].
  - destruct IH as [Hnd|(p' & HW' & Hlt)].
    + destruct (in_dec Position_eq_dec w path) as [Hin|Hnin].
      * right. apply in_split in Hin as (l1 & l2 & Heq).
        exists (l1 ++ [w]). split.
        -- eapply Walk_prefix; eauto.
        -- subst path. rewrite !length_app. simpl. lia.
      * left. apply NoDup_app; [exact Hnd|repeat constructor; intros []|].
        intros a Ha1 [<-|[]]. contradiction.
    + right. exists (p' ++ [w]). split.
      * apply Walk_step with (v := v); auto.
      * rewrite !length_app. simpl. lia.
Qed.

Lemma Walk_heuristic grid s e p :
  Walk grid s e p -> heuristic s e <= zlen p - 1.
Proof.
  induction 1 as [Hs|v w path HW IH Ha Hw].
  - rewrite heuristic_refl. unfold zlen. simpl. lia.
  - pose proof (adjacent_heuristic v w s Ha).
    unfold zlen in *. rewrite length_app. simpl. lia.
Qed.

Lemma getPathLength_found g s e :
  findPath g s e <> [] ->
  getPathLength g s e = zlen (findPath g s e) - 1.
Proof.
  intros H. destruct (getPathLength_cases g s e) as [[E _]|(_ & E & _)];
    [contradiction | exact E].
Qed.

Lemma findPath_Walk g s e :
  findPath g s e <> [] ->
  Walk g s e (findPath g s e) /\
  forall p, Walk g s e p -> (length (findPath g s e) <= length p)%nat.
Proof.
  intros H. destruct (findPath_spec g s e) as [[E _]|HW];
    [contradiction | exact HW].
Qed.

Lemma findPath_reachable g s e p :
  Walk g s e p -> findPath g s e <> [].
Proof.
  intros HW E. destruct (findPath_spec g s e) as [[_ Hno]|[HW' _]].
  - exact (Hno _ HW).
  - rewrite E in HW'. apply Walk_nonempty in HW'. congruence.
Qed.

(** X4. The optimal path length is symmetric: [getPathLength] and
    [hasPath] answer the same from [a] to [b] as from [b] to [a]. *)
Theorem getPathLength_symmetric (g : Grid) (a b : Position) :
  getPathLength g a b = getPathLength g b a /\
  hasPath g a b = hasPath g b a.
Proof.
  assert (Hlen : forall x y, findPath g x y <> [] ->
                   findPath g y x <> [] /\
                   (length (findPath g y x) <= length (findPath g x y))%nat).
  { intros x y H. apply findPath_Walk in H as [HW _].
    apply Walk_rev in HW. split.
    - eapply findPath_reachable; eauto.
    - pose proof (findPath_reachable _ _ _ _ HW) as H.
      apply findPath_Walk in H as [_ Hmin].
      specialize (Hmin _ HW). rewrite length_rev in Hmin. exact Hmin. }
  assert (Hcases : (findPath g a b = [] /\ findPath g b a = []) \/
                   (findPath g a b <> [] /\ findPath g b a <> [] /\
                    length (findPath g a b) = length (findPath g b a))).
  { destruct (findPath g a b) as [|p l] eqn:Eab.
    - left. split; auto.
      destruct (findPath g b a) as [|q l'] eqn:Eba; auto.
      exfalso. destruct (Hlen b a) as [H _]; [congruence|]. congruence.
    - right. destruct (Hlen a b) as [H1 H2]; [congruence|].
      destruct (Hlen b a) as [_ H3]; [exact H1|].
      rewrite Eab in *. repeat split; auto; try discriminate. lia. }
  destruct Hcases as [[E1 E2]|(N1 & N2 & E)].
  - unfold getPathLength, hasPath. rewrite E1, E2. auto.
  - rewrite !getPathLength_found by assumption.
    unfold hasPath, zlen. rewrite E. auto.
Qed.

(** X5. The optimal path length obeys the triangle inequality: when
    there are paths from [a] to [b] and from [b] to [c], there is one from
    [a] to [c], and it is not longer than the two together. *)
Theorem getPathLength_triangle (g : Grid) (a b c : Position) :
  hasPath g a b = true -> hasPath g b c = true ->
  hasPath g a c = true /\
  getPathLength g a c <= getPathLength g a b + getPathLength g b c.
Proof.
  intros Hab Hbc.
  assert (Nab : findPath g a b <> [])
    by (intros E; unfold hasPath in Hab; rewrite E in Hab; discriminate).
  assert (Nbc : findPath g b c <> [])
    by (intros E; unfold hasPath in Hbc; rewrite E in Hbc; discriminate).
  destruct (findPath_Walk _ _ _ Nab) as [Wab _].
  destruct (findPath_Walk _ _ _ Nbc) as [Wbc _].
  pose proof (Walk_app _ _ _ _ _ _ Wab Wbc) as Wac.
  pose proof (findPath_reachable _ _ _ _ Wac) as Nac.
  destruct (findPath_Walk _ _ _ Nac) as [_ Hmin].
  specialize (Hmin _ Wac). split.
  - apply hasPath_iff. eexists. apply Walk_Route, Wac.
  - rewrite !getPathLength_found by assumption.
    unfold zlen. rewrite length_app in Hmin.
    assert (Htl : S (length (tl (findPath g b c)))
                  = length (findPath g b c))
      by (destruct (findPath g b c); [congruence | reflexivity]).
    lia.
Qed.

Lemma getPathLength_triangle_witness :
  hasPath grid4 (mkPos 0 0) (mkPos 3 0) = true /\
  hasPath grid4 (mkPos 3 0) (mkPos 3 3) = true /\
  getPathLength grid4 (mkPos 0 0) (mkPos 3 3)
  <= getPathLength grid4 (mkPos 0 0) (mkPos 3 0)
     + getPathLength grid4 (mkPos 3 0) (mkPos 3 3).
Proof.
  split; [reflexivity|]. split; [reflexivity|].
  apply (getPathLength_triangle grid4 (mkPos 0 0) (mkPos 3 0) (mkPos 3 3));
    reflexivity.
Defined.

(** X6. A path that [findPath] returns visits no cell twice, has at most
    as many cells as the grid, is at least as long as the Manhattan
    distance of its ends, and has length 0 exactly when start and goal are
    the same cell. *)
Theorem findPath_simple_path (g : Grid) (s e : Position) :
  hasPath g s e = true ->
  NoDup (findPath g s e) /\
  zlen (findPath g s e) <= zlen g * row0_length g /\
  heuristic s e <= getPathLength g s e /\
  (getPathLength g s e = 0 <-> s = e).
Proof.
  intros H.
  assert (N : findPath g s e <> [])
    by (intros E; unfold hasPath in H; rewrite E in H; discriminate).
  destruct (findPath_Walk _ _ _ N) as [HW Hmin].
  assert (Hnd : NoDup (findPath g s e)).
  { destruct (Walk_simple _ _ _ _ HW) as [Hnd|(p' & HW' & Hlt)]; auto.
    specialize (Hmin _ HW'). lia. }
  split; [exact Hnd|]. split; [|split].
  - assert (Hb : (length (findPath g s e)
                  <= length g * Z.to_nat (row0_length g))%nat).
    { apply closed_bound; auto.
      apply Walk_Route in HW. destruct HW as (_ & _ & Hall & _).
      intros c Hc. rewrite Forall_forall in Hall. auto. }
    pose proof (Walk_start_walkable _ _ _ _ HW) as Hs.
    apply isWalkable_bounds in Hs as [Hs _].
    apply Nat2Z.inj_le in Hb. rewrite Nat2Z.inj_mul, Z2Nat.id in Hb by lia.
    exact Hb.
  - rewrite getPathLength_found by assumption.
    eapply Walk_heuristic; eauto.
  - rewrite getPathLength_found by assumption. split.
    + intros Hz. pose proof (Walk_hd _ _ _ _ HW) as Hhd.
      pose proof (Walk_last _ _ _ _ s HW) as Hl.
      destruct (findPath g s e) as [|p [|q l]]; unfold zlen in Hz;
        cbn [length hd_error last] in *; [congruence | congruence | lia].
    + intros <-.
      specialize (Hmin [s] (Walk_start _ _ (Walk_start_walkable _ _ _ _ HW))).
      destruct (findPath g s s) as [|p [|q l]]; unfold zlen;
        cbn [length] in *; [congruence | lia | lia].
Qed.

Lemma findPath_simple_path_witness :
  NoDup (findPath grid_blocked (mkPos 0 0) (mkPos 0 2)) /\
  heuristic (mkPos 0 0) (mkPos 0 2)
  <= getPathLength grid_blocked (mkPos 0 0) (mkPos 0 2).
Proof.
  destruct (findPath_simple_path grid_blocked (mkPos 0 0) (mkPos 0 2))
    as (H1 & _ & H2 & _); [reflexivity|]. split; assumption.
Defined.

(** ** More on the collision checks *)

(** X7. [checkBotCollision] returns the first entry of the list that
    belongs to another bot and stands on the cell, and [null] exactly when
    no other bot stands on it; the moving bot never blocks itself. *)
Theorem checkBotCollision_first_blocker (positions : list BotPosition)
  (botId : String.string) (p : Position) :
  match checkBotCollision positions botId p with
  | Some b =>
      b <> botId /\
      exists before after,
        positions = before ++ mkBotPosition b p :: after /\
        forall bp, In bp before ->
                   bp_botId bp = botId \/ bp_position bp <> p
  | None =>
      forall bp, In bp positions ->
                 bp_botId bp = botId \/ bp_position bp <> p
  end.
Proof.
  induction positions as [|[b q] rest IH]; cbn [checkBotCollision];
    [intros bp []|].
  cbn [bp_botId bp_position].
  destruct (negb (String.eqb b botId) && (pos_x q =? pos_x p)
            && (pos_y q =? pos_y p)) eqn:E.
  - apply andb_true_iff in E as [E Ey]. apply andb_true_iff in E as [Eb Ex].
    apply negb_true_iff, String.eqb_neq in Eb.
    assert (q = p) by (apply Position_eqb_eq; unfold Position_eqb;
                       rewrite Ex, Ey; reflexivity).
    subst q. split; [exact Eb|]. exists [], rest. split; [reflexivity|].
    intros bp [].
  - assert (Hhead : b = botId \/ q <> p).
    { destruct (String.eqb b botId) eqn:Eb;
        [left; apply String.eqb_eq, Eb|right].
      cbn [negb andb] in E. intros ->. rewrite !Z.eqb_refl in E.
      discriminate. }
    destruct (checkBotCollision rest botId p) as [b'|].
    + destruct IH as (Hne & before & after & -> & Hbefore).
      split; [exact Hne|].
      exists (mkBotPosition b q :: before), after. split; [reflexivity|].
      intros bp [<-|Hin]; auto.
    + intros bp [<-|Hin]; auto.
Qed.

(** X8. The boundary check and the obstacle check of the collision
    service together are the [isWalkable] of the path oracle: a cell is
    walkable exactly when it is inside the grid size [processMove] computes
    and is not an obstacle; and no cell fails both checks, since the
    obstacle check answers [false] outside the grid. *)
Theorem isWalkable_collision_checks (g : Grid) (x y : Z) :
  isWalkable g x y
  = negb (checkBoundaryCollision (mkPos x y)
            (mkGridSize (zlen g) (row0_length g)))
    && negb (checkObstacleCollision g (mkPos x y)) /\
  checkObstacleCollision g (mkPos x y)
  && checkBoundaryCollision (mkPos x y) (mkGridSize (zlen g) (row0_length g))
  = false.
Proof.
  unfold isWalkable, checkBoundaryCollision, checkObstacleCollision.
  cbn [pos_x pos_y rows cols].
  destruct (x <? 0), (y <? 0), (y >=? zlen g), (x >=? row0_length g);
    cbn [orb negb andb]; auto.
  destruct (cell g x y) as [[|[| |]|]|]; auto.
Qed.

Lemma ranking_of_incr_collisions gs bg :
  rk_totalTime (ranking_of gs (incr_collisions bg))
  = Num_add (rk_totalTime (ranking_of gs bg)) 10000.
Proof.
  unfold ranking_of, getPenaltySeconds, COLLISION_PENALTY_SECONDS.
  cbn [rk_totalTime incr_collisions bg_botId bg_collisions].
  destruct (finishTimeOrInfinity
              (JsMap.get (botFinishTimes gs) (bg_botId bg)));
    cbn [Num_add]; [f_equal; lia | reflexivity].
Qed.

(** X9. [handleCollision] on a participant whose row is in the store
    (rows having distinct ids) reports the count raised by one and the
    penalty 10, writes that count to the row of the bot and to no other
    row, and leaves the round states and the move log alone; the raised
    count costs the bot 10000 ms more in the ranking of [eliminateBots],
    which is what [calculateTotalPenalty] computes in seconds. *)
Theorem handleCollision_adds_ten_seconds (w : World)
  (gameId botId : String.string) (bg : BotGame) :
  unique_ids w gameId ->
  botGame_findUnique w botId gameId = Some bg ->
  exists w',
    handleCollision w gameId botId = (Ok (bg_collisions bg + 1, 10), w') /\
    botGame_findUnique w' botId gameId = Some (incr_collisions bg) /\
    (forall gs, rk_totalTime (ranking_of gs (incr_collisions bg))
                = Num_add (rk_totalTime (ranking_of gs bg)) 10000) /\
    calculateTotalPenalty (bg_collisions (incr_collisions bg)) * 1000
    = calculateTotalPenalty (bg_collisions bg) * 1000 + 10000 /\
    (forall other, other <> botId ->
                   botGame_findUnique w' other gameId
                   = botGame_findUnique w other gameId) /\
    activeGames w' = activeGames w /\
    moves w' = moves w.
Proof.
  intros Hu Hbg. unfold handleCollision. rewrite Hbg.
  eexists. split; [reflexivity|].
  split; [apply botGame_findUnique_update; auto|].
  split; [intros gs; apply ranking_of_incr_collisions|].
  split; [unfold calculateTotalPenalty, COLLISION_PENALTY_SECONDS;
          cbn [incr_collisions bg_collisions]; lia|].
  split; [intros other Hne;
          apply botGame_findUnique_update_other with (botId := botId); auto|].
  split; [apply activeGames_botGame_update | apply moves_botGame_update].
Qed.

Lemma handleCollision_adds_ten_seconds_witness :
  exists w',
    handleCollision demo_world "g" "b" = (Ok (1, 10), w') /\
    botGame_findUnique w' "b" "g" = Some (demo_row "r2" "b" 2 1).
Proof.
  destruct (handleCollision_adds_ten_seconds demo_world "g" "b"
              (demo_row "r2" "b" 2 0))
    as (w' & H1 & H2 & _).
  - intros g [= <-]. cbn.
    repeat (constructor; [cbn; intuition discriminate|]). constructor.
  - reflexivity.
  - exists w'. split; assumption.
Defined.

Lemma handleCollision_missing_row w gameId botId :
  botGame_findUnique w botId gameId = None ->
  handleCollision w gameId botId = (Err NotParticipant, w).
Proof. intros H. unfold handleCollision. rewrite H. reflexivity. Qed.

(** ** More on the match engine *)

Lemma JsMap_set_same {V : Type} (m : JsMap.t V) (k : String.string) (v : V) :
  JsMap.get m k = Some v -> JsMap.set m k v = m.
Proof.
  induction m as [|[k' v'] m IH]; simpl; [discriminate|].
  destruct (String.eqb k' k) eqn:E.
  - intros [= ->]. reflexivity.
  - intros H. rewrite IH; auto.
Qed.

Lemma with_sentinels_full sentinel (l : list BotGame) :
  forall m : JsMap.t Z,
    forallb (fun p => JsMap.has m (bg_botId p)) l = true ->
    with_sentinels sentinel l m = m.
Proof.
  unfold with_sentinels.
  induction l as [|p l IH]; intros m H; simpl in *; auto.
  apply andb_true_iff in H as [Hp Hl]. rewrite Hp. simpl. auto.
Qed.

Lemma with_sentinels_covers sentinel (l : list BotGame) (m : JsMap.t Z) :
  forallb (fun p => JsMap.has (with_sentinels sentinel l m) (bg_botId p)) l
  = true.
Proof.
  apply forallb_forall. intros p Hp. unfold JsMap.has.
  rewrite with_sentinels_get.
  destruct (JsMap.get m (bg_botId p)); auto.
  replace (existsb (fun p0 => String.eqb (bg_botId p0) (bg_botId p)) l)
    with true; auto.
  symmetry. apply existsb_exists. exists p. split; auto.
  apply String.eqb_refl.
Qed.

Lemma set_gameState_same w gameId gs :
  JsMap.get (activeGames w) gameId = Some gs ->
  set_gameState w gameId gs = w.
Proof.
  intros H. unfold set_gameState, set_activeGames.
  rewrite JsMap_set_same by assumption. destruct w; reflexivity.
Qed.

Lemma checkLevelComplete_done w now gameId gs game :
  JsMap.get (activeGames w) gameId = Some gs ->
  GameModel_findById w gameId = Some game ->
  forallb (fun p => JsMap.has (botFinishTimes gs) (bg_botId p))
          (filter (fun p => negb (bg_eliminated p)) (participants game))
  = true ->
  checkLevelComplete w now gameId = (true, w).
Proof.
  intros Hgs Hgame Hall. unfold checkLevelComplete.
  rewrite Hgs, Hgame. cbv zeta. rewrite Hall. cbn [orb].
  destruct (now - startTime gs >=? timeLimit (arena game) * 1000);
    [|reflexivity].
  fold (with_sentinels (timeLimit (arena game) * 1000 + 999999)
          (filter (fun p => negb (bg_eliminated p)) (participants game))
          (botFinishTimes gs)).
  rewrite with_sentinels_full by assumption.
  f_equal. rewrite <- (set_gameState_same w gameId gs Hgs) at 2.
  destruct gs; reflexivity.
Qed.

Lemma checkLevelComplete_true_inv (w w' : World) (now : Z)
  (gameId : String.string) :
  checkLevelComplete w now gameId = (true, w') ->
  (exists gs' game,
      JsMap.get (activeGames w') gameId = Some gs' /\
      GameModel_findById w' gameId = Some game /\
      forallb (fun p => JsMap.has (botFinishTimes gs') (bg_botId p))
              (filter (fun p => negb (bg_eliminated p)) (participants game))
      = true) /\
  games w' = games w /\ moves w' = moves w /\
  (forall other, other <> gameId ->
                 JsMap.get (activeGames w') other
                 = JsMap.get (activeGames w) other) /\
  exists gs gs',
    JsMap.get (activeGames w) gameId = Some gs /\
    JsMap.get (activeGames w') gameId = Some gs' /\
    grid gs' = grid gs /\ botPositions gs' = botPositions gs /\
    moveCounters gs' = moveCounters gs /\ startTime gs' = startTime gs /\
    forall botId t, JsMap.get (botFinishTimes gs) botId = Some t ->
                    JsMap.get (botFinishTimes gs') botId = Some t.
Proof.
  unfold checkLevelComplete.
  destruct (JsMap.get (activeGames w) gameId) as [gs|] eqn:Hgs;
    [|discriminate].
  destruct (GameModel_findById w gameId) as [game|] eqn:Hgame;
    [|discriminate].
  cbv zeta.
  set (active := filter (fun p => negb (bg_eliminated p))
                        (participants game)).
  fold (with_sentinels (timeLimit (arena game) * 1000 + 999999) active
          (botFinishTimes gs)).
  destruct (forallb (fun p => JsMap.has (botFinishTimes gs) (bg_botId p))
                    active) eqn:Hall;
  destruct (now - startTime gs >=? timeLimit (arena game) * 1000) eqn:Ht;
    cbn [orb]; intros [= <-].
  - (* all finished, and timed out *)
    rewrite with_sentinels_full by assumption.
    replace (mkGameState (grid gs) (botPositions gs) (endPosition gs)
                         (startTime gs) (moveCounters gs)
                         (botFinishTimes gs)) with gs
      by (destruct gs; reflexivity).
    rewrite (set_gameState_same w gameId gs Hgs).
    split; [exists gs, game; repeat split; assumption|].
    repeat split; auto. exists gs, gs. repeat split; auto.
  - split; [exists gs, game; repeat split; assumption|].
    repeat split; auto. exists gs, gs. repeat split; auto.
  - split.
    + eexists _, game. split; [apply get_set_gameState|].
      split; [exact Hgame|].
      cbn [botFinishTimes]. apply with_sentinels_covers.
    + repeat split; auto.
      * intros other Hne. apply get_set_gameState_other, Hne.
      * eexists gs, _. split; [reflexivity|].
        split; [apply get_set_gameState|].
        repeat split; auto.
        intros botId t Hget. cbn [botFinishTimes].
        rewrite with_sentinels_get, Hget. reflexivity.
Qed.

(** X10. Once [checkLevelComplete] has answered [true], it answers
    [true] at every other time as well and changes nothing more. The one
    call changed nothing but finish times: games, moves, other round
    states, the grid, the positions, the move counters and every finish
    time already recorded are as they were. *)
Theorem checkLevelComplete_stable (w w' : World) (now : Z)
  (gameId : String.string) :
  checkLevelComplete w now gameId = (true, w') ->
  (forall later, checkLevelComplete w' later gameId = (true, w')) /\
  games w' = games w /\ moves w' = moves w /\
  (forall other, other <> gameId ->
                 JsMap.get (activeGames w') other
                 = JsMap.get (activeGames w) other) /\
  exists gs gs',
    JsMap.get (activeGames w) gameId = Some gs /\
    JsMap.get (activeGames w') gameId = Some gs' /\
    grid gs' = grid gs /\ botPositions gs' = botPositions gs /\
    moveCounters gs' = moveCounters gs /\ startTime gs' = startTime gs /\
    forall botId t, JsMap.get (botFinishTimes gs) botId = Some t ->
                    JsMap.get (botFinishTimes gs') botId = Some t.
Proof.
  intros Hc.
  destruct (checkLevelComplete_true_inv w w' now gameId Hc)
    as ((gs' & game & Hgs' & Hgame & Hall) & Hrest).
  split; [|exact Hrest].
  intros later. exact (checkLevelComplete_done w' later gameId gs' game
                         Hgs' Hgame Hall).
Qed.

Lemma checkLevelComplete_stable_witness :
  exists w',
    checkLevelComplete timeout_world 60000 "g" = (true, w') /\
    checkLevelComplete w' 0 "g" = (true, w').
Proof.
  eexists. split; [reflexivity|].
  eapply (checkLevelComplete_stable timeout_world _ 60000 "g").
  reflexivity.
Defined.

Lemma update_row_record (id : String.string) (upd : BotGame -> BotGame)
  (rows_ : list BotGame) :
  (forall p, row_record (upd p) = row_record p) ->
  map row_record (update_row id upd rows_) = map row_record rows_.
Proof.
  intros Hupd. induction rows_ as [|p rest IH]; simpl; auto.
  destruct (String.eqb (bg_id p) id); simpl; [rewrite Hupd | rewrite IH];
    reflexivity.
Qed.

Lemma update_row_eliminated (id : String.string) (upd : BotGame -> BotGame)
  (rows_ : list BotGame) :
  (forall p, bg_eliminated p = true -> bg_eliminated (upd p) = true) ->
  Forall2 (fun p p' => bg_eliminated p = true -> bg_eliminated p' = true)
          rows_ (update_row id upd rows_).
Proof.
  intros Hupd. induction rows_ as [|p rest IH]; simpl; [constructor|].
  destruct (String.eqb (bg_id p) id).
  - constructor; auto. clear. induction rest; constructor; auto.
  - constructor; auto.
Qed.

Lemma Forall2_eliminated_trans (l1 l2 l3 : list BotGame) :
  Forall2 (fun p p' => bg_eliminated p = true -> bg_eliminated p' = true)
          l1 l2 ->
  Forall2 (fun p p' => bg_eliminated p = true -> bg_eliminated p' = true)
          l2 l3 ->
  Forall2 (fun p p' => bg_eliminated p = true -> bg_eliminated p' = true)
          l1 l3.
Proof.
  intros H. revert l3. induction H; intros l3 H3; inversion H3; subst;
    constructor; auto.
Qed.

Lemma Forall2_eliminated_refl (l : list BotGame) :
  Forall2 (fun p p' => bg_eliminated p = true -> bg_eliminated p' = true) l l.
Proof. induction l; constructor; auto. Qed.

(** What one [prisma.botGame.update] of [eliminateBots] keeps. *)
Lemma botGame_update_frame w gameId id upd :
  (forall p, row_record (upd p) = row_record p) ->
  (forall p, bg_eliminated p = true -> bg_eliminated (upd p) = true) ->
  let w' := botGame_update w gameId id upd in
  activeGames w' = activeGames w /\ moves w' = moves w /\
  (forall other, other <> gameId ->
                 JsMap.get (games w') other = JsMap.get (games w) other) /\
  option_map game_record (JsMap.get (games w') gameId)
  = option_map game_record (JsMap.get (games w) gameId) /\
  map row_record (rowsOf w' gameId) = map row_record (rowsOf w gameId) /\
  Forall2 (fun p p' => bg_eliminated p = true -> bg_eliminated p' = true)
          (rowsOf w gameId) (rowsOf w' gameId).
Proof.
  intros Hrec Helim w'. subst w'.
  split; [apply activeGames_botGame_update|].
  split; [apply moves_botGame_update|].
  rewrite rowsOf_botGame_update.
  split; [|split; [|split; [apply update_row_record, Hrec
                           |apply update_row_eliminated, Helim]]].
  - intros other Hne. unfold botGame_update.
    destruct (JsMap.get (games w) gameId); auto.
    cbn [games set_games]. apply JsMap_get_set_neq. congruence.
  - unfold botGame_update.
    destruct (JsMap.get (games w) gameId) as [g|] eqn:Eg.
    + cbn [games set_games]. rewrite JsMap_get_set_eq. reflexivity.
    + rewrite Eg. reflexivity.
Qed.

Lemma same_but_ranks_refl gameId w : same_but_ranks gameId w w.
Proof.
  repeat split; auto. apply Forall2_eliminated_refl.
Qed.

Lemma same_but_ranks_trans gameId w1 w2 w3 :
  same_but_ranks gameId w1 w2 -> same_but_ranks gameId w2 w3 ->
  same_but_ranks gameId w1 w3.
Proof.
  intros (A1 & M1 & O1 & G1 & R1 & E1) (A2 & M2 & O2 & G2 & R2 & E2).
  repeat split; try congruence.
  - intros other Hne. rewrite O2, O1; auto.
  - eapply Forall2_eliminated_trans; eauto.
Qed.

Lemma eliminated_fold_frame gameId level (l : list Ranking) :
  forall w,
    same_but_ranks gameId w
      (fold_left (fun w' bot =>
                    botGame_update w' gameId (rk_botGameId bot)
                                   (set_eliminated level)) l w).
Proof.
  induction l as [|e l IH]; intros w; simpl.
  - apply same_but_ranks_refl.
  - eapply same_but_ranks_trans; [|apply IH].
    apply botGame_update_frame; intros p; reflexivity.
Qed.

Lemma rerank_frame gameId (l : list Ranking) :
  forall w i, same_but_ranks gameId w (rerank w gameId l i).
Proof.
  induction l as [|q l IH]; intros w i; simpl.
  - apply same_but_ranks_refl.
  - eapply same_but_ranks_trans; [|apply IH].
    apply botGame_update_frame; intros p; auto.
Qed.

Lemma eliminateBots_same_but_ranks w gameId level :
  same_but_ranks gameId w (snd (eliminateBots w gameId level)).
Proof.
  unfold eliminateBots.
  destruct (JsMap.get (activeGames w) gameId);
    [|apply same_but_ranks_refl].
  destruct (GameModel_findById w gameId);
    [|apply same_but_ranks_refl].
  cbv zeta. cbn [snd].
  eapply same_but_ranks_trans;
    [apply eliminated_fold_frame | apply rerank_frame].
Qed.

(** X11. [eliminateBots] never touches the round states in memory, the
    move log, other games, or the columns of the game other than its
    participants; of a participant it changes only the position and the
    elimination mark, never the id, the bot, the collisions or the times,
    and a participant that was eliminated stays eliminated. Without a
    round state it throws and changes nothing. *)
Theorem eliminateBots_frame (w : World) (gameId : String.string) (level : Z) :
  let w' := snd (eliminateBots w gameId level) in
  activeGames w' = activeGames w /\ moves w' = moves w /\
  (forall other, other <> gameId ->
                 JsMap.get (games w') other = JsMap.get (games w) other) /\
  option_map game_record (JsMap.get (games w') gameId)
  = option_map game_record (JsMap.get (games w) gameId) /\
  map row_record (rowsOf w' gameId) = map row_record (rowsOf w gameId) /\
  Forall2 (fun p p' => bg_eliminated p = true -> bg_eliminated p' = true)
          (rowsOf w gameId) (rowsOf w' gameId) /\
  (JsMap.get (activeGames w) gameId = None ->
   eliminateBots w gameId level = (Err GameStateNotFound, w)).
Proof.
  cbv zeta.
  destruct (eliminateBots_same_but_ranks w gameId level)
    as (A & M & O & G & R & E).
  repeat split; auto.
  intros Hnone. unfold eliminateBots. rewrite Hnone. reflexivity.
Qed.

Lemma GameModel_findById_setWinner w gameId winner g :
  JsMap.get (games w) gameId = Some g ->
  JsMap.get (games (GameModel_setWinner w gameId winner)) gameId
  = Some (mkGame COMPLETED (currentLevel g) (arena g) (participants g)
                 (prizePool g) (Some winner)).
Proof.
  intros Hg. unfold GameModel_setWinner. rewrite Hg.
  cbn [games set_games]. apply JsMap_get_set_eq.
Qed.

Lemma completeGame_success (w : World) (gameId winner : String.string)
  (g : Game) :
  JsMap.get (games w) gameId = Some g ->
  exists w',
    completeGame w gameId winner
    = (Ok (mkCompletion winner (prizePool g) (prizePool g * 0.9)%float), w') /\
    JsMap.get (activeGames w') gameId = None /\
    (forall other, other <> gameId ->
                   JsMap.get (activeGames w') other
                   = JsMap.get (activeGames w) other) /\
    moves w' = moves w /\
    (exists g', JsMap.get (games w') gameId = Some g' /\
                status g' = COMPLETED /\ winnerId g' = Some winner /\
                currentLevel g' = currentLevel g /\
                prizePool g' = prizePool g /\
                map bg_botId (participants g')
                = map bg_botId (participants g)) /\
    (forall bg, unique_ids w gameId ->
                botGame_findUnique w winner gameId = Some bg ->
                botGame_findUnique w' winner gameId
                = Some (set_completionTime (totalLevelTime bg) bg)).
Proof.
  intros Hg. unfold completeGame.
  rewrite (GameModel_findById_rows _ _ _ Hg). cbv zeta.
  cbn [prizePool set_participants].
  pose proof (GameModel_findById_setWinner w gameId winner g Hg) as Hw1.
  set (w1 := GameModel_setWinner w gameId winner) in *.
  assert (Ha1 : activeGames w1 = activeGames w).
  { subst w1. unfold GameModel_setWinner. rewrite Hg. reflexivity. }
  assert (Hm1 : moves w1 = moves w).
  { subst w1. unfold GameModel_setWinner. rewrite Hg. reflexivity. }
  assert (Hf1 : forall b, botGame_findUnique w1 b gameId
                          = botGame_findUnique w b gameId).
  { intros b. unfold botGame_findUnique. rewrite Hw1, Hg. reflexivity. }
  assert (Hu1 : unique_ids w gameId -> unique_ids w1 gameId).
  { intros Hu g1 Hg1. rewrite Hw1 in Hg1. injection Hg1 as <-.
    apply (Hu g Hg). }
  eexists. split; [reflexivity|].
  match goal with
  | |- JsMap.get (activeGames (set_activeGames ?x _)) _ = _ /\ _ =>
      set (w2 := x)
  end.
  assert (Ha2 : activeGames w2 = activeGames w).
  { subst w2. rewrite Hf1.
    destruct (botGame_findUnique w winner gameId);
      [rewrite activeGames_botGame_update|]; exact Ha1. }
  assert (Hm2 : moves w2 = moves w).
  { subst w2. rewrite Hf1.
    destruct (botGame_findUnique w winner gameId);
      [rewrite moves_botGame_update|]; exact Hm1. }
  assert (Hg2 : exists g',
             JsMap.get (games w2) gameId = Some g' /\
             status g' = COMPLETED /\ winnerId g' = Some winner /\
             currentLevel g' = currentLevel g /\
             prizePool g' = prizePool g /\
             map bg_botId (participants g')
             = map bg_botId (participants g)).
  { subst w2. rewrite Hf1.
    destruct (botGame_findUnique w winner gameId) as [bg|].
    - unfold botGame_update. rewrite Hw1. cbn [games set_games].
      rewrite JsMap_get_set_eq. eexists. split; [reflexivity|].
      cbn [status winnerId currentLevel prizePool participants
           set_participants].
      repeat split; auto.
      clear. induction (participants g) as [|p rest IH]; simpl; auto.
      destruct (String.eqb (bg_id p) (bg_id bg)); simpl;
        [reflexivity | rewrite IH; reflexivity].
    - eexists. split; [exact Hw1|]. repeat split; auto. }
  assert (Hnone : JsMap.get (activeGames (set_activeGames w2
                     (JsMap.delete (activeGames w2) gameId))) gameId = None).
  { cbn [activeGames set_activeGames]. rewrite JsMap_get_delete.
    rewrite String.eqb_refl. reflexivity. }
  split; [exact Hnone|].
  split.
  { intros other Hne. cbn [activeGames set_activeGames].
    rewrite JsMap_get_delete, Ha2.
    destruct (String.eqb gameId other) eqn:E; auto.
    apply String.eqb_eq in E. congruence. }
  split; [exact Hm2|].
  split; [exact Hg2|].
  intros bg Hu Hbg.
  change (botGame_findUnique (set_activeGames w2 _) winner gameId)
    with (botGame_findUnique w2 winner gameId).
  subst w2. rewrite Hf1, Hbg.
  apply botGame_findUnique_update; auto. rewrite Hf1. exact Hbg.
Qed.

(** X12. [completeGame] on a game of the store returns the winner, the
    pool and 0.9 of the pool, marks the game completed with that winner,
    keeps its level, pool and participants, writes the sum of the three
    level times (missing ones as 0) as the completion time of the winner,
    and discards the round state of the game and of no other: afterwards
    every move, completion check and elimination on the game finds no
    round state. *)
Theorem completeGame_ends_play (w : World) (gameId winner : String.string)
  (g : Game) :
  JsMap.get (games w) gameId = Some g ->
  exists w',
    completeGame w gameId winner
    = (Ok (mkCompletion winner (prizePool g) (prizePool g * 0.9)%float), w') /\
    JsMap.get (activeGames w') gameId = None /\
    (forall other, other <> gameId ->
                   JsMap.get (activeGames w') other
                   = JsMap.get (activeGames w) other) /\
    moves w' = moves w /\
    (exists g', JsMap.get (games w') gameId = Some g' /\
                status g' = COMPLETED /\ winnerId g' = Some winner /\
                currentLevel g' = currentLevel g /\
                prizePool g' = prizePool g /\
                map bg_botId (participants g')
                = map bg_botId (participants g)) /\
    (forall bg, unique_ids w gameId ->
                botGame_findUnique w winner gameId = Some bg ->
                botGame_findUnique w' winner gameId
                = Some (set_completionTime (totalLevelTime bg) bg)) /\
    (forall now botId toX toY,
        processMove w' now gameId botId toX toY
        = (Err GameStateNotFound, w')) /\
    (forall now, checkLevelComplete w' now gameId = (false, w')) /\
    (forall level,
        eliminateBots w' gameId level = (Err GameStateNotFound, w')).
Proof.
  intros Hg.
  destruct (completeGame_success w gameId winner g Hg)
    as (w' & Hcg & Hnone & Hother & Hmoves & Hgame & Hwinner).
  exists w'.
  split; [exact Hcg|]. split; [exact Hnone|]. split; [exact Hother|].
  split; [exact Hmoves|]. split; [exact Hgame|]. split; [exact Hwinner|].
  split; [|split].
  - intros now botId toX toY. apply processMove_no_state. exact Hnone.
  - intros now. unfold checkLevelComplete. rewrite Hnone. reflexivity.
  - intros level. unfold eliminateBots. rewrite Hnone. reflexivity.
Qed.

Lemma completeGame_ends_play_witness :
  exists w',
    completeGame demo_timed "g" "a"
    = (Ok (mkCompletion "a" 3 (3 * 0.9))%float, w') /\
    JsMap.get (activeGames w') "g" = None /\
    botGame_findUnique w' "a" "g"
    = Some (mkBotGame "r1" "a" 1 (Some 10000) 2 false None
                      (Some 4000) (Some 6000) None).
Proof.
  destruct (completeGame_ends_play demo_timed "g" "a"
              (mkGame LEVEL_3 3 (mkArena 3 3 1 60)
                        [mkBotGame "r1" "a" 1 None 2 false None
                                   (Some 4000) (Some 6000) None;
                         demo_row "r2" "b" 2 0]
                        3%float None))
    as (w' & H1 & H2 & _ & _ & _ & H3 & _); [reflexivity|].
  exists w'. split; [exact H1|]. split; [exact H2|].
  apply (H3 (mkBotGame "r1" "a" 1 None 2 false None
                       (Some 4000) (Some 6000) None)).
  - intros g [= <-]. cbn.
    repeat (constructor; [cbn; intuition discriminate|]). constructor.
  - reflexivity.
Defined.

(** ** The agent service *)

Lemma translateDirection_adjacent (p : Position) (d : Direction) :
  isValidMove p (translateDirection p d) = true.
Proof.
  unfold isValidMove, translateDirection.
  destruct d; cbn [DIRECTION_DELTAS fst snd pos_x pos_y];
    rewrite orb_true_iff, !andb_true_iff, !Z.eqb_eq; lia.
Qed.

(** X13. The four directions are exactly the valid moves: a cell is one
    valid move away exactly when some direction leads to it, different
    directions lead to different cells, and the offsets are those of the
    neighbour search, in its order. *)
Theorem translateDirection_valid_moves (p q : Position) :
  (isValidMove p q = true <-> exists d, q = translateDirection p d) /\
  (forall d d', translateDirection p d = translateDirection p d' -> d = d') /\
  map (translateDirection p) [dir_up; dir_down; dir_left; dir_right]
  = map (fun dir => mkPos (pos_x p + fst dir) (pos_y p + snd dir)) directions.
Proof.
  split; [|split].
  - split.
    + intros H. apply adjacent_cases in H as (dir & Hin & ->).
      unfold directions in Hin.
      destruct Hin as [<-|[<-|[<-|[<-|[]]]]];
        [exists dir_up|exists dir_down|exists dir_left|exists dir_right];
        reflexivity.
    + intros [d ->]. apply translateDirection_adjacent.
  - intros d d'. unfold translateDirection.
    destruct d, d'; cbn [DIRECTION_DELTAS fst snd]; intros H;
      try reflexivity; injection H; lia.
  - reflexivity.
Qed.

Lemma processMove_InvalidMove w now gameId botId toX toY w' :
  processMove w now gameId botId toX toY = (Err InvalidMove, w') ->
  exists gs cur,
    JsMap.get (activeGames w) gameId = Some gs /\
    JsMap.get (botPositions gs) botId = Some cur /\
    isValidMove cur (mkPos toX toY) = false.
Proof.
  unfold processMove.
  destruct (JsMap.get (activeGames w) gameId) as [gs|] eqn:Hgs;
    [|discriminate].
  destruct (JsMap.get (botPositions gs) botId) as [cur|] eqn:Hcur;
    [|discriminate].
  destruct (JsMap.has (botFinishTimes gs) botId); [discriminate|].
  destruct (isValidMove cur (mkPos toX toY)) eqn:Ev.
  - cbn [negb]. destruct (grid gs) as [|row0 rest]; [discriminate|].
    destruct (checkBoundaryCollision _ _); [discriminate|].
    destruct (GameModel_findById w gameId); [|discriminate].
    cbv zeta.
    destruct (checkObstacleCollision _ _).
    + unfold handleCollision.
      destruct (botGame_findUnique _ _ _); discriminate.
    + destruct (checkBotCollision _ _ _); [discriminate|].
      match goal with
      | |- (if ?c then _ else _) = _ -> _ => destruct c; discriminate
      end.
  - intros _. exists gs, cur. auto.
Qed.

Lemma startLevel_error (randoms : nat -> Z -> Z * Z) now n gameId level :
  forall retries w e w',
    startLevel retries w now randoms n gameId level = Some (Err e, w') ->
    e = GameNotFound.
Proof.
  induction retries as [|retries IH]; intros w e w'; cbn [startLevel];
    (destruct (GameModel_findById w gameId) as [game|];
     [|intros [= <- <-]; reflexivity]);
    match goal with
    | |- context [generateGrid ?r ?a ?b ?c] =>
        destruct (generateGrid r a b c) as [g|]; [|discriminate]
    end;
    match goal with
    | |- context [findPath ?g ?s ?e] =>
        destruct (zlen (findPath g s e) =? 0) eqn:Ep
    end; try discriminate.
  apply IH.
Qed.

Lemma eliminateBots_error w gameId level e w' :
  eliminateBots w gameId level = (Err e, w') ->
  (e = GameStateNotFound \/ e = GameNotFound) /\ w' = w.
Proof.
  unfold eliminateBots.
  destruct (JsMap.get (activeGames w) gameId);
    [|intros [= <- <-]; auto].
  destruct (GameModel_findById w gameId);
    [discriminate|intros [= <- <-]; auto].
Qed.

Lemma completeGame_error w gameId winner e w' :
  completeGame w gameId winner = (Err e, w') -> e = GameNotFound /\ w' = w.
Proof.
  unfold completeGame.
  destruct (GameModel_findById w gameId);
    [discriminate|intros [= <- <-]; auto].
Qed.

Lemma transition_error retries w now nowStart randoms n gameId e w' :
  checkAndHandleLevelTransition retries w now nowStart randoms n gameId
  = Some (Err e, w') ->
  e = GameStateNotFound \/ e = GameNotFound.
Proof.
  unfold checkAndHandleLevelTransition.
  destruct (checkLevelComplete w now gameId) as [lc w1].
  destruct lc; cbn [negb]; [|discriminate].
  destruct (GameModel_findById w1 gameId) as [game|]; [|discriminate].
  destruct (eliminateBots w1 gameId (currentLevel game)) as [[r|e0] w2] eqn:Ee.
  - destruct (currentLevel game >=? 3).
    + destruct (el_qualified r) as [|winner rest]; [discriminate|].
      destruct (String.eqb winner ""); [discriminate|].
      destruct (completeGame w2 gameId winner) as [[c|e1] w3] eqn:Ec;
        [discriminate|].
      intros [= <- <-]. apply completeGame_error in Ec as [-> _]. auto.
    + destruct (startLevel retries w2 nowStart randoms n gameId
                           (currentLevel game + 1))
        as [[[ls|e1] w3]|] eqn:Es; try discriminate.
      intros [= <- <-]. apply startLevel_error in Es. auto.
  - intros [= <- <-]. apply eliminateBots_error in Ee as [H _]. exact H.
Qed.

(** X14. [submitAgentMove] never fails with "Invalid move: must move to
    an adjacent cell": a direction always names an adjacent cell. A
    direction that leads out of the grid is refused as out of bounds, and
    nothing changes. *)
Theorem submitAgentMove_never_invalid (retries : nat) (w : World)
  (now nowCheck nowStart : Z) (randoms : nat -> Z -> Z * Z) (n : Z)
  (gameId botId : String.string) (direction : Direction)
  (outcome : Outcome MoveResult) (w' : World) :
  submitAgentMove retries w now nowCheck nowStart randoms n gameId botId
                  direction = Some (outcome, w') ->
  outcome <> Err InvalidMove /\
  (forall gs cur,
      JsMap.get (activeGames w) gameId = Some gs ->
      JsMap.get (botPositions gs) botId = Some cur ->
      JsMap.has (botFinishTimes gs) botId = false ->
      out_of_grid (grid gs) (pos_x (translateDirection cur direction))
                  (pos_y (translateDirection cur direction)) ->
      grid gs <> [] ->
      outcome = Err OutOfBounds /\ w' = w).
Proof.
  unfold submitAgentMove, getGameState. intros H. split.
  - destruct (JsMap.get (activeGames w) gameId) as [gs|] eqn:Hgs;
      [|injection H as <- <-; discriminate].
    destruct (JsMap.get (botPositions gs) botId) as [cur|] eqn:Hcur;
      [|injection H as <- <-; discriminate].
    cbv zeta in H.
    destruct (processMove w now gameId botId
                (pos_x (translateDirection cur direction))
                (pos_y (translateDirection cur direction)))
      as [[r|e] w1] eqn:Ep.
    + destruct (checkAndHandleLevelTransition retries w1 nowCheck nowStart
                  randoms n gameId) as [[[t|e] w2]|] eqn:Et;
        [injection H as <- <-; discriminate| |discriminate].
      injection H as <- <-. apply transition_error in Et.
      destruct Et as [-> | ->]; discriminate.
    + injection H as <- <-. intros [= ->].
      apply processMove_InvalidMove in Ep as (gs0 & cur0 & Hgs0 & Hcur0 & Hv).
      rewrite Hgs in Hgs0. injection Hgs0 as <-.
      rewrite Hcur in Hcur0. injection Hcur0 as <-.
      destruct (translateDirection cur direction) as [x y] eqn:Et.
      cbn [pos_x pos_y] in Hv. rewrite <- Et in Hv.
      rewrite translateDirection_adjacent in Hv. discriminate.
  - intros gs cur Hgs Hcur Hfin Hout Hne.
    rewrite Hgs, Hcur in H. cbv zeta in H.
    assert (Hv : isValidMove cur
                   (mkPos (pos_x (translateDirection cur direction))
                          (pos_y (translateDirection cur direction))) = true).
    { destruct (translateDirection cur direction) as [x y] eqn:Et.
      cbn [pos_x pos_y]. rewrite <- Et. apply translateDirection_adjacent. }
    rewrite (processMove_out_of_bounds w now gameId botId _ _ gs cur
               Hgs Hcur Hfin Hv Hout) in H.
    destruct (grid gs); [congruence|]. injection H as <- <-. auto.
Qed.

Lemma submitAgentMove_never_invalid_witness :
  submitAgentMove 0 demo_world 1500 1500 1500 demo_random 1 "g" "a" dir_up
  = Some (Err OutOfBounds, demo_world).
Proof.
  destruct (submitAgentMove 0 demo_world 1500 1500 1500 demo_random 1
                            "g" "a" dir_up) as [[outcome w']|] eqn:E;
    [|discriminate E].
  destruct (submitAgentMove_never_invalid _ _ _ _ _ _ _ _ _ _ _ _ E)
    as [_ H].
  destruct (H demo_state (mkPos 0 0)) as [-> ->]; try reflexivity.
  - right. right. left. cbn. lia.
  - discriminate.
Defined.

Lemma step_direction (a b : Position) :
  adjacent a b ->
  exists d,
    translateDirection a d = b /\
    (if pos_x b - pos_x a =? 1 then [dir_right]
     else if pos_x b - pos_x a =? -1 then [dir_left]
     else if pos_y b - pos_y a =? 1 then [dir_down]
     else if pos_y b - pos_y a =? -1 then [dir_up]
     else []) = [d].
Proof.
  intros H. apply adjacent_cases in H as (dir & Hin & ->).
  unfold directions in Hin. cbn [pos_x pos_y].
  destruct Hin as [<-|[<-|[<-|[<-|[]]]]]; cbn [fst snd].
  - exists dir_up. split; [reflexivity|].
    repeat match goal with
           | |- context [?x =? ?y] =>
               let E := fresh in
               destruct (x =? y) eqn:E;
               [apply Z.eqb_eq in E|apply Z.eqb_neq in E]; try lia
           end; reflexivity.
  - exists dir_down. split; [reflexivity|].
    repeat match goal with
           | |- context [?x =? ?y] =>
               let E := fresh in
               destruct (x =? y) eqn:E;
               [apply Z.eqb_eq in E|apply Z.eqb_neq in E]; try lia
           end; reflexivity.
  - exists dir_left. split; [reflexivity|].
    repeat match goal with
           | |- context [?x =? ?y] =>
               let E := fresh in
               destruct (x =? y) eqn:E;
               [apply Z.eqb_eq in E|apply Z.eqb_neq in E]; try lia
           end; reflexivity.
  - exists dir_right. split; [reflexivity|].
    repeat match goal with
           | |- context [?x =? ?y] =>
               let E := fresh in
               destruct (x =? y) eqn:E;
               [apply Z.eqb_eq in E|apply Z.eqb_neq in E]; try lia
           end; reflexivity.
Qed.

Lemma pathDirections_cons (a b : Position) (rest : list Position) :
  pathDirections (a :: b :: rest)
  = (if pos_x b - pos_x a =? 1 then [dir_right]
     else if pos_x b - pos_x a =? -1 then [dir_left]
     else if pos_y b - pos_y a =? 1 then [dir_down]
     else if pos_y b - pos_y a =? -1 then [dir_up]
     else []) ++ pathDirections (b :: rest).
Proof. reflexivity. Qed.

Lemma pathDirections_replay (path : list Position) :
  (forall i p q, nth_error path i = Some p ->
                 nth_error path (S i) = Some q -> adjacent p q) ->
  forall c rest,
    path = c :: rest ->
    replay c (pathDirections path) = path /\
    length (pathDirections path) = length rest.
Proof.
  induction path as [|a path IH]; intros Hadj c rest Heq; [discriminate|].
  injection Heq as -> ->.
  destruct rest as [|b rest]; [split; reflexivity|].
  assert (Hab : adjacent c b) by (apply (Hadj 0%nat); reflexivity).
  destruct (step_direction c b Hab) as (d & Hd & Hpush).
  rewrite pathDirections_cons, Hpush.
  cbn [app replay]. rewrite Hd.
  destruct (IH (fun i p q Hp Hq => Hadj (S i) p q Hp Hq) b rest eq_refl)
    as [Hr Hl].
  rewrite Hr. cbn [length]. rewrite Hl. split; reflexivity.
Qed.

Lemma replay_last (ds : list Direction) :
  forall p d, last (replay p ds) d = fold_left translateDirection ds p.
Proof.
  induction ds as [|x ds IH]; intros p d; [reflexivity|].
  cbn [replay fold_left]. rewrite <- (IH (translateDirection p x) d).
  destruct ds; reflexivity.
Qed.

Lemma hasPath_nonempty g s e :
  hasPath g s e = true -> findPath g s e <> [].
Proof.
  intros H E. unfold hasPath in H. rewrite E in H. discriminate.
Qed.

(** X15. For a live, unfinished bot with a path to the goal,
    [getOptimalPath] returns the path of [findPath] and directions that
    replay it: following them from the current cell visits the cells of
    the path, one per direction, and ends at the goal; [stepsRemaining]
    is the optimal path length. *)
Theorem getOptimalPath_directions (w : World) (gameId botId : String.string)
  (gs : GameState) (cur : Position) :
  JsMap.get (activeGames w) gameId = Some gs ->
  JsMap.get (botPositions gs) botId = Some cur ->
  JsMap.has (botFinishTimes gs) botId = false ->
  hasPath (grid gs) cur (endPosition gs) = true ->
  exists op,
    getOptimalPath w gameId botId = Ok op /\
    op_path op = findPath (grid gs) cur (endPosition gs) /\
    replay cur (op_directions op) = op_path op /\
    fold_left translateDirection (op_directions op) cur = endPosition gs /\
    op_stepsRemaining op
    = Some (getPathLength (grid gs) cur (endPosition gs)) /\
    op_message op = None.
Proof.
  intros Hgs Hcur Hfin Hp.
  pose proof (hasPath_nonempty _ _ _ Hp) as Hne.
  destruct (findPath_Walk _ _ _ Hne) as [HW _].
  pose proof (Walk_Route _ _ _ _ HW) as (Hhd & Hlast & _ & Hadj).
  unfold getOptimalPath, getGameState. rewrite Hgs, Hcur, Hfin. cbv zeta.
  destruct (findPath (grid gs) cur (endPosition gs)) as [|c rest] eqn:E;
    [congruence|].
  injection Hhd as ->.
  replace (zlen (cur :: rest) =? 0) with false
    by (symmetry; apply Z.eqb_neq; unfold zlen; cbn [length]; lia).
  destruct (pathDirections_replay (cur :: rest) Hadj cur rest eq_refl)
    as [Hr Hl].
  eexists. split; [reflexivity|]. cbn [op_path op_directions
                                        op_stepsRemaining op_message].
  split; [reflexivity|]. split; [exact Hr|].
  split; [|split; [|reflexivity]].
  - rewrite <- (replay_last _ cur cur), Hr. exact Hlast.
  - f_equal. rewrite getPathLength_found by congruence.
    rewrite E. unfold zlen. rewrite Hl. cbn [length]. lia.
Qed.

Lemma getOptimalPath_directions_witness :
  exists op,
    getOptimalPath demo_world "g" "a" = Ok op /\
    op_directions op = [dir_down; dir_down; dir_right; dir_right].
Proof.
  destruct (getOptimalPath_directions demo_world "g" "a" demo_state
              (mkPos 0 0)) as (op & H & _); try reflexivity.
  exists op. split; [exact H|].
  vm_compute in H. injection H as <-. reflexivity.
Defined.

(** ** Starting a level, once more *)

Lemma seeded_get_from {V : Type} (ps : list BotGame) (v : V) :
  forall (m : JsMap.t V) (k : String.string),
    JsMap.get (fold_left (fun m p => JsMap.set m (bg_botId p) v) ps m) k
    = if existsb (fun p => String.eqb (bg_botId p) k) ps then Some v
      else JsMap.get m k.
Proof.
  induction ps as [|p ps IH]; intros m k; cbn [fold_left existsb];
    [reflexivity|].
  rewrite IH.
  destruct (existsb (fun p0 => String.eqb (bg_botId p0) k) ps);
    [rewrite orb_true_r; reflexivity|].
  rewrite orb_false_r.
  destruct (String.eqb (bg_botId p) k) eqn:E.
  - apply String.eqb_eq in E. subst k. apply JsMap_get_set_eq.
  - apply String.eqb_neq in E. apply JsMap_get_set_neq. exact E.
Qed.

Lemma seeded_get {V : Type} (ps : list BotGame) (v : V) (k : String.string) :
  JsMap.get (seeded ps v) k
  = if existsb (fun p => String.eqb (bg_botId p) k) ps then Some v else None.
Proof. unfold seeded. rewrite seeded_get_from. reflexivity. Qed.

Lemma startLevel_success (randoms : nat -> Z -> Z * Z) now n gameId level :
  forall retries w ls w',
    startLevel retries w now randoms n gameId level = Some (Ok ls, w') ->
    exists game grid_,
      GameModel_findById w gameId = Some game /\
      findPath grid_ (mkPos 0 0)
               (mkPos (gridCols (arena game) - 1) (gridRows (arena game) - 1))
      <> [] /\
      w' = GameModel_updateStatus
             (set_gameState w gameId (started_state game grid_ now))
             gameId (statusMap level) level /\
      ls = mkLevelStart grid_
             (mkPos (gridCols (arena game) - 1) (gridRows (arena game) - 1))
             (botPositions (started_state game grid_ now)) level.
Proof.
  induction retries as [|retries IH]; intros w ls w'; cbn [startLevel];
    (destruct (GameModel_findById w gameId) as [game|] eqn:Hgame;
     [|discriminate]);
    match goal with
    | |- context [generateGrid ?r ?a ?b ?c] =>
        destruct (generateGrid r a b c) as [g|]; [|discriminate]
    end;
    match goal with
    | |- context [findPath ?g ?s ?e] =>
        destruct (zlen (findPath g s e) =? 0) eqn:Ep
    end; try discriminate.
  - cbv zeta. intros [= <- <-]. exists game, g. split; [reflexivity|].
    split; [|split; reflexivity].
    intros E. rewrite E in Ep. discriminate.
  - intros H. destruct (IH w ls w' H) as (game' & grid_ & Hg & Hrest).
    rewrite Hgame in Hg. injection Hg as <-. eauto.
  - cbv zeta. intros [= <- <-]. exists game, g. split; [reflexivity|].
    split; [|split; reflexivity].
    intros E. rewrite E in Ep. discriminate.
Qed.


Lemma active_in_existsb (g : Game) (botId : String.string) :
  existsb (fun p => String.eqb (bg_botId p) botId)
          (filter (fun p => negb (bg_eliminated p))
                  (sortBy by_position (participants g)))
  = true <-> active_in g botId.
Proof.
  rewrite existsb_exists. unfold active_in. split.
  - intros (p & Hin & Hb). apply filter_In in Hin as [Hin Ha].
    apply sortBy_In in Hin. apply String.eqb_eq in Hb.
    apply negb_true_iff in Ha. eauto.
  - intros (p & Hin & Hb & Ha). exists p. split.
    + apply filter_In. split; [apply sortBy_In, Hin|].
      rewrite Ha. reflexivity.
    + subst. apply String.eqb_refl.
Qed.

Lemma started_state_get (g : Game) (grid_ : Grid) (now : Z)
  (botId : String.string) :
  let gs := started_state
              (set_participants g (sortBy by_position (participants g)))
              grid_ now in
  (active_in g botId ->
   JsMap.get (botPositions gs) botId = Some (mkPos 0 0) /\
   JsMap.get (moveCounters gs) botId = Some 0) /\
  (~ active_in g botId ->
   JsMap.get (botPositions gs) botId = None /\
   JsMap.get (moveCounters gs) botId = None).
Proof.
  cbv zeta. unfold started_state. cbv zeta.
  cbn [botPositions moveCounters participants set_participants].
  rewrite !seeded_get.
  destruct (existsb (fun p => String.eqb (bg_botId p) botId)
              (filter (fun p => negb (bg_eliminated p))
                      (sortBy by_position (participants g)))) eqn:E.
  - split; auto. intros Hn. exfalso. apply Hn, active_in_existsb, E.
  - split; auto. intros Ha. apply active_in_existsb in Ha. congruence.
Qed.

(** What a level start leaves behind. *)
Lemma startLevel_effect (randoms : nat -> Z -> Z * Z) now n gameId level
  retries w ls w' g :
  startLevel retries w now randoms n gameId level = Some (Ok ls, w') ->
  JsMap.get (games w) gameId = Some g ->
  exists gs,
    JsMap.get (activeGames w') gameId = Some gs /\
    (forall botId, active_in g botId ->
                   JsMap.get (botPositions gs) botId = Some (mkPos 0 0) /\
                   JsMap.get (moveCounters gs) botId = Some 0) /\
    (forall botId, ~ active_in g botId ->
                   JsMap.get (botPositions gs) botId = None) /\
    botFinishTimes gs = JsMap.empty /\
    startTime gs = now /\
    endPosition gs = mkPos (gridCols (arena g) - 1) (gridRows (arena g) - 1) /\
    hasPath (grid gs) (mkPos 0 0) (endPosition gs) = true /\
    ls_grid ls = grid gs /\ ls_level ls = level /\
    JsMap.get (games w') gameId
    = Some (mkGame (match statusMap level with
                    | Some s => s
                    | None => status g
                    end)
                   level (arena g) (participants g) (prizePool g)
                   (winnerId g)) /\
    moves w' = moves w /\
    (forall other, other <> gameId ->
                   JsMap.get (activeGames w') other
                   = JsMap.get (activeGames w) other) /\
    (forall other, other <> gameId ->
                   JsMap.get (games w') other = JsMap.get (games w) other).
Proof.
  intros Hs Hg.
  destruct (startLevel_success _ _ _ _ _ _ _ _ _ Hs)
    as (game & grid_ & Hgame & Hpath & -> & ->).
  rewrite (GameModel_findById_rows _ _ _ Hg) in Hgame.
  injection Hgame as <-.
  unfold rowsOf in *. rewrite Hg in *.
  eexists. rewrite activeGames_updateStatus.
  split; [apply get_set_gameState|].
  split; [intros b Hb; apply (started_state_get g grid_ now b); exact Hb|].
  split; [intros b Hb; apply (started_state_get g grid_ now b); exact Hb|].
  split; [reflexivity|]. split; [reflexivity|]. split; [reflexivity|].
  split.
  { unfold hasPath. cbn [grid endPosition started_state arena
                         set_participants].
    apply Z.gtb_lt. cbn [arena set_participants] in Hpath.
    destruct (findPath grid_ _ _); [congruence|].
    unfold zlen. cbn [length]. lia. }
  split; [reflexivity|]. split; [reflexivity|].
  unfold GameModel_updateStatus. cbn [games set_gameState set_activeGames].
  rewrite Hg. cbn [games set_games moves activeGames].
  split; [apply JsMap_get_set_eq|].
  split; [reflexivity|].
  split.
  - intros other Hne. apply JsMap_get_set_neq. congruence.
  - intros other Hne. apply JsMap_get_set_neq. congruence.
Qed.

(** X16. A level start puts exactly the participants that are not
    eliminated at (0,0) with a move counter of 0, with no finish times,
    with the clock of the call as start time and the far corner as goal,
    on a grid that has a path between the two; an eliminated or unknown
    bot is refused as not active. The game gets the level and its status,
    and keeps its participants, pool and winner; no move is logged. *)
Theorem startLevel_seeds_survivors (randoms : nat -> Z -> Z * Z)
  (now n : Z) (gameId : String.string) (level : Z) (retries : nat)
  (w w' : World) (ls : LevelStart) (g : Game) :
  startLevel retries w now randoms n gameId level = Some (Ok ls, w') ->
  JsMap.get (games w) gameId = Some g ->
  exists gs,
    JsMap.get (activeGames w') gameId = Some gs /\
    (forall botId, active_in g botId ->
                   JsMap.get (botPositions gs) botId = Some (mkPos 0 0) /\
                   JsMap.get (moveCounters gs) botId = Some 0) /\
    (forall botId now' toX toY,
        ~ active_in g botId ->
        processMove w' now' gameId botId toX toY = (Err BotNotActive, w')) /\
    botFinishTimes gs = JsMap.empty /\
    startTime gs = now /\
    endPosition gs = mkPos (gridCols (arena g) - 1) (gridRows (arena g) - 1) /\
    hasPath (grid gs) (mkPos 0 0) (endPosition gs) = true /\
    JsMap.get (games w') gameId
    = Some (mkGame (match statusMap level with
                    | Some s => s
                    | None => status g
                    end)
                   level (arena g) (participants g) (prizePool g)
                   (winnerId g)) /\
    moves w' = moves w.
Proof.
  intros Hs Hg.
  destruct (startLevel_effect _ _ _ _ _ _ _ _ _ _ Hs Hg)
    as (gs & Hgs & Hact & Hnot & Hfin & Hst & Hend & Hp & _ & _ & Hgame
        & Hm & _).
  exists gs. repeat split; auto; try apply Hact; auto.
  intros botId now' toX toY Hn.
  eapply processMove_not_live; eauto.
Qed.

Lemma startLevel_seeds_survivors_witness :
  exists gs,
    JsMap.get (activeGames demo_started) "g" = Some gs /\
    JsMap.get (botPositions gs) "b" = Some (mkPos 0 0) /\
    botFinishTimes gs = JsMap.empty.
Proof.
  destruct (startLevel 0 demo_boot 1000 demo_random 1 "g" 1)
    as [[[ls|e] w']|] eqn:E;
    [|vm_compute in E; discriminate E|vm_compute in E; discriminate E].
  destruct (startLevel_seeds_survivors demo_random 1000 1 "g" 1 0
              demo_boot w' ls demo_game E eq_refl)
    as (gs & Hgs & Hact & _ & Hfin & _).
  exists gs. unfold demo_started. rewrite E.
  split; [exact Hgs|]. split; [|exact Hfin].
  apply Hact. exists (demo_row "r2" "b" 2 0).
  split; [right; left; reflexivity|]. split; reflexivity.
Defined.


(** ** Level transitions *)

Lemma checkLevelComplete_false w now gameId :
  fst (checkLevelComplete w now gameId) = false ->
  checkLevelComplete w now gameId = (false, w).
Proof.
  unfold checkLevelComplete.
  destruct (JsMap.get (activeGames w) gameId); auto.
  destruct (GameModel_findById w gameId); auto.
  cbv zeta.
  match goal with
  | |- context [if ?c || ?t then _ else _] =>
      destruct c; destruct t; cbn [orb fst]; auto; discriminate
  end.
Qed.

Lemma transition_idle retries w now nowStart randoms n gameId :
  fst (checkLevelComplete w now gameId) = false ->
  checkAndHandleLevelTransition retries w now nowStart randoms n gameId
  = Some (Ok NoTransition, w).
Proof.
  intros H. unfold checkAndHandleLevelTransition.
  rewrite (checkLevelComplete_false _ _ _ H). reflexivity.
Qed.

(** X18. Until the level is complete, [submitAgentMove] is
    [processMove] on the cell the direction names: when the completion
    check after the move answers [false], the outcome and the state are
    those of [processMove]. *)
Theorem submitAgentMove_before_completion (retries : nat) (w w1 : World)
  (now nowCheck nowStart : Z) (randoms : nat -> Z -> Z * Z) (n : Z)
  (gameId botId : String.string) (direction : Direction)
  (gs : GameState) (cur : Position) (outcome : Outcome MoveResult) :
  JsMap.get (activeGames w) gameId = Some gs ->
  JsMap.get (botPositions gs) botId = Some cur ->
  processMove w now gameId botId
              (pos_x cur + fst (DIRECTION_DELTAS direction))
              (pos_y cur + snd (DIRECTION_DELTAS direction))
  = (outcome, w1) ->
  fst (checkLevelComplete w1 nowCheck gameId) = false ->
  submitAgentMove retries w now nowCheck nowStart randoms n gameId botId
                  direction
  = Some (outcome, w1).
Proof.
  intros Hgs Hcur Hp Hc. unfold submitAgentMove, getGameState.
  rewrite Hgs, Hcur. cbv zeta. unfold translateDirection. cbv zeta.
  cbn [pos_x pos_y]. rewrite Hp.
  destruct outcome as [r|e]; [|reflexivity].
  rewrite (transition_idle _ _ _ _ _ _ _ Hc). reflexivity.
Qed.

Lemma submitAgentMove_before_completion_witness :
  exists r w1,
    submitAgentMove 0 demo_world 1500 1500 1500 demo_random 1 "g" "a"
                    dir_right
    = Some (Ok r, w1).
Proof.
  eexists _, _.
  eapply (submitAgentMove_before_completion 0 demo_world _ 1500 1500 1500
            demo_random 1 "g" "a" dir_right demo_state (mkPos 0 0));
    reflexivity.
Defined.





Lemma firstn_head {A : Type} (k : nat) (l : list A) (a : A) (rest : list A) :
  firstn k l = a :: rest -> exists l', l = a :: l'.
Proof.
  destruct k; [discriminate|]. destruct l; [discriminate|].
  simpl. intros [= <- _]. eauto.
Qed.









(** X20. For a participant of a game with a round state,
    [getAgentGameState] returns the row of the bot, the number of
    participants, the live position, and a remaining time that is never
    negative; when it shows no time remaining, [checkLevelComplete] at
    that instant answers [true], and when it shows the bot as finished,
    every move of the bot is refused without a change. *)
Theorem getAgentGameState_live (w : World) (now : Z)
  (gameId botId : String.string) (g : Game) (gs : GameState) (p : BotGame) :
  JsMap.get (games w) gameId = Some g ->
  JsMap.get (activeGames w) gameId = Some gs ->
  In p (participants g) -> bg_botId p = botId ->
  exists view ld,
    getAgentGameState w now gameId botId = inr view /\
    ags_liveData view = Some ld /\
    bg_botId (ags_agent view) = botId /\
    In (ags_agent view) (participants g) /\
    ags_participantCount view = zlen (participants g) /\
    ld_myPosition ld = JsMap.get (botPositions gs) botId /\
    ld_timeRemainingMs ld
    = Z.max 0 (timeLimit (arena g) * 1000 - (now - startTime gs)) /\
    0 <= ld_timeRemainingMs ld /\
    (ld_timeRemainingMs ld = 0 ->
     fst (checkLevelComplete w now gameId) = true) /\
    (ld_finished ld = true ->
     forall now' toX toY,
       exists e, processMove w now' gameId botId toX toY = (Err e, w)).
Proof.
  intros Hg Hgs Hp Hb. unfold getAgentGameState, getGameState.
  rewrite (GameModel_findById_rows _ _ _ Hg), Hgs.
  cbn [participants set_participants status currentLevel arena winnerId].
  assert (Hrows : rowsOf w gameId = participants g)
    by (unfold rowsOf; rewrite Hg; reflexivity).
  rewrite Hrows.
  destruct (find (fun q => String.eqb (bg_botId q) botId)
                 (sortBy by_position (participants g))) as [agent|] eqn:Ef.
  - apply find_some in Ef as [Hin Heq]. apply sortBy_In in Hin.
    apply String.eqb_eq in Heq.
    eexists _, _. split; [reflexivity|].
    cbn [ags_liveData ags_agent ags_participantCount ld_myPosition
         ld_timeRemainingMs ld_finished].
    split; [reflexivity|].
    cbn [ld_myPosition ld_timeRemainingMs ld_finished].
    split; [exact Heq|]. split; [exact Hin|].
    split; [unfold zlen; rewrite sortBy_length; reflexivity|].
    split; [reflexivity|]. split; [reflexivity|]. split; [lia|].
    split.
    + intros Hz.
      rewrite (checkLevelComplete_unfold w now gameId gs g Hgs Hg).
      cbv zeta. unfold timeLimitMs.
      replace (now - startTime gs >=? timeLimit (arena g) * 1000) with true
        by (symmetry; rewrite Z.geb_leb; apply Z.leb_le; lia).
      rewrite orb_true_r. reflexivity.
    + intros Hfin now' toX toY.
      destruct (JsMap.get (botPositions gs) botId) as [cur|] eqn:Hcur.
      * eexists. eapply processMove_finished; eauto.
      * eexists. eapply processMove_not_live; eauto.
  - exfalso. eapply find_none in Ef; [|apply sortBy_In; exact Hp].
    cbn in Ef. rewrite Hb, String.eqb_refl in Ef. discriminate.
Qed.

Lemma getAgentGameState_live_witness :
  exists view ld,
    getAgentGameState demo_world 61000 "g" "c" = inr view /\
    ags_liveData view = Some ld /\
    ld_timeRemainingMs ld = 0 /\ ld_finished ld = true.
Proof.
  destruct (getAgentGameState_live demo_world 61000 "g" "c" demo_game
              demo_state (demo_row "r3" "c" 3 0))
    as (view & ld & Hv & Hld & _); try reflexivity.
  - right. right. left. reflexivity.
  - exists view, ld. split; [exact Hv|]. split; [exact Hld|].
    vm_compute in Hv. injection Hv as <-.
    vm_compute in Hld. injection Hld as <-. split; reflexivity.
Defined.

(** * The prize split *)




